(** * Crossy-road style hopper: lane generation and simulation engine

    A shallow embedding of [main.py] (difficulty curve, obstacles, lanes,
    world, player, game loop) together with the properties stated for it.

    Modelling conventions.
    - Python [int] is [Z].  Python [float] is idealised as an exact rational
      [Q]: every float expression of the source is transcribed operation by
      operation, and rounding is not modelled.  Equalities between computed
      floats are therefore stated with [==] ([Qeq]).
    - [random.Random] is a deterministic reader of an arbitrary stream of raw
      draws ([Rng]); all lanes share the one generator held by the world, so
      the generator is threaded through every function that draws from it.
    - Python object identity of an [Obstacle] (used by the player's
      [log_under is ob] test) is an explicit identifier [oid] handed out by an
      allocation counter kept next to the generator in [Store].
    - A [ZeroDivisionError] (the only exception the simulation code can raise)
      is the [None] result of the functions that divide by [diff]. *)

From Stdlib Require Import ZArith QArith Qround Lia Lqa List Bool.
From Stdlib Require Import PrimFloat Uint63.
From stdpp Require Import base option list gmap sorting.

Local Open Scope Z_scope.

(** ** Config *)

Definition TILE : Z := 48.
Definition GRID_W : Z := 11.
Definition SCREEN_W : Z := GRID_W * TILE.
Definition SCREEN_H : Z := 14 * TILE.

Definition START_SAFE_ROWS : Z := 6.
Definition LANE_LOOKAHEAD : Z := 55.

Definition CAR_SPEED_MIN : Q := 120.
Definition CAR_SPEED_MAX : Q := 170.
Definition LOG_SPEED_MIN : Q := 90.
Definition LOG_SPEED_MAX : Q := 130.
Definition TRAIN_SPEED : Q := 600.

Definition CAR_SPAWN_MIN : Q := 1.
Definition CAR_SPAWN_MAX : Q := 16 # 10.
Definition LOG_SPAWN_MIN : Q := 11 # 10.
Definition LOG_SPAWN_MAX : Q := 17 # 10.

Definition TRAIN_INTERVAL_MIN : Q := 6.
Definition TRAIN_INTERVAL_MAX : Q := 10.
Definition TRAIN_WARNING_TIME : Q := 11 # 10.

(** [MIN_GAP = TILE * 0.75] *)
Definition MIN_GAP : Q := inject_Z TILE * (75 # 100).

Definition LOG_DIP_DURATION : Q := 18 # 100.

(** ** Difficulty *)

Definition Qleb (a b : Q) : bool := Qle_bool a b.
Definition Qltb (a b : Q) : bool := negb (Qle_bool b a).

Definition difficulty (score : Z) : Q :=
  if score <=? 0 then 60 # 100
  else if score <? 20 then
    (60 # 100) + (inject_Z score / 20) * (1 - (60 # 100))
  else if score <? 80 then
    1 + (inject_Z (score - 20) / 60) * ((145 # 100) - 1)
  else 145 # 100.

(** The same function on IEEE 754 binary64 numbers, with the rounding of
    every operation, as Python evaluates it.  It is used to cross-check the
    idealised [difficulty] at the scores where the branches are computed
    (an [int] between 1 and 79 converts to a float exactly). *)
#[local] Set Warnings "-inexact-float".
Definition to_float (n : Z) : float := PrimFloat.of_uint63 (Uint63.of_Z n).

Definition difficulty_binary64 (score : Z) : float :=
  if score <=? 0 then 0.60%float
  else if score <? 20 then
    (0.60 + (to_float score / 20.0) * (1.00 - 0.60))%float
  else if score <? 80 then
    (1.00 + (to_float (score - 20) / 60.0) * (1.45 - 1.00))%float
  else 1.45%float.

(** The piecewise function in the words of the specification. *)
Definition difficulty_spec (s : Z) : Q :=
  if Z_le_dec s 0 then 60 # 100
  else if Z_lt_dec s 20 then (60 # 100) + (inject_Z s / 20) * (40 # 100)
  else if Z_lt_dec s 80 then 1 + ((inject_Z s - 20) / 60) * (45 # 100)
  else 145 # 100.


(** ** The random source and the store

    A [random.Random] instance is a cursor into a stream of raw draws.  A
    seed fixes the stream; quantifying over all streams covers every seed.
    The methods below are the ones of Python's [random] module that the
    program calls, each consuming the raw draws the way the library does:
    one draw per [_randbelow] and one per [random()]. *)

Record Rng := mkRng { draws : nat -> N; cursor : nat }.

Record Store := mkStore { rng : Rng; next_oid : nat }.

Definition Gen (A : Type) : Type := Store -> A * Store.

Definition ret {A} (a : A) : Gen A := fun s => (a, s).

Definition bind {A B} (m : Gen A) (k : A -> Gen B) : Gen B :=
  fun s => let '(a, s') := m s in k a s'.

Notation "'let*' x ':=' m 'in' k" := (bind m (fun x => k))
  (at level 10, x name, m at level 100, k at level 200, only parsing).

Definition next_raw : Gen N := fun s =>
  let g := rng s in
  (draws g (cursor g), mkStore (mkRng (draws g) (S (cursor g))) (next_oid s)).

(** A fresh object identity. *)
Definition fresh_oid : Gen nat := fun s =>
  (next_oid s, mkStore (rng s) (S (next_oid s))).

Definition randbelow (n : Z) : Gen Z :=
  let* r := next_raw in ret (Z.of_N r mod n).

(** [random()]: a multiple of 2^-53 in [0, 1). *)
Definition random : Gen Q :=
  let* r := next_raw in ret (Z.of_N r mod 2 ^ 53 # 2 ^ 53).

(** [uniform(a, b) = a + (b - a) * random()].  Over the rationals the value
    stays below [b]; the floating-point sum can round up to [b] itself, as
    the library documents.  The statements about draws of [uniform] therefore
    use the closed range from [a] to [b] only. *)
Definition uniform (a b : Q) : Gen Q :=
  let* u := random in ret (a + (b - a) * u)%Q.

Definition randrange (n : Z) : Gen Z := randbelow n.

(** [randint(a, b) = randrange(a, b + 1)] *)
Definition randint (a b : Z) : Gen Z :=
  let* k := randbelow (b + 1 - a) in ret (a + k).

(** [choice(seq)] on the non-empty sequence [x :: xs]. *)
Definition choice {A} (x : A) (xs : list A) : Gen A :=
  let* i := randbelow (Z.of_nat (length (x :: xs))) in
  ret (nth (Z.to_nat i) (x :: xs) x).

(** [x[i], x[j] = x[j], x[i]] *)
Definition swap {A} (i j : nat) (l : list A) : list A :=
  match l !! i, l !! j with
  | Some a, Some b => <[i := b]> (<[j := a]> l)
  | _, _ => l
  end.

(** [shuffle(x)]: for [i] from [len(x) - 1] down to 1, swap [x[i]] with
    [x[randbelow(i + 1)]]. *)
Fixpoint shuffle_from {A} (i : nat) (l : list A) : Gen (list A) :=
  match i with
  | O => ret l
  | S i' =>
      let* j := randbelow (Z.of_nat (S i') + 1) in
      shuffle_from i' (swap (S i') (Z.to_nat j) l)
  end.

Definition shuffle {A} (l : list A) : Gen (list A) :=
  shuffle_from (length l - 1) l.

(** [range(a, b)] *)
Definition range (a b : Z) : list Z := seqZ a (b - a).

(** ** Obstacle *)

Module Obstacle.

Record t := mk {
  oid : nat;
  x : Q;
  w : Q;
  base_speed : Q;
  dir : Z
}.

Definition set_x (ob : t) (x' : Q) : t :=
  mk (oid ob) x' (w ob) (base_speed ob) (dir ob).

(** [Obstacle(x, w, base_speed, direction)] *)
Definition init (x0 w0 speed : Q) (direction : Z) : Gen t :=
  let* i := fresh_oid in ret (mk i x0 w0 speed direction).

(** [self.x += self.dir * (self.base_speed * speed_mult) * dt] *)
Definition update (dt speed_mult : Q) (ob : t) : t :=
  set_x ob (x ob + inject_Z (dir ob) * (base_speed ob * speed_mult) * dt)%Q.

End Obstacle.

(** ** Lane *)

Inductive LaneType := LANE_GRASS | LANE_ROAD | LANE_RIVER | LANE_RAIL.

Definition LaneType_eqb (a b : LaneType) : bool :=
  match a, b with
  | LANE_GRASS, LANE_GRASS | LANE_ROAD, LANE_ROAD
  | LANE_RIVER, LANE_RIVER | LANE_RAIL, LANE_RAIL => true
  | _, _ => false
  end.

(** Stable sort by a rational key ([list.sort(key=...)]): an element goes in
    front of the first one whose key is not smaller. *)
Fixpoint insert_by {A} (key : A -> Q) (a : A) (l : list A) : list A :=
  match l with
  | [] => [a]
  | b :: l' => if Qleb (key a) (key b) then a :: b :: l'
               else b :: insert_by key a l'
  end.

Definition sort_by {A} (key : A -> Q) (l : list A) : list A :=
  foldr (insert_by key) [] l.

(** [min(seq, key=...)] and [max(seq, key=...)] on [a :: l]: the first
    element whose key is extremal. *)
Definition min_by {A} (key : A -> Q) (a : A) (l : list A) : A :=
  fold_left (fun best b => if Qltb (key b) (key best) then b else best) l a.

Definition max_by {A} (key : A -> Q) (a : A) (l : list A) : A :=
  fold_left (fun best b => if Qltb (key best) (key b) then b else best) l a.

Module Lane.

Record t := mk {
  row : Z;
  type : LaneType;
  obstacles : list Obstacle.t;
  blocked_cols : gset Z;
  direction : Z;
  spawn_timer : Q;
  base_spawn_interval : Q;
  base_speed : Q;
  train_timer : Q;
  train_warning : Q;
  train_active : bool;
  train_x : Q;
  train_dir : Z
}.

Definition set_obstacles (l : t) (obs : list Obstacle.t) : t :=
  mk (row l) (type l) obs (blocked_cols l) (direction l) (spawn_timer l)
     (base_spawn_interval l) (base_speed l) (train_timer l)
     (train_warning l) (train_active l) (train_x l) (train_dir l).

Definition set_blocked_cols (l : t) (b : gset Z) : t :=
  mk (row l) (type l) (obstacles l) b (direction l) (spawn_timer l)
     (base_spawn_interval l) (base_speed l) (train_timer l)
     (train_warning l) (train_active l) (train_x l) (train_dir l).

Definition set_spawn_timer (l : t) (v : Q) : t :=
  mk (row l) (type l) (obstacles l) (blocked_cols l) (direction l) v
     (base_spawn_interval l) (base_speed l) (train_timer l)
     (train_warning l) (train_active l) (train_x l) (train_dir l).

Definition set_base_spawn_interval (l : t) (v : Q) : t :=
  mk (row l) (type l) (obstacles l) (blocked_cols l) (direction l)
     (spawn_timer l) v (base_speed l) (train_timer l)
     (train_warning l) (train_active l) (train_x l) (train_dir l).

Definition set_base_speed (l : t) (v : Q) : t :=
  mk (row l) (type l) (obstacles l) (blocked_cols l) (direction l)
     (spawn_timer l) (base_spawn_interval l) v (train_timer l)
     (train_warning l) (train_active l) (train_x l) (train_dir l).

Definition set_train_timer (l : t) (v : Q) : t :=
  mk (row l) (type l) (obstacles l) (blocked_cols l) (direction l)
     (spawn_timer l) (base_spawn_interval l) (base_speed l) v
     (train_warning l) (train_active l) (train_x l) (train_dir l).

Definition set_train_warning (l : t) (v : Q) : t :=
  mk (row l) (type l) (obstacles l) (blocked_cols l) (direction l)
     (spawn_timer l) (base_spawn_interval l) (base_speed l) (train_timer l)
     v (train_active l) (train_x l) (train_dir l).

Definition set_train_active (l : t) (v : bool) : t :=
  mk (row l) (type l) (obstacles l) (blocked_cols l) (direction l)
     (spawn_timer l) (base_spawn_interval l) (base_speed l) (train_timer l)
     (train_warning l) v (train_x l) (train_dir l).

Definition set_train_x (l : t) (v : Q) : t :=
  mk (row l) (type l) (obstacles l) (blocked_cols l) (direction l)
     (spawn_timer l) (base_spawn_interval l) (base_speed l) (train_timer l)
     (train_warning l) (train_active l) v (train_dir l).

Definition set_train_dir (l : t) (v : Z) : t :=
  mk (row l) (type l) (obstacles l) (blocked_cols l) (direction l)
     (spawn_timer l) (base_spawn_interval l) (base_speed l) (train_timer l)
     (train_warning l) (train_active l) (train_x l) v.

Definition is_blocked (l : t) (col : Z) : bool :=
  bool_decide (col ∈ blocked_cols l).

Definition all_cols : gset Z := list_to_set (range 0 GRID_W).

Definition open_cols (l : t) : gset Z :=
  match type l with
  | LANE_GRASS => all_cols ∖ blocked_cols l
  | _ => all_cols
  end.

(** *** Grass corridor logic *)

(** The safe-zone corridor. *)
Definition safe_corridor : gset Z :=
  let center := GRID_W / 2 in
  {[Z.max 0 (center - 1); center; Z.min (GRID_W - 1) (center + 1)]}.

(** The corridor of a lane beyond the safe zone. *)
Definition corridor_of (corridor_center corridor_width : Z) : gset Z :=
  list_to_set
    ((fun dx => Z.max 0 (Z.min (GRID_W - 1) (corridor_center + dx)))
       <$> range (- (corridor_width / 2)) (corridor_width / 2 + 1)).

(** [candidates = [c for c in range(GRID_W) if c not in corridor]] *)
Definition candidates_outside (corridor : gset Z) : list Z :=
  filter (fun c => c ∉ corridor) (range 0 GRID_W).

(** The planting loop of [_init_grass] with its two [break]s. *)
Fixpoint plant_trees (target_trees : Z) (candidates : list Z)
    (blocked : gset Z) : gset Z :=
  match candidates with
  | [] => blocked
  | c :: rest =>
      if target_trees <=? Z.of_nat (size blocked) then blocked
      else if GRID_W - (Z.of_nat (size blocked) + 1) <? 3 then blocked
      else plant_trees target_trees rest ({[c]} ∪ blocked)
  end.

(** The corridor centre drawn beyond the safe zone. *)
Definition pick_corridor_center (prev_open_cols : option (gset Z)) : Gen Z :=
  match prev_open_cols with
  | Some prev =>
      match merge_sort Z.le (elements prev) with
      | c :: cs => choice c cs
      | [] => randrange GRID_W
      end
  | None => randrange GRID_W
  end.

(** [_init_grass]; next to the lane, the result carries the values of the
    locals [corridor_center] ([center] in the safe zone) and [corridor], so
    that statements about the corridor can name them. *)
Definition _init_grass (prev_open_cols : option (gset Z)) (l : t)
    : Gen (Z * gset Z * t) :=
  if row l <? START_SAFE_ROWS then
    let center := GRID_W / 2 in
    let corridor := safe_corridor in
    let* target_trees := randint 0 2 in
    let* candidates := shuffle (candidates_outside corridor) in
    ret (center, corridor,
         set_blocked_cols l
           (foldl (fun b c => {[c]} ∪ b) (blocked_cols l)
                  (take (Z.to_nat target_trees) candidates)))
  else
    let* corridor_center := pick_corridor_center prev_open_cols in
    let* corridor_width := choice 2 [3] in
    let corridor := corridor_of corridor_center corridor_width in
    let* target_trees := randint 2 5 in
    let* candidates := shuffle (candidates_outside corridor) in
    ret (corridor_center, corridor,
         set_blocked_cols l
           (plant_trees target_trees candidates (blocked_cols l) ∖ corridor)).

(** *** Spawning and spacing *)

Definition _edge_spawn_x (l : t) (w : Q) : Gen Q :=
  if direction l =? 1 then
    let* u := uniform 0 (inject_Z (TILE * 2)) in ret (- w - u)%Q
  else
    let* u := uniform 0 (inject_Z (TILE * 2)) in ret (inject_Z SCREEN_W + u)%Q.

Definition _can_spawn_with_gap (l : t) (x w : Q) : bool :=
  match obstacles l with
  | [] => true
  | ob :: obs =>
      if direction l =? 1 then
        let nearest := min_by Obstacle.x ob obs in
        Qleb (x + w) (Obstacle.x nearest - MIN_GAP)
      else
        let nearest :=
          max_by (fun o => Obstacle.x o + Obstacle.w o)%Q ob obs in
        Qleb (Obstacle.x nearest + Obstacle.w nearest + MIN_GAP) x
  end.

(** The loop of [_enforce_no_overlap] over the sorted list, [prev] being
    the (already placed) predecessor. *)
Fixpoint push_apart (prev : Obstacle.t) (rest : list Obstacle.t)
    : list Obstacle.t :=
  match rest with
  | [] => []
  | cur :: rest' =>
      let min_x := (Obstacle.x prev + Obstacle.w prev + MIN_GAP)%Q in
      let cur' := if Qltb (Obstacle.x cur) min_x
                  then Obstacle.set_x cur min_x else cur in
      cur' :: push_apart cur' rest'
  end.

Definition enforce_list (obs : list Obstacle.t) : list Obstacle.t :=
  if (length obs <=? 1)%nat then obs
  else match sort_by Obstacle.x obs with
       | [] => []
       | prev :: rest => prev :: push_apart prev rest
       end.

Definition _enforce_no_overlap (l : t) : t :=
  set_obstacles l (enforce_list (obstacles l)).

(** The common tail of both branches of [spawn_obstacle]. *)
Definition spawn_with_width (w : Q) (l : t) : Gen t :=
  let* x := _edge_spawn_x l w in
  if _can_spawn_with_gap l x w then
    let* ob := Obstacle.init x w (base_speed l) (direction l) in
    ret (set_obstacles l (obstacles l ++ [ob]))
  else ret l.

Definition spawn_obstacle (l : t) : Gen t :=
  match type l with
  | LANE_ROAD => spawn_with_width (inject_Z (1 * TILE)) l
  | LANE_RIVER =>
      let* w_tiles := choice 2 [2; 3] in
      spawn_with_width (inject_Z (w_tiles * TILE)) l
  | _ => ret l
  end.

Fixpoint _seed_obstacles (count : nat) (l : t) : Gen t :=
  match count with
  | O => ret l
  | S n => let* l' := spawn_obstacle l in _seed_obstacles n l'
  end.

(** The part of [__init__] that does not depend on the lane type. *)
Definition init_fields (row0 : Z) (lane_type : LaneType) : Gen t :=
  let* direction0 := choice (-1) [1] in
  let* train_timer0 := uniform TRAIN_INTERVAL_MIN TRAIN_INTERVAL_MAX in
  let* train_dir0 := choice (-1) [1] in
  ret (mk row0 lane_type [] ∅ direction0 0 1 0 train_timer0 0 false 0
          train_dir0).

(** [Lane(row, lane_type, rng, prev_open_cols)] *)
Definition init (row0 : Z) (lane_type : LaneType)
    (prev_open_cols : option (gset Z)) : Gen t :=
  let* l := init_fields row0 lane_type in
  match lane_type with
  | LANE_GRASS =>
      let* grass := _init_grass prev_open_cols l in ret (grass.2)
  | LANE_ROAD =>
      let* i := uniform CAR_SPAWN_MIN CAR_SPAWN_MAX in
      let* v := uniform CAR_SPEED_MIN CAR_SPEED_MAX in
      let* count := choice 1 [1; 2] in
      _seed_obstacles (Z.to_nat count)
        (set_base_speed (set_base_spawn_interval l i) v)
  | LANE_RIVER =>
      let* i := uniform LOG_SPAWN_MIN LOG_SPAWN_MAX in
      let* v := uniform LOG_SPEED_MIN LOG_SPEED_MAX in
      let* count := choice 1 [2] in
      _seed_obstacles (Z.to_nat count)
        (set_base_speed (set_base_spawn_interval l i) v)
  | LANE_RAIL =>
      let* tt := uniform TRAIN_INTERVAL_MIN TRAIN_INTERVAL_MAX in
      ret (set_train_timer l tt)
  end.

(** *** Train logic *)

(** [base / diff]; a zero [diff] raises. *)
Definition _roll_next_train_interval (diff : Q) : Gen (option Q) :=
  let* base := uniform TRAIN_INTERVAL_MIN TRAIN_INTERVAL_MAX in
  ret (if Qeq_bool diff 0 then None else Some (base / diff)%Q).

Definition spawn_train (l : t) : t :=
  let l := set_train_active l true in
  let l := set_train_warning l 0 in
  set_train_x l (if train_dir l =? 1 then inject_Z (- TILE * 12)
                 else inject_Z (SCREEN_W + TILE * 12)).

Definition _finish_train (diff : Q) (l : t) : Gen (option t) :=
  let l := set_train_active l false in
  let* oi := _roll_next_train_interval diff in
  match oi with
  | None => ret None
  | Some i =>
      let l := set_train_timer l i in
      let* u := random in
      ret (Some (if Qltb u (1 # 2) then set_train_dir l (train_dir l * -1)
                 else l))
  end.

(** *** [update], phase by phase *)

(** "move obstacles" *)
Definition move_obstacles (dt speed_mult : Q) (l : t) : t :=
  set_obstacles l (Obstacle.update dt speed_mult <$> obstacles l).

(** "cull off-screen obstacles" *)
Definition on_stage (ob : Obstacle.t) : bool :=
  let margin := TILE * 5 in
  let left_bound := inject_Z (- margin) in
  let right_bound := inject_Z (SCREEN_W + margin) in
  Qltb left_bound (Obstacle.x ob + Obstacle.w ob)
  && Qltb (Obstacle.x ob) right_bound.

Definition cull_obstacles (l : t) : t :=
  set_obstacles l (List.filter on_stage (obstacles l)).

(** "spawn road/river obstacles" followed by the no-overlap pass. *)
Definition spawn_phase (dt diff : Q) (l : t) : Gen (option t) :=
  match type l with
  | LANE_ROAD | LANE_RIVER =>
      if Qeq_bool diff 0 then ret None
      else
        let actual_interval := (base_spawn_interval l / diff)%Q in
        let l := set_spawn_timer l (spawn_timer l + dt)%Q in
        let* l :=
          (if Qleb actual_interval (spawn_timer l) then
             let l := set_spawn_timer l 0 in
             let* i := (match type l with
                        | LANE_ROAD => uniform CAR_SPAWN_MIN CAR_SPAWN_MAX
                        | _ => uniform LOG_SPAWN_MIN LOG_SPAWN_MAX
                        end) in
             spawn_obstacle (set_base_spawn_interval l i)
           else ret l) in
        ret (Some (_enforce_no_overlap l))
  | _ => ret (Some l)
  end.

(** The guard of the statement that arms the warning, evaluated on the
    lane as [update] finds it. *)
Definition arms_warning (dt : Q) (l : t) : bool :=
  negb (train_active l)
  && Qleb (train_timer l - dt) TRAIN_WARNING_TIME
  && Qleb (train_warning l) 0.

(** "train logic" *)
Definition train_phase (dt diff : Q) (l : t) : Gen (option t) :=
  match type l with
  | LANE_RAIL =>
      let* ol :=
            (if negb (train_active l) then
               let l := set_train_timer l (train_timer l - dt)%Q in
               let l := if Qleb (train_timer l) TRAIN_WARNING_TIME
                           && Qleb (train_warning l) 0
                        then set_train_warning l TRAIN_WARNING_TIME else l in
               ret (Some (if Qleb (train_timer l) 0 then spawn_train l
                          else l))
             else
               let l := set_train_x l
                 (train_x l
                  + inject_Z (train_dir l) * (TRAIN_SPEED * diff) * dt)%Q in
               if (train_dir l =? 1)
                  && Qltb (inject_Z (SCREEN_W + TILE * 8)) (train_x l)
               then _finish_train diff l
               else if (train_dir l =? -1)
                       && Qltb (train_x l) (inject_Z (- TILE * 12))
               then _finish_train diff l
               else ret (Some l)) in
      ret (match ol with
           | None => None
           | Some l =>
               Some (if Qltb 0 (train_warning l) then
                       let l := set_train_warning l (train_warning l - dt)%Q in
                       if Qltb (train_warning l) 0
                       then set_train_warning l 0 else l
                     else l)
           end)
  | _ => ret (Some l)
  end.

(** [Lane.update(dt, diff)]; [None] is the [ZeroDivisionError] of a zero
    [diff]. *)
Definition update (dt diff : Q) (l : t) : Gen (option t) :=
  let speed_mult := diff in
  let l := move_obstacles dt speed_mult l in
  let l := cull_obstacles l in
  let* ol := spawn_phase dt diff l in
  match ol with
  | None => ret None
  | Some l => train_phase dt diff l
  end.


(** The number of updates, among those with the tick lengths [dts] and up
    to the one that spawns the train, in which the arming statement of the
    idle branch executes. *)
Fixpoint arm_count (dts : list Q) (diff : Q) (l : t) (s : Store) : nat :=
  match dts with
  | [] => O
  | dt :: rest =>
      ((if arms_warning dt l then 1 else 0)
       + match update dt diff l s with
         | (Some l', s') =>
             if train_active l' then 0 else arm_count rest diff l' s'
         | (None, _) => 0
         end)%nat
  end.

End Lane.

(** ** World *)

Global Instance Lane_inhabited : Inhabited Lane.t :=
  populate (Lane.mk 0 LANE_GRASS [] ∅ 1 0 1 0 0 0 false 0 1).

Module World.

(** [store] holds the shared generator [self.rng].  [gen_log] is a history
    variable that is not in the source: the rows in the order in which their
    [Lane] objects were constructed.  Only [_ensure_lane] appends to it and
    nothing reads it. *)
Record t := mk {
  store : Store;
  lanes : gmap Z Lane.t;
  max_generated_row : Z;
  gen_log : list Z
}.

Definition set_store (w : t) (s : Store) : t :=
  mk s (lanes w) (max_generated_row w) (gen_log w).

Definition set_lanes (w : t) (m : gmap Z Lane.t) : t :=
  mk (store w) m (max_generated_row w) (gen_log w).

Definition set_max_generated_row (w : t) (r : Z) : t :=
  mk (store w) (lanes w) r (gen_log w).

(** Run a computation on the shared generator. *)
Definition draw {A} (m : Gen A) (w : t) : A * t :=
  let '(a, s) := m (store w) in (a, set_store w s).

Definition recent_types (w : t) (row : Z) : list LaneType :=
  omap (fun i => Lane.type <$> lanes w !! (row - i)) (range 1 4).

Definition streak (ty : LaneType) (recent : list LaneType) : Z :=
  Z.of_nat (length (List.filter (LaneType_eqb ty) recent)).

Definition weights_for (recent : list LaneType) : list (LaneType * Z) :=
  if 2 <=? streak LANE_RIVER recent then
    [(LANE_GRASS, 7); (LANE_ROAD, 5); (LANE_RAIL, 5); (LANE_RIVER, 2)]
  else if 2 <=? streak LANE_RAIL recent then
    [(LANE_GRASS, 7); (LANE_ROAD, 5); (LANE_RIVER, 5); (LANE_RAIL, 2)]
  else if 2 <=? streak LANE_ROAD recent then
    [(LANE_GRASS, 7); (LANE_RIVER, 5); (LANE_RAIL, 5); (LANE_ROAD, 2)]
  else
    [(LANE_GRASS, 6); (LANE_ROAD, 5); (LANE_RIVER, 5); (LANE_RAIL, 5)].

Fixpoint pick_weighted (pick : Q) (acc : Z) (weights : list (LaneType * Z))
    : LaneType :=
  match weights with
  | [] => LANE_GRASS
  | (ty, wt) :: rest =>
      let acc := acc + wt in
      if Qleb pick (inject_Z acc) then ty else pick_weighted pick acc rest
  end.

Definition _choose_next_lane_type (row : Z) (w : t) : LaneType * t :=
  let weights := weights_for (recent_types w row) in
  let total := foldr Z.add 0 (snd <$> weights) in
  let '(pick, w) := draw (uniform 0 (inject_Z total)) w in
  (pick_weighted pick 0 weights, w).

Definition _ensure_lane (row : Z) (forced_type : option LaneType)
    (prev_open_cols : option (gset Z)) (w : t) : t :=
  if bool_decide (row ∈ dom (lanes w)) then w
  else
    let '(lane_type, w) :=
      match forced_type with
      | Some ty => (ty, w)
      | None => _choose_next_lane_type row w
      end in
    let '(lane, w) := draw (Lane.init row lane_type prev_open_cols) w in
    mk (store w) (<[row := lane]> (lanes w))
       (Z.max (max_generated_row w) row) (gen_log w ++ [row]).

Definition prev_open_for (r : Z) (w : t) : gset Z :=
  match lanes w !! (r - 1) with
  | Some l => Lane.open_cols l
  | None => Lane.all_cols
  end.

Definition _generate_up_to (target_row : Z) (w : t) : t :=
  foldl (fun w r => _ensure_lane r None (Some (prev_open_for r w)) w) w
        (range (max_generated_row w + 1) (target_row + 1)).

(** [World(seed)], the seed being given as the stream it determines. *)
Definition init (g : Rng) : t :=
  let w := mk (mkStore g 0) ∅ (-1) [] in
  let '(w, _) :=
    foldl (fun '(w, prev_open) r =>
             let w := _ensure_lane r (Some LANE_GRASS) (Some prev_open) w in
             (w, Lane.open_cols (lanes w !!! r)))
          (w, Lane.all_cols) (range 0 START_SAFE_ROWS) in
  let w := set_max_generated_row w (START_SAFE_ROWS - 1) in
  _generate_up_to (START_SAFE_ROWS + LANE_LOOKAHEAD) w.

(** The loop of [update] over the rows of the window. *)
Definition update_lane_at (dt diff : Q) (ow : option t) (r : Z) : option t :=
  match ow with
  | None => None
  | Some w =>
      match lanes w !! r with
      | None => Some w
      | Some lane =>
          let '(ol, w) := draw (Lane.update dt diff lane) w in
          match ol with
          | None => None
          | Some lane' => Some (set_lanes w (<[r := lane']> (lanes w)))
          end
      end
  end.

Definition prune (prune_before : Z) (w : t) : t :=
  set_lanes w (filter (fun kv => ¬ (kv.1 < prune_before)) (lanes w)).

(** [World.update(dt, camera_row, diff)]; [None] is the
    [ZeroDivisionError] of a lane update. *)
Definition update (dt : Q) (camera_row : Z) (diff : Q) (w : t) : option t :=
  let w := _generate_up_to (camera_row + LANE_LOOKAHEAD) w in
  let min_row := Z.max 0 (camera_row - 10) in
  let max_row := camera_row + LANE_LOOKAHEAD in
  match foldl (update_lane_at dt diff) (Some w) (range min_row (max_row + 1))
  with
  | None => None
  | Some w => Some (prune (camera_row - 30) w)
  end.

Definition lane_at (row : Z) (w : t) : Lane.t * t :=
  let w := _ensure_lane row None None w in
  (lanes w !!! row, w).

End World.

(** ** Player *)

(** [pygame.Rect] stores integers: a float coordinate is truncated towards
    zero. *)
Definition Qtruncate (q : Q) : Z := Z.quot (Qnum q) (Zpos (Qden q)).

(** [rect_from_tile(col, row, cam_y).top].  [pygame.Rect] keeps the
    coordinate in a C [int]: the value below is the one the program sees as
    long as it lies within the range of that type, and the statements about
    it are made inside that range. *)
Definition rect_from_tile_top (col row : Z) (cam_y : Q) : Z :=
  Qtruncate (inject_Z (SCREEN_H - TILE) - (inject_Z (row * TILE) - cam_y))%Q.

Module Player.

(** [log_under] is a reference to an obstacle: its identity, or [None]. *)
Record t := mk {
  col : Z;
  row : Z;
  x_px : Q;
  dead : bool;
  max_row : Z;
  was_on_log : bool;
  log_under : option nat;
  log_dip_t : Q
}.

Definition init : t :=
  let col := GRID_W / 2 in
  mk col 1 (inject_Z (col * TILE) + inject_Z TILE / 2)%Q false 1 false None 0.

Definition set_col (p : t) (c : Z) : t :=
  mk c (row p) (x_px p) (dead p) (max_row p) (was_on_log p) (log_under p)
     (log_dip_t p).

Definition set_x_px (p : t) (x : Q) : t :=
  mk (col p) (row p) x (dead p) (max_row p) (was_on_log p) (log_under p)
     (log_dip_t p).

Definition set_log_dip_t (p : t) (v : Q) : t :=
  mk (col p) (row p) (x_px p) (dead p) (max_row p) (was_on_log p)
     (log_under p) v.

Definition set_log_state (p : t) (on : bool) (ref : option nat) : t :=
  mk (col p) (row p) (x_px p) (dead p) (max_row p) on ref (log_dip_t p).

Definition _sync_col_from_x (p : t) : t :=
  set_col p (Qfloor (x_px p / inject_Z TILE)).

Definition _snap_x_to_col (p : t) : t :=
  set_x_px p (inject_Z (col p * TILE) + inject_Z TILE / 2)%Q.

Definition kill (p : t) : t :=
  mk (col p) (row p) (x_px p) true (max_row p) (was_on_log p) (log_under p)
     (log_dip_t p).

Definition try_move (dcol drow : Z) (p : t) (world : World.t)
    : t * World.t :=
  if dead p then (p, world)
  else
    let new_col := col p + dcol in
    let new_row := row p + drow in
    if negb ((0 <=? new_col) && (new_col <? GRID_W)) then (p, world)
    else if new_row <? 0 then (p, world)
    else
      let '(lane, world) := World.lane_at new_row world in
      if LaneType_eqb (Lane.type lane) LANE_GRASS
         && Lane.is_blocked lane new_col
      then (p, world)
      else
        let p := mk new_col new_row (x_px p) (dead p)
                    (Z.max (max_row p) new_row) (was_on_log p)
                    (log_under p) (log_dip_t p) in
        (_snap_x_to_col p, world).

(** [ob.x <= self.x_px <= ob.x + ob.w] *)
Definition covers (x : Q) (ob : Obstacle.t) : bool :=
  Qleb (Obstacle.x ob) x && Qleb x (Obstacle.x ob + Obstacle.w ob).

(** The river branch of [update]; the boolean tells whether the method
    goes on to the checks below it ([false] after a [return]). *)
Definition ride_log (dt : Q) (lane : Lane.t) (p : t) : t * bool :=
  match List.find (covers (x_px p)) (Lane.obstacles lane) with
  | None => (kill p, false)
  | Some ob =>
      let carry_dx :=
        (inject_Z (Obstacle.dir ob)
         * (Obstacle.base_speed ob * difficulty (max_row p)) * dt)%Q in
      let log_ref := Some (Obstacle.oid ob) in
      let p := if negb (was_on_log p)
                  || negb (bool_decide (log_under p = log_ref))
               then set_log_dip_t p LOG_DIP_DURATION else p in
      let p := set_log_state p true log_ref in
      let p := set_x_px p (x_px p + carry_dx)%Q in
      if Qltb (x_px p) 0 || Qltb (inject_Z SCREEN_W) (x_px p)
      then (kill p, false)
      else (_sync_col_from_x p, true)
  end.

(** The checks of [update] that follow the river branch. *)
Definition collide (lane : Lane.t) (cam_y : Q) (p : t) : t :=
  if LaneType_eqb (Lane.type lane) LANE_ROAD
     && existsb (covers (x_px p)) (Lane.obstacles lane)
  then kill p
  else if LaneType_eqb (Lane.type lane) LANE_RAIL && Lane.train_active lane
          && (let train_w := inject_Z (TILE * 16) in
              Qleb (Lane.train_x lane) (x_px p)
              && Qleb (x_px p) (Lane.train_x lane + train_w))
  then kill p
  else if SCREEN_H <? rect_from_tile_top (col p) (row p) cam_y
  then kill p
  else p.

(** "decrement dip timer": [max(0.0, self.log_dip_t - dt)] *)
Definition tick_dip (dt : Q) (p : t) : t :=
  if Qltb 0 (log_dip_t p)
  then set_log_dip_t p
         (let v := (log_dip_t p - dt)%Q in if Qltb 0 v then v else 0)
  else p.

Definition update (dt : Q) (world : World.t) (cam_y : Q) (p : t)
    : t * World.t :=
  if dead p then (p, world)
  else
    let '(lane, world) := World.lane_at (row p) world in
    let p := tick_dip dt p in
    if LaneType_eqb (Lane.type lane) LANE_RIVER then
      let '(p, continue) := ride_log dt lane p in
      if continue then (collide lane cam_y p, world) else (p, world)
    else
      (collide lane cam_y (set_log_state p false None), world).

End Player.

(** ** Concrete scenarios used to exercise the statements *)

(** The stream of all-zero draws, and a store reading it from the start. *)
Definition zero_rng : Rng := mkRng (fun _ => 0%N) 0.
Definition zero_store : Store := mkStore zero_rng 0.

(** A freshly constructed railway lane: its countdown is 6 seconds. *)
Definition rail_demo : Lane.t := (Lane.init 7 LANE_RAIL None zero_store).1.

(** A river lane carrying one two-tile log that moves right, in a world that
    holds just this lane, and a player standing on the log. *)
Definition river_demo : Lane.t :=
  Lane.mk 2 LANE_RIVER [Obstacle.mk 0 200 96 100 1] ∅ 1 0 (11 # 10) 100 7 0
          false 0 1.

Definition river_world : World.t :=
  World.mk zero_store {[ 2 := river_demo ]} 2 [2].

Definition rider : Player.t := Player.mk 5 2 264 false 2 false None 0.

(** A road lane with two cars that share the lane's speed and direction, the
    second one closer to the first than [MIN_GAP], and the store in which
    their two identities have been handed out. *)
Definition road_demo : Lane.t :=
  Lane.mk 3 LANE_ROAD
          [Obstacle.mk 0 100 48 150 1; Obstacle.mk 1 160 48 150 1]
          ∅ 1 0 (13 # 10) 150 7 0 false 0 1.

Definition road_store : Store := mkStore zero_rng 2.

(** A stream that is zero everywhere except for the draw that a look-up of
    row 62, right after construction, uses for [randrange(GRID_W)]. *)
Definition stray_rng : Rng :=
  mkRng (fun i => if (i =? 910)%nat then 3%N else 0%N) 0.

(** [n] hops straight ahead. *)
Fixpoint hop_forward (n : nat) (pw : Player.t * World.t)
    : Player.t * World.t :=
  match n with
  | O => pw
  | S n' => hop_forward n' (Player.try_move 0 1 pw.1 pw.2)
  end.

(** The same lane later in its countdown, 1.2 seconds before the train. *)
Definition rail_late : Lane.t := Lane.set_train_timer rail_demo (12 # 10).

(** The same lane 1.3 seconds before the train, and a run of frame times
    with one slow frame of 250 ms followed by 55 frames of 16 ms. *)
Definition rail_soon : Lane.t := Lane.set_train_timer rail_demo (13 # 10).

Definition hitch_frames : list Q := [250 # 1000] ++ repeat (16 # 1000) 55.

(** ** Predicates used in the statements *)


(** Separation of two obstacles of a lane, [a] being the one to the left:
    between the right edge of [a] and the left edge of [b] there are at least
    [MIN_GAP] pixels.  For rightward travel [b] is the forward obstacle and
    [a] the following one, for leftward travel it is the other way round; in
    both cases this is the distance from the trailing edge of the forward
    obstacle to the leading edge of the following one. *)
Definition gap_ok (a b : Obstacle.t) : Prop :=
  (Obstacle.x a + Obstacle.w a + MIN_GAP <= Obstacle.x b)%Q.

Definition left_of (a b : Obstacle.t) : Prop :=
  (Obstacle.x a < Obstacle.x b)%Q.

(** What [spawn_obstacle] guarantees of every obstacle of a lane with base
    speed [v] and direction [d]: it has that speed and direction, a positive
    width, and an identity below the allocator's next one. *)
Definition obstacle_ok (v : Q) (d : Z) (n : nat) (ob : Obstacle.t) : Prop :=
  Obstacle.base_speed ob = v /\ Obstacle.dir ob = d /\
  (0 < Obstacle.w ob)%Q /\ (Obstacle.oid ob < n)%nat.

(** A well-formed lane: all its obstacles are as above, and no two of them
    share an identity. *)
Definition lane_wf (l : Lane.t) (s : Store) : Prop :=
  Forall (obstacle_ok (Lane.base_speed l) (Lane.direction l) (next_oid s))
         (Lane.obstacles l) /\
  NoDup (Obstacle.oid <$> Lane.obstacles l).

(** The pushed copy [o'] of [o]: same obstacle, moved right if at all. *)
Definition pushed (o o' : Obstacle.t) : Prop :=
  Obstacle.oid o' = Obstacle.oid o /\ Obstacle.w o' = Obstacle.w o /\
  Obstacle.base_speed o' = Obstacle.base_speed o /\
  Obstacle.dir o' = Obstacle.dir o /\
  (Obstacle.x o <= Obstacle.x o')%Q.

Definition key_le {A} (key : A -> Q) (a b : A) : Prop := (key a <= key b)%Q.

(** A computation that only draws random numbers allocates no identity. *)
Definition oid_neutral {A} (m : Gen A) : Prop :=
  forall s, next_oid (m s).2 = next_oid s.

(** The effect of the spawn step on a lane [l] in store [s]: nothing but
    timers changes, except that one fresh obstacle, with the lane's speed and
    direction and a positive width, may have been appended. *)
Definition spawned (l l' : Lane.t) (s s' : Store) : Prop :=
  Lane.type l' = Lane.type l /\
  Lane.base_speed l' = Lane.base_speed l /\
  Lane.direction l' = Lane.direction l /\
  (next_oid s <= next_oid s')%nat /\
  (Lane.obstacles l' = Lane.obstacles l \/
   exists ob,
     Lane.obstacles l' = Lane.obstacles l ++ [ob] /\
     Obstacle.oid ob = next_oid s /\
     next_oid s' = S (next_oid s) /\
     Obstacle.base_speed ob = Lane.base_speed l /\
     Obstacle.dir ob = Lane.direction l /\
     (0 < Obstacle.w ob)%Q).

(** World states reachable through the interface of [World]: the
    constructor, any number of [update] calls with any camera row, and
    look-ups of any row through [lane_at]. *)
Inductive reachable : World.t -> Prop :=
| reach_init (g : Rng) : reachable (World.init g)
| reach_update (w w' : World.t) (dt : Q) (camera_row : Z) (diff : Q) :
    reachable w ->
    World.update dt camera_row diff w = Some w' ->
    reachable w'
| reach_lane_at (w : World.t) (row : Z) :
    reachable w ->
    reachable (World.lane_at row w).2.

(** The rows in the mapping are exactly [lo .. max_generated_row], and the
    generation history is strictly increasing and bounded by the highest
    generated row. *)
Definition span (lo : Z) (w : World.t) : Prop :=
  0 <= lo <= World.max_generated_row w + 1 /\
  (forall r, r ∈ dom (World.lanes w) <-> lo <= r <= World.max_generated_row w)
  /\ StronglySorted Z.lt (World.gen_log w)
  /\ Forall (fun r => r <= World.max_generated_row w) (World.gen_log w).

(** The rows from [lo] up to the highest generated one are all present,
    every present row lies between 0 and the highest generated one, and the
    rows from [lo] on were generated in strictly increasing order.  Rows
    below [lo] have been pruned; a look-up may have created some of them
    again. *)
Definition span_from (lo : Z) (w : World.t) : Prop :=
  0 <= lo <= World.max_generated_row w /\
  (forall r, lo <= r <= World.max_generated_row w ->
             r ∈ dom (World.lanes w)) /\
  (forall r, r ∈ dom (World.lanes w) ->
             0 <= r <= World.max_generated_row w) /\
  StronglySorted Z.lt (filter (Z.le lo) (World.gen_log w))
  /\ Forall (fun r => r <= World.max_generated_row w) (World.gen_log w).

(** ** Game

    The main loop, one iteration at a time.  What [pygame] supplies is an
    input of the iteration: the milliseconds [clock.tick(FPS)] returns and
    the events [pygame.event.get()] returns.  Rendering has no effect on the
    game state and is left out. *)

(** [BASE_SCROLL_SPEED = TILE * 0.70] *)
Definition BASE_SCROLL_SPEED : Q := inject_Z TILE * (70 # 100).

Inductive Key :=
| K_ESCAPE | K_r
| K_LEFT | K_a | K_RIGHT | K_d | K_UP | K_w | K_DOWN | K_s
| K_OTHER.

Inductive Event := QUIT | KEYDOWN (key : Key) | OTHER_EVENT.

(** How an iteration ends: [sys.exit()], an uncaught [ZeroDivisionError],
    or the state the next iteration starts from. *)
Inductive Outcome (A : Type) := Exit | Raise | Continue (g : A).
Arguments Exit {A}.
Arguments Raise {A}.
Arguments Continue {A} g.

Module Game.

(** [worlds k] is the stream of the generator that the [k]-th call of
    [reset] seeds with [random.randrange(1_000_000)]; [resets] counts the
    calls made so far. *)
Record t := mk {
  world : World.t;
  player : Player.t;
  cam_y : Q;
  camera_row : Z;
  worlds : nat -> Rng;
  resets : nat
}.

Definition set_world (g : t) (w : World.t) : t :=
  mk w (player g) (cam_y g) (camera_row g) (worlds g) (resets g).

Definition set_player (g : t) (p : Player.t) : t :=
  mk (world g) p (cam_y g) (camera_row g) (worlds g) (resets g).

Definition set_cam_y (g : t) (y : Q) : t :=
  mk (world g) (player g) y (camera_row g) (worlds g) (resets g).

Definition set_camera_row (g : t) (r : Z) : t :=
  mk (world g) (player g) (cam_y g) r (worlds g) (resets g).

Definition reset (g : t) : t :=
  mk (World.init (worlds g (resets g))) Player.init 0 0 (worlds g)
     (S (resets g)).

(** [Game()] *)
Definition init (streams : nat -> Rng) : t :=
  mk (World.init (streams O)) Player.init 0 0 streams 1.

(** [self.player.try_move(dcol, drow, self.world)] *)
Definition move (dcol drow : Z) (g : t) : t :=
  let '(p, w) := Player.try_move dcol drow (player g) (world g) in
  set_player (set_world g w) p.

(** The body of [if event.type == pygame.KEYDOWN]; [None] is [sys.exit()]. *)
Definition on_keydown (key : Key) (g : t) : option t :=
  match key with
  | K_ESCAPE => None
  | _ =>
      let g := match key with
               | K_r => if Player.dead (player g) then reset g else g
               | _ => g
               end in
      Some (if negb (Player.dead (player g)) then
              match key with
              | K_LEFT | K_a => move (-1) 0 g
              | K_RIGHT | K_d => move 1 0 g
              | K_UP | K_w => move 0 1 g
              | K_DOWN | K_s => move 0 (-1) g
              | _ => g
              end
            else g)
  end.

Definition on_event (e : Event) (g : t) : option t :=
  match e with
  | QUIT => None
  | KEYDOWN key => on_keydown key g
  | OTHER_EVENT => Some g
  end.

(** [for event in pygame.event.get(): ...] *)
Fixpoint handle_events (events : list Event) (g : t) : option t :=
  match events with
  | [] => Some g
  | e :: rest =>
      match on_event e g with
      | None => None
      | Some g => handle_events rest g
      end
  end.

(** One iteration of the loop of [run]; [ms] is the value of
    [self.clock.tick(FPS)]. *)
Definition frame (ms : Z) (events : list Event) (g : t) : Outcome t :=
  let dt := (inject_Z ms / 1000)%Q in
  match handle_events events g with
  | None => Exit
  | Some g =>
      let diff := difficulty (Player.max_row (player g)) in
      let g := if negb (Player.dead (player g))
               then set_cam_y g (cam_y g + (BASE_SCROLL_SPEED * diff) * dt)%Q
               else g in
      let g := set_camera_row g (Qfloor (cam_y g / inject_Z TILE)) in
      match World.update dt (camera_row g) diff (world g) with
      | None => Raise
      | Some w =>
          let '(p, w) := Player.update dt w (cam_y g) (player g) in
          Continue (set_player (set_world g w) p)
      end
  end.

(** The iterations that a finite prefix of the inputs drives. *)
Fixpoint run (inputs : list (Z * list Event)) (g : t) : Outcome t :=
  match inputs with
  | [] => Continue g
  | (ms, events) :: rest =>
      match frame ms events g with
      | Continue g' => run rest g'
      | o => o
      end
  end.

End Game.

(** ** Further predicates *)

(** Two obstacles with a gap of [MIN_GAP] between them, whichever is on the
    left. *)
Definition apart (a b : Obstacle.t) : Prop := gap_ok a b \/ gap_ok b a.

(** No two distinct obstacles of the list come closer than [MIN_GAP]. *)
Definition separated (obs : list Obstacle.t) : Prop :=
  forall a b, a ∈ obs -> b ∈ obs ->
              Obstacle.oid a <> Obstacle.oid b -> apart a b.

(** What the spacing test is meant to decide for a new obstacle spanning
    [x, x + w] in a lane of direction [d]: it lies entirely behind every
    obstacle [ob] of the lane, with the gap in between. *)
Definition behind_with_gap (d : Z) (x w : Q) (ob : Obstacle.t) : Prop :=
  if d =? 1 then (x + w + MIN_GAP <= Obstacle.x ob)%Q
  else (Obstacle.x ob + Obstacle.w ob + MIN_GAP <= x)%Q.

(** An obstacle that has not yet entered the screen of a lane of direction
    [d]. *)
Definition before_entry (d : Z) (ob : Obstacle.t) : Prop :=
  if d =? 1 then (Obstacle.x ob + Obstacle.w ob <= 0)%Q
  else (inject_Z SCREEN_W <= Obstacle.x ob)%Q.

(** The state of a player that is alive: its centre is on the screen, its
    column is the tile under the centre, and its row is not below the first
    one nor above its score. *)
Definition on_screen (p : Player.t) : Prop :=
  (0 <= Player.x_px p /\ Player.x_px p <= inject_Z SCREEN_W)%Q /\
  Player.col p = Qfloor (Player.x_px p / inject_Z TILE) /\
  0 <= Player.row p <= Player.max_row p.

(** The part of a lane that no update touches. *)
Definition same_ground (l l' : Lane.t) : Prop :=
  Lane.row l' = Lane.row l /\ Lane.type l' = Lane.type l /\
  Lane.direction l' = Lane.direction l /\
  Lane.base_speed l' = Lane.base_speed l /\
  Lane.blocked_cols l' = Lane.blocked_cols l.

(** The fields of the train. *)
Definition same_train (l l' : Lane.t) : Prop :=
  Lane.train_timer l' = Lane.train_timer l /\
  Lane.train_warning l' = Lane.train_warning l /\
  Lane.train_active l' = Lane.train_active l /\
  Lane.train_x l' = Lane.train_x l /\
  Lane.train_dir l' = Lane.train_dir l.

(** The fields of cars and logs. *)
Definition same_traffic (l l' : Lane.t) : Prop :=
  Lane.obstacles l' = Lane.obstacles l /\
  Lane.spawn_timer l' = Lane.spawn_timer l /\
  Lane.base_spawn_interval l' = Lane.base_spawn_interval l.

(** The last statement of the train logic applied to a warning countdown
    [w]: a running countdown loses [dt] and stops at zero. *)
Definition warning_tick (dt w : Q) : Q :=
  if Qltb 0 w then (if Qltb (w - dt) 0 then 0 else w - dt)%Q else w.

(** The test that ends the run of a train at [x] travelling in direction
    [d]. *)
Definition train_gone (d : Z) (x : Q) : bool :=
  (d =? 1) && Qltb (inject_Z (SCREEN_W + TILE * 8)) x
  || (d =? -1) && Qltb x (inject_Z (- TILE * 12)).

(** The bounds of the warning countdown of a lane. *)
Definition warning_in_range (l : Lane.t) : Prop :=
  (0 <= Lane.train_warning l /\ Lane.train_warning l <= TRAIN_WARNING_TIME)%Q.

(** Every lane of the world is stored under its own row number, is
    well-formed with respect to the world's store, and has its obstacles
    separated. *)
Definition world_wf (w : World.t) : Prop :=
  forall r l, World.lanes w !! r = Some l ->
    Lane.row l = r /\ lane_wf l (World.store w) /\
    separated (Lane.obstacles l).

(** The state of a game between two iterations: the world is well formed,
    and a player that is alive is on the screen. *)
Definition game_wf (g : Game.t) : Prop :=
  world_wf (Game.world g) /\
  (Player.dead (Game.player g) = false -> on_screen (Game.player g)).

(** An event that neither ends the program nor restarts the game. *)
Definition plain_event (e : Event) : Prop :=
  e <> QUIT /\ e <> KEYDOWN K_ESCAPE /\ e <> KEYDOWN K_r.

(** The lowest row that [World.update] keeps at the camera row of the
    game. *)
Definition prune_row (g : Game.t) : Z := Z.max 0 (Game.camera_row g - 30).

(** The rows of the world while the events of an iteration are handled: the
    rows from [prune_row] up are in place, the player stands on a row that
    has been generated, and the camera row is the tile row of the camera. *)
Definition rows_wf (g : Game.t) : Prop :=
  span_from (prune_row g) (Game.world g) /\
  0 <= Player.row (Game.player g)
    <= World.max_generated_row (Game.world g) /\
  Game.camera_row g = Qfloor (Game.cam_y g / inject_Z TILE).

(** The rows of the world between two iterations: below [prune_row] no row
    is present except, possibly, the row of the player. *)
Definition rows_settled (g : Game.t) : Prop :=
  rows_wf g /\
  forall r, r ∈ dom (World.lanes (Game.world g)) -> r < prune_row g ->
            r = Player.row (Game.player g).
Lemma Qleb_le a b : Qleb a b = true <-> (a <= b)%Q.
Proof. apply Qle_bool_iff. Qed.

Lemma Qltb_lt a b : Qltb a b = true <-> (a < b)%Q.
Proof.
  unfold Qltb. rewrite negb_true_iff. split.
  - intros H. apply Qnot_le_lt. intros Hle.
    apply Qle_bool_iff in Hle. congruence.
  - intros H. destruct (Qle_bool b a) eqn:E; [|reflexivity].
    apply Qle_bool_iff in E. exfalso. eapply Qlt_not_le; eauto.
Qed.

Lemma Qleb_nle a b : Qleb a b = false <-> (b < a)%Q.
Proof.
  unfold Qleb. split.
  - intros H. apply Qnot_le_lt. intros Hle.
    apply Qle_bool_iff in Hle. congruence.
  - intros H. destruct (Qle_bool a b) eqn:E; [|reflexivity].
    apply Qle_bool_iff in E. exfalso. eapply Qlt_not_le; eauto.
Qed.

Lemma Qltb_nlt a b : Qltb a b = false <-> (b <= a)%Q.
Proof.
  unfold Qltb. rewrite negb_false_iff. apply Qle_bool_iff.
Qed.

Lemma inject_Z_le a b : a <= b -> (inject_Z a <= inject_Z b)%Q.
Proof. intros H. now rewrite <- Zle_Qle. Qed.

Lemma inject_Z_lt a b : a < b -> (inject_Z a < inject_Z b)%Q.
Proof. intros H. now rewrite <- Zlt_Qlt. Qed.

(** Closed form of each branch, convenient for linear arithmetic. *)
Lemma difficulty_low s : 0 < s -> s < 20 ->
  (difficulty s == (60 # 100) + inject_Z s * (2 # 100))%Q.
Proof.
  intros H0 H20. unfold difficulty.
  destruct (Z.leb_spec s 0); [lia|].
  destruct (Z.ltb_spec s 20); [|lia].
  field.
Qed.

Lemma difficulty_mid s : 20 <= s -> s < 80 ->
  (difficulty s == 1 + (inject_Z s - 20) * (75 # 10000))%Q.
Proof.
  intros H0 H20. unfold difficulty.
  destruct (Z.leb_spec s 0); [lia|].
  destruct (Z.ltb_spec s 20); [lia|].
  destruct (Z.ltb_spec s 80); [|lia].
  unfold Z.sub. rewrite inject_Z_plus, inject_Z_opp.
  change (inject_Z 20) with 20%Q. field.
Qed.

Lemma difficulty_nonpos s : s <= 0 -> difficulty s = 60 # 100.
Proof.
  intros H. unfold difficulty. destruct (Z.leb_spec s 0); [reflexivity|lia].
Qed.

Lemma difficulty_high s : 80 <= s -> difficulty s = 145 # 100.
Proof.
  intros H. unfold difficulty.
  destruct (Z.leb_spec s 0); [lia|].
  destruct (Z.ltb_spec s 20); [lia|].
  destruct (Z.ltb_spec s 80); [lia|reflexivity].
Qed.

Lemma difficulty_bounds s : (60 # 100 <= difficulty s <= 145 # 100)%Q.
Proof.
  destruct (Z_le_dec s 0) as [H0|H0].
  { rewrite difficulty_nonpos by lia. split; [apply Qle_refl | discriminate]. }
  destruct (Z_lt_dec s 20) as [H1|H1].
  { rewrite difficulty_low by lia.
    assert (0 < inject_Z s)%Q by (apply (inject_Z_lt 0); lia).
    assert (inject_Z s < 20)%Q by (apply (inject_Z_lt s 20); lia).
    split; lra. }
  destruct (Z_lt_dec s 80) as [H2|H2].
  { rewrite difficulty_mid by lia.
    assert (20 <= inject_Z s)%Q by (apply (inject_Z_le 20); lia).
    assert (inject_Z s < 80)%Q by (apply (inject_Z_lt s 80); lia).
    split; lra. }
  rewrite difficulty_high by lia. split; [discriminate | apply Qle_refl].
Qed.

Lemma difficulty_mono s1 s2 : s1 <= s2 -> (difficulty s1 <= difficulty s2)%Q.
Proof.
  intros Hle.
  pose proof (difficulty_bounds s1) as [L1 U1].
  pose proof (difficulty_bounds s2) as [L2 U2].
  destruct (Z_le_dec s1 0) as [A0|A0].
  { now rewrite (difficulty_nonpos s1). }
  destruct (Z_lt_dec s2 80) as [B2|B2].
  2:{ now rewrite (difficulty_high s2) by lia. }
  assert (Hq : (inject_Z s1 <= inject_Z s2)%Q) by now apply inject_Z_le.
  destruct (Z_lt_dec s1 20) as [A1|A1]; destruct (Z_lt_dec s2 20) as [B1|B1].
  - rewrite (difficulty_low s1), (difficulty_low s2) by lia. lra.
  - rewrite (difficulty_low s1), (difficulty_mid s2) by lia.
    assert (inject_Z s1 < 20)%Q by (apply (inject_Z_lt s1 20); lia).
    assert (20 <= inject_Z s2)%Q by (apply (inject_Z_le 20); lia).
    lra.
  - lia.
  - rewrite (difficulty_mid s1), (difficulty_mid s2) by lia. lra.
Qed.

(** With binary64 rounding the curve still passes through the stated
    points, and it is still non-decreasing from each score to the next. *)
Lemma difficulty_binary64_points :
  PrimFloat.eqb (difficulty_binary64 0) 0.60 = true /\
  PrimFloat.eqb (difficulty_binary64 20) 1.00 = true /\
  PrimFloat.eqb (difficulty_binary64 50) 1.225 = true /\
  PrimFloat.eqb (difficulty_binary64 80) 1.45 = true.
Proof. vm_compute. repeat split; reflexivity. Qed.

Lemma difficulty_binary64_steps :
  forallb (fun s => PrimFloat.leb (difficulty_binary64 s)
                                  (difficulty_binary64 (s + 1)))
          (seqZ (-1) 82) = true.
Proof. vm_compute. reflexivity. Qed.

(** C2: [difficulty] is the piecewise-linear function of the specification
    at every integer score (0.60 up to 0; 0.60 + (s/20)*0.40 below 20;
    1.00 + ((s-20)/60)*0.45 below 80; 1.45 from 80 on), and
    [difficulty 50] is 1.225. *)
Theorem difficulty_piecewise :
  (forall s : Z, (difficulty s == difficulty_spec s)%Q) /\
  (difficulty 50 == 1225 # 1000)%Q.
Proof.
  split; [|reflexivity].
  intros s. unfold difficulty_spec.
  destruct (Z_le_dec s 0) as [H0|H0].
  { rewrite difficulty_nonpos by lia. reflexivity. }
  destruct (Z_lt_dec s 20) as [H1|H1].
  { rewrite difficulty_low by lia. field. }
  destruct (Z_lt_dec s 80) as [H2|H2].
  { rewrite difficulty_mid by lia. field. }
  rewrite difficulty_high by lia. reflexivity.
Qed.

(** C9: [difficulty] is monotonic non-decreasing in the score, stays within
    [0.60, 1.45], takes the value 0.60 at 0 and 1.00 at 20, and is 1.45 at
    every score from 80 on. *)
Theorem difficulty_monotone_bounded :
  forall s1 s2 s s80 : Z,
    s1 <= s2 -> 80 <= s80 ->
    (difficulty s1 <= difficulty s2)%Q /\
    (60 # 100 <= difficulty s <= 145 # 100)%Q /\
    (difficulty 0 == 60 # 100)%Q /\
    (difficulty 20 == 1)%Q /\
    (difficulty s80 == 145 # 100)%Q.
Proof.
  intros s1 s2 s s80 Hle H80. split; [now apply difficulty_mono|].
  split; [apply difficulty_bounds|].
  split; [reflexivity|]. split; [reflexivity|].
  rewrite difficulty_high by lia. reflexivity.
Qed.

Lemma difficulty_monotone_bounded_witness :
  (difficulty 3 <= difficulty 50)%Q /\
  (60 # 100 <= difficulty 17 <= 145 # 100)%Q /\
  (difficulty 0 == 60 # 100)%Q /\
  (difficulty 20 == 1)%Q /\
  (difficulty 90 == 145 # 100)%Q.
Proof. apply (difficulty_monotone_bounded 3 50 17 90); lia. Defined.

(** ** Ground lanes *)

Section Grass.

Lemma size_all_cols : size Lane.all_cols = 11%nat.
Proof.
  unfold Lane.all_cols, range. rewrite size_list_to_set by apply NoDup_seqZ.
  rewrite length_seqZ. reflexivity.
Qed.

Lemma elem_of_all_cols c : c ∈ Lane.all_cols ↔ 0 <= c < GRID_W.
Proof.
  unfold Lane.all_cols, range. rewrite elem_of_list_to_set, elem_of_seqZ.
  lia.
Qed.

(** The second [break] of the planting loop keeps the blocked set at eight
    columns or fewer, whatever the target and the candidates are. *)
Lemma plant_trees_size target candidates blocked :
  (size blocked <= 8)%nat ->
  (size (Lane.plant_trees target candidates blocked) <= 8)%nat.
Proof.
  revert blocked. induction candidates as [|c rest IH]; intros blocked Hb.
  - exact Hb.
  - simpl.
    destruct (Z.leb_spec target (Z.of_nat (size blocked))); [exact Hb|].
    destruct (Z.ltb_spec (GRID_W - (Z.of_nat (size blocked) + 1)) 3);
      [exact Hb|].
    apply IH.
    rewrite size_union_alt, size_singleton.
    assert (size (blocked ∖ {[c]}) <= size blocked)%nat
      by (apply subseteq_size; set_solver).
    unfold GRID_W in *. lia.
Qed.

(** The first [break] keeps it at the target. *)
Lemma plant_trees_target target candidates blocked :
  0 <= target ->
  Z.of_nat (size blocked) <= target ->
  Z.of_nat (size (Lane.plant_trees target candidates blocked)) <= target.
Proof.
  intros Ht. revert blocked.
  induction candidates as [|c rest IH]; intros blocked Hb.
  - exact Hb.
  - simpl.
    destruct (Z.leb_spec target (Z.of_nat (size blocked))); [exact Hb|].
    destruct (Z.ltb_spec (GRID_W - (Z.of_nat (size blocked) + 1)) 3);
      [exact Hb|].
    apply IH.
    assert (size ({[c]} ∪ blocked) <= 1 + size blocked)%nat.
    { rewrite size_union_alt, size_singleton.
      assert (size (blocked ∖ {[c]}) <= size blocked)%nat
        by (apply subseteq_size; set_solver).
      lia. }
    lia.
Qed.

Lemma open_cols_grass_size (l : Lane.t) :
  Lane.type l = LANE_GRASS ->
  (size (Lane.blocked_cols l) <= 8)%nat ->
  (3 <= size (Lane.open_cols l))%nat.
Proof.
  intros Hty Hb. unfold Lane.open_cols. rewrite Hty.
  rewrite size_difference_alt, size_all_cols.
  assert (size (Lane.all_cols ∩ Lane.blocked_cols l)
          <= size (Lane.blocked_cols l))%nat
    by (apply subseteq_size; set_solver).
  lia.
Qed.

Lemma corridor_of_cols center width c :
  c ∈ Lane.corridor_of center width -> 0 <= c < GRID_W.
Proof.
  unfold Lane.corridor_of. rewrite elem_of_list_to_set, list_elem_of_fmap.
  intros (dx & -> & _). unfold GRID_W. lia.
Qed.

Lemma Lane_init_grass_eq row prev s :
  Lane.init row LANE_GRASS prev s =
  let '(l0, s0) := Lane.init_fields row LANE_GRASS s in
  let '(g, s1) := Lane._init_grass prev l0 s0 in (g.2, s1).
Proof.
  unfold Lane.init, bind at 1.
  destruct (Lane.init_fields row LANE_GRASS s) as [l0 s0].
  unfold bind. destruct (Lane._init_grass prev l0 s0) as [g s1].
  reflexivity.
Qed.

Lemma init_fields_shape row ty s :
  let l0 := (Lane.init_fields row ty s).1 in
  Lane.row l0 = row /\ Lane.type l0 = ty /\ Lane.blocked_cols l0 = ∅
  /\ Lane.obstacles l0 = [] /\ Lane.train_active l0 = false
  /\ Lane.train_warning l0 = 0%Q.
Proof.
  unfold Lane.init_fields, bind, ret.
  repeat match goal with
         | |- context [let '(_, _) := ?m ?st in _] =>
             destruct (m st) as [? ?]
         end.
  simpl. repeat split; reflexivity.
Qed.

End Grass.

(** C3: a ground lane generated at a row beyond the safe zone, for any
    stream of random draws and any (or no) previous-row open-column set, has
    at least three open columns, and none of its corridor columns is
    blocked.  The corridor is the one [_init_grass] computes during
    [Lane.init]. *)
Theorem grass_beyond_safe_zone :
  forall (row : Z) (prev_open_cols : option (gset Z)) (s : Store),
    START_SAFE_ROWS <= row ->
    let '(l0, s0) := Lane.init_fields row LANE_GRASS s in
    let '((_, corridor, l), s1) := Lane._init_grass prev_open_cols l0 s0 in
    Lane.init row LANE_GRASS prev_open_cols s = (l, s1) /\
    Lane.type l = LANE_GRASS /\
    (3 <= size (Lane.open_cols l))%nat /\
    (forall c, c ∈ corridor -> c ∉ Lane.blocked_cols l) /\
    corridor ⊆ Lane.open_cols l.
Proof.
  intros row prev s Hrow.
  pose proof (Lane_init_grass_eq row prev s) as Hinit.
  pose proof (init_fields_shape row LANE_GRASS s) as Hshape.
  destruct (Lane.init_fields row LANE_GRASS s) as [l0 s0].
  simpl in Hshape. destruct Hshape as (Hr & Hty & Hb & _).
  destruct (Lane._init_grass prev l0 s0) as [[[center corridor] l] s1] eqn:Hg.
  split; [exact Hinit|].
  unfold Lane._init_grass in Hg. rewrite Hr in Hg.
  destruct (Z.ltb_spec row START_SAFE_ROWS); [lia|].
  unfold bind, ret in Hg.
  destruct (Lane.pick_corridor_center prev s0) as [cc sa].
  destruct (choice 2 [3] sa) as [cw sb].
  destruct (randint 2 5 sb) as [tt sc].
  destruct (shuffle (Lane.candidates_outside (Lane.corridor_of cc cw)) sc)
    as [cands sd].
  injection Hg as <- <- <- <-.
  assert (Hsz : (size (Lane.plant_trees tt cands (Lane.blocked_cols l0)
                       ∖ Lane.corridor_of cc cw) <= 8)%nat).
  { etransitivity; [apply subseteq_size; apply subseteq_difference_l;
                    reflexivity|].
    apply plant_trees_size. rewrite Hb, size_empty. lia. }
  split; [exact Hty|].
  split; [apply open_cols_grass_size; [exact Hty | exact Hsz]|].
  split; [simpl; set_solver|].
  intros c Hc. unfold Lane.open_cols. simpl. rewrite Hty.
  apply elem_of_difference. split.
  - apply elem_of_all_cols. eapply corridor_of_cols; eauto.
  - set_solver.
Qed.

Lemma grass_beyond_safe_zone_witness :
  let s := mkStore (mkRng (fun i => N.of_nat (7 * i + 3)) 0) 0 in
  let '(l0, s0) := Lane.init_fields 9 LANE_GRASS s in
  let '((_, corridor, l), s1) := Lane._init_grass (Some {[2; 3]}) l0 s0 in
  Lane.init 9 LANE_GRASS (Some {[2; 3]}) s = (l, s1) /\
  Lane.type l = LANE_GRASS /\
  (3 <= size (Lane.open_cols l))%nat /\
  (forall c, c ∈ corridor -> c ∉ Lane.blocked_cols l) /\
  corridor ⊆ Lane.open_cols l.
Proof.
  apply (grass_beyond_safe_zone 9 (Some {[2; 3]})
           (mkStore (mkRng (fun i => N.of_nat (7 * i + 3)) 0) 0)).
  unfold START_SAFE_ROWS. lia.
Defined.

(** ** Player *)

Section PlayerFacts.

Lemma lane_type_eqb_eq a b : LaneType_eqb a b = true <-> a = b.
Proof. destruct a, b; simpl; split; congruence. Qed.

Lemma is_blocked_true (l : Lane.t) c :
  Lane.is_blocked l c = true <-> c ∈ Lane.blocked_cols l.
Proof. unfold Lane.is_blocked. apply bool_decide_eq_true. Qed.

Lemma tick_dip_fields dt p :
  Player.col (Player.tick_dip dt p) = Player.col p /\
  Player.row (Player.tick_dip dt p) = Player.row p /\
  Player.x_px (Player.tick_dip dt p) = Player.x_px p /\
  Player.dead (Player.tick_dip dt p) = Player.dead p /\
  Player.max_row (Player.tick_dip dt p) = Player.max_row p.
Proof. unfold Player.tick_dip. destruct (Qltb 0 (Player.log_dip_t p)); auto. Qed.

Lemma update_river dt world cam_y p :
  Player.dead p = false ->
  Lane.type (World.lane_at (Player.row p) world).1 = LANE_RIVER ->
  (Player.update dt world cam_y p).1 =
  let '(p1, continue) :=
    Player.ride_log dt (World.lane_at (Player.row p) world).1
                    (Player.tick_dip dt p) in
  if continue
  then Player.collide (World.lane_at (Player.row p) world).1 cam_y p1
  else p1.
Proof.
  intros Hd Hty. unfold Player.update. rewrite Hd.
  destruct (World.lane_at (Player.row p) world) as [lane w'].
  simpl in *. rewrite Hty. simpl.
  destruct (Player.ride_log dt lane (Player.tick_dip dt p)) as [p1 [|]];
    reflexivity.
Qed.

(** On a river lane the later checks of [update] reduce to the
    fall-behind test. *)
Lemma collide_river lane cam_y p :
  Lane.type lane = LANE_RIVER ->
  Player.collide lane cam_y p =
  if SCREEN_H <? rect_from_tile_top (Player.col p) (Player.row p) cam_y
  then Player.kill p else p.
Proof. intros Hty. unfold Player.collide. rewrite Hty. reflexivity. Qed.

Lemma find_covers_none x obs :
  List.find (Player.covers x) obs = None <->
  forall ob, In ob obs -> Player.covers x ob = false.
Proof.
  split.
  - intros H ob Hin. eapply find_none; eauto.
  - intros H. induction obs as [|o obs IH]; [reflexivity|].
    simpl. rewrite (H o) by (left; reflexivity).
    apply IH. intros ob Hin. apply H. right. exact Hin.
Qed.

Lemma covers_spec x ob :
  Player.covers x ob = true <->
  (Obstacle.x ob <= x /\ x <= Obstacle.x ob + Obstacle.w ob)%Q.
Proof.
  unfold Player.covers. rewrite andb_true_iff, !Qleb_le. reflexivity.
Qed.

Lemma Qfloor_screen_edge x :
  (x == inject_Z SCREEN_W)%Q -> Qfloor (x / inject_Z TILE) = GRID_W.
Proof.
  intros H. rewrite H.
  change (inject_Z SCREEN_W / inject_Z TILE)%Q with (528 / 48)%Q.
  reflexivity.
Qed.

(** What the river branch does once a covering obstacle is found. *)
Lemma ride_log_some dt lane p ob :
  List.find (Player.covers (Player.x_px p)) (Lane.obstacles lane) = Some ob ->
  let x' := (Player.x_px p
             + inject_Z (Obstacle.dir ob)
               * (Obstacle.base_speed ob
                  * difficulty (Player.max_row p)) * dt)%Q in
  let out := Qltb x' 0 || Qltb (inject_Z SCREEN_W) x' in
  exists p1,
    Player.ride_log dt lane p = (p1, negb out) /\
    Player.x_px p1 = x' /\ Player.row p1 = Player.row p /\
    (out = true -> Player.dead p1 = true /\ Player.col p1 = Player.col p) /\
    (out = false ->
     Player.dead p1 = Player.dead p /\
     Player.col p1 = Qfloor (x' / inject_Z TILE)).
Proof.
  intros Hf x' out. unfold Player.ride_log. rewrite Hf.
  set (p2 := Player.set_log_state _ _ _).
  assert (Hp2 : Player.x_px p2 = Player.x_px p /\
                Player.col p2 = Player.col p /\
                Player.row p2 = Player.row p /\
                Player.dead p2 = Player.dead p).
  { subst p2.
    destruct (negb (Player.was_on_log p)
              || negb (bool_decide (Player.log_under p
                                    = Some (Obstacle.oid ob))));
      simpl; auto. }
  destruct Hp2 as (Hx2 & Hc2 & Hr2 & Hd2).
  cbn zeta. rewrite Hx2. fold x'.
  change (Player.x_px (Player.set_x_px p2 x')) with x'. fold out.
  destruct out.
  - eexists. split; [reflexivity|]. simpl.
    repeat split; auto; discriminate.
  - eexists. split; [reflexivity|]. simpl.
    repeat split; auto; discriminate.
Qed.

Lemma out_of_bounds_true x :
  Qltb x 0 || Qltb (inject_Z SCREEN_W) x = true <->
  (x < 0 \/ inject_Z SCREEN_W < x)%Q.
Proof. rewrite orb_true_iff, !Qltb_lt. reflexivity. Qed.

Lemma out_of_bounds_false x :
  Qltb x 0 || Qltb (inject_Z SCREEN_W) x = false <->
  (0 <= x /\ x <= inject_Z SCREEN_W)%Q.
Proof. rewrite orb_false_iff, !Qltb_nlt. reflexivity. Qed.

End PlayerFacts.

(** C4: for an alive player and a move request by [(dcol, drow)], the move
    is rejected with the whole player state unchanged when the target column
    is outside [0 .. GRID_W - 1], or the target row is negative, or the target
    lane is a ground lane whose target column is blocked; otherwise column and
    row become the target, the continuous position becomes the centre of the
    new column, and the score becomes the maximum of itself and the new row
    (nothing else changes). *)
Theorem try_move_spec :
  forall (dcol drow : Z) (p : Player.t) (world : World.t),
    Player.dead p = false ->
    let new_col := Player.col p + dcol in
    let new_row := Player.row p + drow in
    let lane := (World.lane_at new_row world).1 in
    let p' := (Player.try_move dcol drow p world).1 in
    let rejected :=
      new_col < 0 \/ GRID_W <= new_col \/ new_row < 0 \/
      (Lane.type lane = LANE_GRASS /\ new_col ∈ Lane.blocked_cols lane) in
    (rejected -> p' = p) /\
    (~ rejected ->
     p' = Player.mk new_col new_row
            (inject_Z (new_col * TILE) + inject_Z TILE / 2)%Q false
            (Z.max (Player.max_row p) new_row)
            (Player.was_on_log p) (Player.log_under p) (Player.log_dip_t p)).
Proof.
  intros dcol drow p world Hd new_col new_row lane p' rejected.
  subst p' lane rejected. unfold Player.try_move. rewrite Hd.
  fold new_col new_row.
  destruct (World.lane_at new_row world) as [lane w'].
  destruct (Z.leb_spec 0 new_col) as [H0|H0]; simpl.
  2:{ split; [reflexivity | intros Hn; exfalso; apply Hn; lia]. }
  destruct (Z.ltb_spec new_col GRID_W) as [H1|H1]; simpl.
  2:{ split; [reflexivity | intros Hn; exfalso; apply Hn; lia]. }
  destruct (Z.ltb_spec new_row 0) as [H2|H2].
  { split; [reflexivity | intros Hn; exfalso; apply Hn; lia]. }
  destruct (LaneType_eqb (Lane.type lane) LANE_GRASS) eqn:Hty; simpl.
  - apply lane_type_eqb_eq in Hty.
    destruct (Lane.is_blocked lane new_col) eqn:Hb; simpl.
    + split; [reflexivity|].
      intros Hn; exfalso; apply Hn. right; right; right.
      split; [exact Hty | now apply is_blocked_true].
    + split.
      * intros [?|[?|[?|[_ Hin]]]]; try lia.
        apply is_blocked_true in Hin. congruence.
      * intros _. reflexivity.
  - split.
    + intros [?|[?|[?|[Hg _]]]]; try lia.
      apply lane_type_eqb_eq in Hg. congruence.
    + intros _. reflexivity.
Qed.

Lemma try_move_spec_witness :
  let p := Player.init in
  let world := World.init zero_rng in
  let new_col := Player.col p + 0 in
  let new_row := Player.row p + 1 in
  let lane := (World.lane_at new_row world).1 in
  let p' := (Player.try_move 0 1 p world).1 in
  let rejected :=
    new_col < 0 \/ GRID_W <= new_col \/ new_row < 0 \/
    (Lane.type lane = LANE_GRASS /\ new_col ∈ Lane.blocked_cols lane) in
  (rejected -> p' = p) /\
  (~ rejected ->
   p' = Player.mk new_col new_row
          (inject_Z (new_col * TILE) + inject_Z TILE / 2)%Q false
          (Z.max (Player.max_row p) new_row)
          (Player.was_on_log p) (Player.log_under p) (Player.log_dip_t p)).
Proof.
  apply (try_move_spec 0 1 Player.init (World.init zero_rng)). reflexivity.
Defined.

(** C5: per-tick update of an alive player standing on a waterway lane.  If
    no obstacle interval [x, x + w] contains the continuous position, the
    player becomes dead.  Otherwise, with [ob] the (first) containing
    obstacle, the continuous position changes by exactly
    [dir * (base_speed * difficulty) * dt] of that obstacle (that is, it grows
    by [base_speed * difficulty * dt] for a rightward one); if the carried
    position is outside [0, SCREEN_W] the player becomes dead, and otherwise
    the column is recomputed as the floor of the position over [TILE]. *)
Theorem river_ride_spec :
  forall (dt : Q) (world : World.t) (cam_y : Q) (p : Player.t),
    Player.dead p = false ->
    Lane.type (World.lane_at (Player.row p) world).1 = LANE_RIVER ->
    let lane := (World.lane_at (Player.row p) world).1 in
    let p' := (Player.update dt world cam_y p).1 in
    match List.find (Player.covers (Player.x_px p)) (Lane.obstacles lane) with
    | None =>
        (forall ob, In ob (Lane.obstacles lane) ->
                    Player.covers (Player.x_px p) ob = false) /\
        Player.dead p' = true
    | Some ob =>
        In ob (Lane.obstacles lane) /\
        (Obstacle.x ob <= Player.x_px p
         /\ Player.x_px p <= Obstacle.x ob + Obstacle.w ob)%Q /\
        let x' := (Player.x_px p
                   + inject_Z (Obstacle.dir ob)
                     * (Obstacle.base_speed ob
                        * difficulty (Player.max_row p)) * dt)%Q in
        Player.x_px p' = x' /\
        (Obstacle.dir ob = 1 ->
         (Player.x_px p' ==
          Player.x_px p
          + Obstacle.base_speed ob * difficulty (Player.max_row p) * dt)%Q) /\
        ((x' < 0 \/ inject_Z SCREEN_W < x')%Q -> Player.dead p' = true) /\
        ((0 <= x' /\ x' <= inject_Z SCREEN_W)%Q ->
         Player.col p' = Qfloor (x' / inject_Z TILE))
    end.
Proof.
  intros dt world cam_y p Hd Hty lane p'.
  subst p' lane. rewrite (update_river dt world cam_y p Hd Hty).
  set (lane := (World.lane_at (Player.row p) world).1) in *.
  pose proof (tick_dip_fields dt p) as (Hc & Hr & Hx & Hdd & Hm).
  rewrite <- Hx.
  destruct (List.find (Player.covers (Player.x_px (Player.tick_dip dt p)))
              (Lane.obstacles lane)) as [ob|] eqn:Hf.
  - destruct (ride_log_some dt lane _ ob Hf)
      as (p1 & -> & Hx1 & Hr1 & Hout & Hin).
    rewrite Hx, Hm in *.
    set (x' := (Player.x_px p + _)%Q) in *.
    apply find_some in Hf as [Hi Hcov].
    split; [exact Hi|]. split; [now apply covers_spec|].
    cbn zeta.
    destruct (Qltb x' 0 || Qltb (inject_Z SCREEN_W) x') eqn:Ho; simpl negb;
      cbv iota.
    + destruct (Hout eq_refl) as [Hdead _].
      split; [exact Hx1|].
      split; [intros Hdir; rewrite Hx1; subst x'; rewrite Hdir; ring|].
      split; [intros _; exact Hdead|].
      intros Hb. apply out_of_bounds_false in Hb. congruence.
    + destruct (Hin eq_refl) as [_ Hcol].
      rewrite collide_river by exact Hty.
      destruct (SCREEN_H <? _); simpl.
      * split; [exact Hx1|].
        split; [intros Hdir; rewrite Hx1; subst x'; rewrite Hdir; ring|].
        split; [reflexivity | intros _; exact Hcol].
      * split; [exact Hx1|].
        split; [intros Hdir; rewrite Hx1; subst x'; rewrite Hdir; ring|].
        split; [|intros _; exact Hcol].
        intros Hb. apply out_of_bounds_true in Hb. congruence.
  - unfold Player.ride_log. rewrite Hf. simpl.
    rewrite Hx in *.
    split; [now apply find_covers_none | reflexivity].
Qed.

Lemma river_ride_spec_witness :
  let p' := (Player.update (1 # 60) river_world 0 rider).1 in
  Player.x_px p' = (264 + inject_Z 1 * (100 * difficulty 2) * (1 # 60))%Q /\
  Player.col p' = 5 /\ Player.dead p' = false.
Proof.
  pose proof (river_ride_spec (1 # 60) river_world 0 rider
                eq_refl eq_refl) as H.
  simpl in H. destruct H as (_ & _ & Hx & _ & _ & Hcol).
  split; [exact Hx|].
  split; [|vm_compute; reflexivity].
  rewrite Hcol; [vm_compute; reflexivity|].
  split; vm_compute; discriminate.
Defined.

(** C10: while carried on a waterway lane, the player is killed for leaving
    the screen exactly when the carried position is strictly below 0 or
    strictly above [SCREEN_W] (the column is then left as it was); inside the
    closed interval the only remaining cause of death in that update is
    falling behind the camera, and the column is the unclamped floor of the
    position over [TILE], which is [GRID_W] at exactly [SCREEN_W]. *)
Theorem carried_off_screen_spec :
  forall (dt : Q) (world : World.t) (cam_y : Q) (p : Player.t)
         (ob : Obstacle.t),
    Player.dead p = false ->
    Lane.type (World.lane_at (Player.row p) world).1 = LANE_RIVER ->
    List.find (Player.covers (Player.x_px p))
              (Lane.obstacles (World.lane_at (Player.row p) world).1)
    = Some ob ->
    let p' := (Player.update dt world cam_y p).1 in
    let x' := (Player.x_px p
               + inject_Z (Obstacle.dir ob)
                 * (Obstacle.base_speed ob
                    * difficulty (Player.max_row p)) * dt)%Q in
    let behind :=
      SCREEN_H < rect_from_tile_top (Qfloor (x' / inject_Z TILE))
                                    (Player.row p) cam_y in
    ((x' < 0 \/ inject_Z SCREEN_W < x')%Q ->
     Player.dead p' = true /\ Player.col p' = Player.col p) /\
    ((0 <= x' /\ x' <= inject_Z SCREEN_W)%Q ->
     Player.col p' = Qfloor (x' / inject_Z TILE) /\
     (Player.dead p' = true <-> behind)) /\
    ((x' == inject_Z SCREEN_W)%Q -> Player.col p' = GRID_W).
Proof.
  intros dt world cam_y p ob Hd Hty Hf p' x' behind.
  subst p'. rewrite (update_river dt world cam_y p Hd Hty).
  set (lane := (World.lane_at (Player.row p) world).1) in *.
  pose proof (tick_dip_fields dt p) as (Hc & Hr & Hx & Hdd & Hm).
  rewrite <- Hx in Hf.
  destruct (ride_log_some dt lane _ ob Hf)
    as (p1 & Hride & Hx1 & Hr1 & Hout & Hin).
  cbn zeta. rewrite Hride. clear Hride.
  rewrite Hx, Hm, Hc, Hr, Hdd in *. fold x' in Hx1, Hout, Hin |- *.
  assert (Hgood : (0 <= x' /\ x' <= inject_Z SCREEN_W)%Q ->
    Player.col
      (if negb (Qltb x' 0 || Qltb (inject_Z SCREEN_W) x')
       then Player.collide lane cam_y p1 else p1)
    = Qfloor (x' / inject_Z TILE) /\
    (Player.dead
      (if negb (Qltb x' 0 || Qltb (inject_Z SCREEN_W) x')
       then Player.collide lane cam_y p1 else p1) = true
     <-> behind)).
  { intros Hb. apply out_of_bounds_false in Hb.
    destruct (Hin Hb) as [Hdead Hcol]. rewrite Hb. simpl negb. cbv iota.
    rewrite collide_river by exact Hty. rewrite Hcol, Hr1.
    subst behind.
    destruct (Z.ltb_spec SCREEN_H
                (rect_from_tile_top (Qfloor (x' / inject_Z TILE))
                   (Player.row p) cam_y)) as [Hlt|Hge].
    - split; [exact Hcol|]. split; [intros _; exact Hlt | reflexivity].
    - split; [exact Hcol|]. rewrite Hdead, Hd.
      split; [discriminate | lia]. }
  split; [|split].
  - intros Ho. apply out_of_bounds_true in Ho.
    destruct (Hout Ho) as [Hdead Hcol]. rewrite Ho. simpl. auto.
  - exact Hgood.
  - intros He.
    assert (Hb : (0 <= x' /\ x' <= inject_Z SCREEN_W)%Q).
    { rewrite He. split; [discriminate | apply Qle_refl]. }
    destruct (Hgood Hb) as [-> _]. now apply Qfloor_screen_edge.
Qed.

Lemma carried_off_screen_spec_witness :
  let p' := (Player.update 5 river_world 0 rider).1 in
  Player.dead p' = true /\ Player.col p' = 5.
Proof.
  pose proof (carried_off_screen_spec 5 river_world 0 rider
                (Obstacle.mk 0 200 96 100 1) eq_refl eq_refl eq_refl) as H.
  cbv zeta in H. destruct H as (Hout & _ & _).
  apply Hout. right. vm_compute. reflexivity.
Defined.

(** ** Railway lanes *)

Ltac lane_simpl :=
  cbn [Lane.row Lane.type Lane.obstacles Lane.blocked_cols Lane.direction
       Lane.spawn_timer Lane.base_spawn_interval Lane.base_speed
       Lane.train_timer Lane.train_warning Lane.train_active Lane.train_x
       Lane.train_dir
       Lane.set_obstacles Lane.set_blocked_cols Lane.set_spawn_timer
       Lane.set_base_spawn_interval Lane.set_base_speed Lane.set_train_timer
       Lane.set_train_warning Lane.set_train_active Lane.set_train_x
       Lane.set_train_dir Lane.spawn_train Lane.move_obstacles
       Lane.cull_obstacles Lane._enforce_no_overlap negb andb orb] in *.

Section Train.

Lemma arms_warning_idle dt (l : Lane.t) :
  Lane.train_active l = false ->
  Lane.arms_warning dt l =
  Qleb (Lane.train_timer l - dt) TRAIN_WARNING_TIME
  && Qleb (Lane.train_warning l) 0.
Proof. intros H. unfold Lane.arms_warning. rewrite H. reflexivity. Qed.

(** A railway lane has no spawn phase. *)
Lemma update_rail dt diff (l : Lane.t) s :
  Lane.type l = LANE_RAIL ->
  Lane.update dt diff l s =
  Lane.train_phase dt diff
    (Lane.cull_obstacles (Lane.move_obstacles dt diff l)) s.
Proof.
  intros Hty. unfold Lane.update, Lane.spawn_phase, bind, ret.
  change (Lane.type (Lane.cull_obstacles (Lane.move_obstacles dt diff l)))
    with (Lane.type l).
  rewrite Hty. reflexivity.
Qed.





End Train.




(** The same happens with ordinary frame times after a single slow frame.
    The lane is 1.3 s before its train.  A frame of 250 ms arms the warning
    1.05 s before the train and leaves 0.85 s of warning; at 16 ms a frame
    the warning has run out 54 frames later, with 0.186 s still on the
    countdown, and the next frame arms it again while the lane stays idle.
    None of the comparisons involved is closer than a millisecond. *)
Lemma warning_rearmed_after_slow_frame :
  Lane.arm_count hitch_frames 1 rail_soon zero_store = 2%nat.
Proof. vm_compute. reflexivity. Qed.

(** ** Roadway and waterway lanes: the no-overlap pass *)

Section Sorting.

Context {A : Type} (key : A -> Q).

Lemma insert_by_perm a l : Permutation (insert_by key a l) (a :: l).
Proof.
  induction l as [|b l IH]; simpl; [reflexivity|].
  destruct (Qleb (key a) (key b)); [reflexivity|].
  rewrite IH. apply perm_swap.
Qed.

Lemma sort_by_perm l : Permutation (sort_by key l) l.
Proof.
  induction l as [|a l IH]; simpl; [reflexivity|].
  unfold sort_by in *. simpl. rewrite insert_by_perm. now constructor.
Qed.

Lemma insert_by_sorted a l :
  StronglySorted (key_le key) l ->
  StronglySorted (key_le key) (insert_by key a l).
Proof.
  induction l as [|b l IH]; intros Hs; simpl.
  - repeat constructor.
  - apply StronglySorted_inv in Hs as [Hl Hb].
    destruct (Qleb (key a) (key b)) eqn:E.
    + apply Qleb_le in E. constructor; [constructor; assumption|].
      constructor; [exact E|].
      eapply Forall_impl; [exact Hb|].
      intros c Hc. unfold key_le in *. eapply Qle_trans; eauto.
    + apply Qleb_nle in E. constructor; [now apply IH|].
      rewrite insert_by_perm. constructor; [|exact Hb].
      unfold key_le. now apply Qlt_le_weak.
Qed.

Lemma sort_by_sorted l : StronglySorted (key_le key) (sort_by key l).
Proof.
  induction l as [|a l IH]; [constructor|].
  unfold sort_by in *. simpl. now apply insert_by_sorted.
Qed.

End Sorting.

Section Overlap.

Lemma MIN_GAP_pos : (0 < MIN_GAP)%Q.
Proof. reflexivity. Qed.

Lemma enforce_list_eq obs :
  Lane.enforce_list obs =
  match sort_by Obstacle.x obs with
  | [] => []
  | prev :: rest => prev :: Lane.push_apart prev rest
  end.
Proof.
  unfold Lane.enforce_list.
  destruct obs as [|a [|b obs]]; reflexivity.
Qed.

Lemma push_apart_spec rest : forall prev,
  Forall2 pushed rest (Lane.push_apart prev rest) /\
  Sorted gap_ok (prev :: Lane.push_apart prev rest).
Proof.
  induction rest as [|cur rest IH]; intros prev; simpl.
  - split; repeat constructor.
  - set (min_x := (Obstacle.x prev + Obstacle.w prev + MIN_GAP)%Q).
    set (cur' := if Qltb (Obstacle.x cur) min_x
                 then Obstacle.set_x cur min_x else cur).
    destruct (IH cur') as [Hf Hs].
    assert (Hp : pushed cur cur' /\ gap_ok prev cur').
    { subst cur'. unfold pushed, gap_ok. fold min_x.
      destruct (Qltb (Obstacle.x cur) min_x) eqn:E; simpl.
      - apply Qltb_lt in E. repeat split; auto.
        + now apply Qlt_le_weak.
        + apply Qle_refl.
      - apply Qltb_nlt in E. repeat split; auto. apply Qle_refl. }
    destruct Hp as [Hp Hg].
    split; constructor; auto.
Qed.

(** With non-negative widths, separation of neighbours is separation of
    every pair. *)
Lemma sorted_gap_strongly l :
  Forall (fun o => 0 < Obstacle.w o)%Q l ->
  Sorted gap_ok l -> StronglySorted gap_ok l.
Proof.
  induction l as [|a l IH]; intros Hw Hs; [constructor|].
  apply Forall_cons in Hw as [Ha Hw].
  apply Sorted_inv in Hs as [Hs Hd].
  specialize (IH Hw Hs). constructor; [exact IH|].
  destruct l as [|b l]; [constructor|].
  apply HdRel_inv in Hd.
  apply StronglySorted_inv in IH as [_ Hb].
  apply Forall_cons in Hw as [Hwb _].
  constructor; [exact Hd|].
  eapply Forall_impl; [exact Hb|].
  intros c Hc. unfold gap_ok in *.
  pose proof MIN_GAP_pos. lra.
Qed.

Lemma gap_strongly_left_of l :
  Forall (fun o => 0 < Obstacle.w o)%Q l ->
  StronglySorted gap_ok l -> StronglySorted left_of l.
Proof.
  induction l as [|a l IH]; intros Hw Hs; [constructor|].
  apply Forall_cons in Hw as [Ha Hw].
  apply StronglySorted_inv in Hs as [Hs Hd].
  constructor; [now apply IH|].
  eapply Forall_impl; [exact Hd|].
  intros c Hc. unfold gap_ok, left_of in *.
  pose proof MIN_GAP_pos. lra.
Qed.

Lemma pushed_oids l l' :
  Forall2 pushed l l' -> Obstacle.oid <$> l' = Obstacle.oid <$> l.
Proof.
  induction 1 as [|o o' l l' (Ho & _) _ IH]; [reflexivity|].
  rewrite !fmap_cons, Ho, IH. reflexivity.
Qed.

Lemma pushed_widths l l' :
  Forall2 pushed l l' ->
  Forall (fun o => 0 < Obstacle.w o)%Q l ->
  Forall (fun o => 0 < Obstacle.w o)%Q l'.
Proof.
  induction 1 as [|o o' l l' (_ & Hw & _) _ IH]; intros Hf; [constructor|].
  apply Forall_cons in Hf as [Ho Hf].
  constructor; [now rewrite Hw | now apply IH].
Qed.

(** Members with the same identity sit at the same place of the input and
    of the output of the pass; so what is ordered by position before is
    ordered by position after. *)
Lemma order_preserved srt out :
  Forall2 pushed srt out ->
  StronglySorted (key_le Obstacle.x) srt ->
  StronglySorted left_of out ->
  NoDup (Obstacle.oid <$> srt) ->
  forall a b a' b',
    a ∈ srt -> b ∈ srt -> a' ∈ out -> b' ∈ out ->
    Obstacle.oid a' = Obstacle.oid a ->
    Obstacle.oid b' = Obstacle.oid b ->
    (Obstacle.x a < Obstacle.x b)%Q ->
    (Obstacle.x a' < Obstacle.x b')%Q.
Proof.
  induction 1 as [|h h' t t' Hh Hrest IH];
    intros Hsrt Hout Hnd a b a' b' Ha Hb Ha' Hb' Hia Hib Hlt.
  - inversion Ha.
  - apply StronglySorted_inv in Hsrt as [Hsrt Hhd].
    apply StronglySorted_inv in Hout as [Hout Hhd'].
    rewrite fmap_cons in Hnd. apply NoDup_cons in Hnd as [Hnotin Hnd].
    pose proof (pushed_oids _ _ Hrest) as Hoids.
    destruct Hh as (Hoh & _).
    assert (Hside : forall c c', c ∈ h :: t -> c' ∈ h' :: t' ->
              Obstacle.oid c' = Obstacle.oid c ->
              (c = h /\ c' = h') \/ (c ∈ t /\ c' ∈ t')).
    { intros c c' Hc Hc' Hi.
      apply elem_of_cons in Hc as [->|Hc];
        apply elem_of_cons in Hc' as [->|Hc'].
      - left; auto.
      - exfalso. apply Hnotin. rewrite <- Hi, <- Hoids.
        apply list_elem_of_fmap. eauto.
      - exfalso. apply Hnotin. rewrite <- Hoh, Hi.
        apply list_elem_of_fmap. eauto.
      - right; auto. }
    destruct (Hside a a' Ha Ha' Hia) as [[-> ->]|[Hat Hat']];
      destruct (Hside b b' Hb Hb' Hib) as [[-> ->]|[Hbt Hbt']].
    + exfalso. eapply Qlt_irrefl; eauto.
    + rewrite Forall_forall in Hhd'. apply Hhd'. exact Hbt'.
    + exfalso. rewrite Forall_forall in Hhd.
      specialize (Hhd a Hat). unfold key_le in Hhd.
      eapply Qlt_not_le; eauto.
    + exact (IH Hsrt Hout Hnd a b a' b' Hat Hbt Hat' Hbt' Hia Hib Hlt).
Qed.

End Overlap.

Section Spawning.

Lemma neutral_ret {A} (a : A) : oid_neutral (ret a).
Proof. intros s. reflexivity. Qed.

Lemma neutral_bind {A B} (m : Gen A) (k : A -> Gen B) :
  oid_neutral m -> (forall a, oid_neutral (k a)) -> oid_neutral (bind m k).
Proof.
  intros Hm Hk s. unfold bind. specialize (Hm s).
  destruct (m s) as [a s1]. simpl in Hm. rewrite Hk. exact Hm.
Qed.

Lemma neutral_next_raw : oid_neutral next_raw.
Proof. intros s. reflexivity. Qed.

Lemma neutral_randbelow n : oid_neutral (randbelow n).
Proof.
  apply neutral_bind; [apply neutral_next_raw | intros; apply neutral_ret].
Qed.

Lemma neutral_random : oid_neutral random.
Proof.
  apply neutral_bind; [apply neutral_next_raw | intros; apply neutral_ret].
Qed.

Lemma neutral_uniform a b : oid_neutral (uniform a b).
Proof.
  apply neutral_bind; [apply neutral_random | intros; apply neutral_ret].
Qed.

Lemma neutral_choice {A} (x : A) xs : oid_neutral (choice x xs).
Proof.
  apply neutral_bind; [apply neutral_randbelow | intros; apply neutral_ret].
Qed.

Lemma choice_in {A} (x : A) xs s : In (choice x xs s).1 (x :: xs).
Proof.
  unfold choice, bind, ret.
  destruct (randbelow _ s) as [i s1]. cbn [fst].
  destruct (Nat.lt_ge_cases (Z.to_nat i) (length (x :: xs))) as [Hlt|Hge].
  - apply nth_In. exact Hlt.
  - rewrite nth_overflow by exact Hge. left. reflexivity.
Qed.

Lemma neutral_edge_spawn_x l w : oid_neutral (Lane._edge_spawn_x l w).
Proof.
  unfold Lane._edge_spawn_x.
  destruct (Lane.direction l =? 1);
    (apply neutral_bind; [apply neutral_uniform | intros; apply neutral_ret]).
Qed.

Lemma spawn_with_width_spec w (l : Lane.t) s :
  (0 < w)%Q ->
  spawned l (Lane.spawn_with_width w l s).1 s
          (Lane.spawn_with_width w l s).2.
Proof.
  intros Hw. unfold Lane.spawn_with_width, bind.
  pose proof (neutral_edge_spawn_x l w s) as Hn.
  destruct (Lane._edge_spawn_x l w s) as [x s1]. simpl in Hn.
  destruct (Lane._can_spawn_with_gap l x w).
  - unfold Obstacle.init, bind, fresh_oid, ret, spawned. cbn [fst snd].
    lane_simpl. cbn [next_oid].
    split; [reflexivity|]. split; [reflexivity|]. split; [reflexivity|].
    split; [lia|]. right.
    exists (Obstacle.mk (next_oid s1) x w (Lane.base_speed l)
                        (Lane.direction l)).
    cbn [Obstacle.oid Obstacle.base_speed Obstacle.dir Obstacle.w].
    rewrite Hn. repeat split; auto.
  - unfold ret, spawned. cbn [fst snd].
    split; [reflexivity|]. split; [reflexivity|]. split; [reflexivity|].
    split; [lia|]. now left.
Qed.

Lemma spawn_obstacle_spec (l : Lane.t) s :
  spawned l (Lane.spawn_obstacle l s).1 s (Lane.spawn_obstacle l s).2.
Proof.
  unfold Lane.spawn_obstacle.
  destruct (Lane.type l) eqn:Hty.
  - unfold ret, spawned; cbn [fst snd]. repeat split; auto.
  - apply spawn_with_width_spec. reflexivity.
  - unfold bind.
    pose proof (neutral_choice 2 [2; 3] s) as Hn.
    pose proof (choice_in 2 [2; 3] s) as Hin.
    destruct (choice 2 [2; 3] s) as [w_tiles s1]. simpl in Hn, Hin.
    assert (Hw : (0 < inject_Z (w_tiles * TILE))%Q).
    { destruct Hin as [<-|[<-|[<-|[]]]]; reflexivity. }
    pose proof (spawn_with_width_spec _ l s1 Hw) as Hsp.
    destruct (Lane.spawn_with_width (inject_Z (w_tiles * TILE)) l s1)
      as [l' s'].
    cbn [fst snd] in *. unfold spawned in *. rewrite Hn in Hsp. exact Hsp.
  - unfold ret, spawned; cbn [fst snd]. repeat split; auto.
Qed.

Lemma lane_wf_spawned (l l' : Lane.t) s s' :
  spawned l l' s s' -> lane_wf l s -> lane_wf l' s'.
Proof.
  intros (Hty & Hbs & Hdir & Hle & Hobs) [Hall Hnd].
  unfold lane_wf. rewrite Hbs, Hdir.
  assert (Hold : Forall (fun ob =>
            Obstacle.base_speed ob = Lane.base_speed l /\
            Obstacle.dir ob = Lane.direction l /\
            (0 < Obstacle.w ob)%Q /\
            (Obstacle.oid ob < next_oid s')%nat) (Lane.obstacles l)).
  { eapply Forall_impl; [exact Hall|].
    intros ob (? & ? & ? & ?). repeat split; auto. lia. }
  destruct Hobs as [->|(ob & -> & Hoid & Hs' & Hb & Hd & Hw)].
  - split; assumption.
  - split.
    + apply Forall_app. split; [exact Hold|].
      constructor; [|constructor]. repeat split; auto. lia.
    + rewrite fmap_app. apply NoDup_app. split; [exact Hnd|].
      split; [|apply NoDup_singleton].
      intros i Hi Hi'. apply list_elem_of_singleton in Hi'. subst i.
      apply list_elem_of_fmap in Hi as (o & Ho & Hin).
      rewrite Forall_forall in Hall. apply Hall in Hin.
      destruct Hin as (_ & _ & _ & Hlt). rewrite Hoid in Ho. lia.
Qed.

End Spawning.

Section LaneUpdate.

Lemma pushed_refl o : pushed o o.
Proof. unfold pushed. repeat split; auto. apply Qle_refl. Qed.

Lemma enforce_list_spec obs :
  exists srt,
    Permutation srt obs /\
    StronglySorted (key_le Obstacle.x) srt /\
    Forall2 pushed srt (Lane.enforce_list obs) /\
    Sorted gap_ok (Lane.enforce_list obs).
Proof.
  exists (sort_by Obstacle.x obs).
  split; [apply sort_by_perm|]. split; [apply sort_by_sorted|].
  rewrite enforce_list_eq.
  destruct (sort_by Obstacle.x obs) as [|p rest]; [split; constructor|].
  destruct (push_apart_spec rest p) as [Hf Hs].
  split; [constructor; [apply pushed_refl | exact Hf] | exact Hs].
Qed.

Lemma pushed_ok v d n l l' :
  Forall2 pushed l l' ->
  Forall (obstacle_ok v d n) l -> Forall (obstacle_ok v d n) l'.
Proof.
  induction 1 as [|o o' l l' (Ho & Hw & Hb & Hd & _) _ IH];
    intros Hf; [constructor|].
  apply Forall_cons in Hf as [(? & ? & ? & ?) Hf].
  constructor; [|now apply IH].
  unfold obstacle_ok. rewrite Ho, Hw, Hb, Hd. auto.
Qed.

Lemma ok_widths v d n l :
  Forall (obstacle_ok v d n) l -> Forall (fun o => 0 < Obstacle.w o)%Q l.
Proof.
  intros H. eapply Forall_impl; [exact H|]. intros o (_ & _ & Hw & _).
  exact Hw.
Qed.

Lemma lane_wf_unfold (l : Lane.t) s :
  lane_wf l s <->
  Forall (obstacle_ok (Lane.base_speed l) (Lane.direction l) (next_oid s))
         (Lane.obstacles l) /\
  NoDup (Obstacle.oid <$> Lane.obstacles l).
Proof. reflexivity. Qed.

(** Movement and culling keep a lane well formed, and every survivor is
    the moved copy of an obstacle that was there. *)
Lemma move_cull_wf dt diff (l : Lane.t) s :
  lane_wf l s ->
  lane_wf (Lane.cull_obstacles (Lane.move_obstacles dt diff l)) s.
Proof.
  intros [Hall Hnd]. apply lane_wf_unfold. lane_simpl. split.
  - apply Forall_forall. intros o Ho.
    apply list_elem_of_In, filter_In in Ho as [Ho _].
    apply list_elem_of_In, list_elem_of_fmap in Ho as (o0 & -> & Ho0).
    rewrite Forall_forall in Hall. exact (Hall o0 Ho0).
  - induction (Lane.obstacles l) as [|o obs IH]; [constructor|].
    rewrite fmap_cons in *. apply NoDup_cons in Hnd as [Hn Hnd].
    apply Forall_cons in Hall as [_ Hall].
    specialize (IH Hall Hnd). simpl.
    destruct (Lane.on_stage (Obstacle.update dt diff o)); [|exact IH].
    rewrite fmap_cons. apply NoDup_cons. split; [|exact IH].
    intros Hin. apply Hn.
    apply list_elem_of_fmap in Hin as (o1 & Hoid & Hin).
    apply list_elem_of_In, filter_In in Hin as [Hin _].
    apply list_elem_of_In, list_elem_of_fmap in Hin as (o0 & -> & Ho0).
    apply list_elem_of_fmap. exists o0. split; [exact Hoid | exact Ho0].
Qed.

Lemma spawned_transport (l0 l1 l' : Lane.t) s0 s1 s' :
  spawned l1 l' s1 s' ->
  Lane.type l1 = Lane.type l0 ->
  Lane.base_speed l1 = Lane.base_speed l0 ->
  Lane.direction l1 = Lane.direction l0 ->
  Lane.obstacles l1 = Lane.obstacles l0 ->
  next_oid s1 = next_oid s0 ->
  spawned l0 l' s0 s'.
Proof.
  unfold spawned. intros H Ht Hb Hd Ho Hn.
  rewrite Ht, Hb, Hd, Ho, Hn in H. exact H.
Qed.

(** The shape of an update of a roadway or waterway lane. *)
Lemma update_road_river dt diff (l l' : Lane.t) s s' :
  Lane.type l = LANE_ROAD \/ Lane.type l = LANE_RIVER ->
  Lane.update dt diff l s = (Some l', s') ->
  exists l3,
    spawned (Lane.cull_obstacles (Lane.move_obstacles dt diff l)) l3 s s' /\
    Lane.obstacles l' = Lane.enforce_list (Lane.obstacles l3) /\
    Lane.type l' = Lane.type l /\
    Lane.base_speed l' = Lane.base_speed l /\
    Lane.direction l' = Lane.direction l.
Proof.
  intros Hty Hup.
  set (l2 := Lane.cull_obstacles (Lane.move_obstacles dt diff l)) in *.
  unfold Lane.update in Hup. fold l2 in Hup.
  assert (Hty2 : Lane.type l2 = Lane.type l) by reflexivity.
  unfold bind at 1 in Hup.
  destruct (Lane.spawn_phase dt diff l2 s) as [[l4|] s4] eqn:Hph;
    [|unfold ret in Hup; discriminate].
  assert (Htr : Lane.train_phase dt diff l4 s4 = (Some l4, s4) ->
                l' = l4 /\ s' = s4).
  { intros E. rewrite E in Hup. now injection Hup as <- <-. }
  unfold Lane.spawn_phase in Hph. rewrite Hty2 in Hph.
  assert (Hcore :
    (if Qeq_bool diff 0 then ret None
     else
       let actual_interval := (Lane.base_spawn_interval l2 / diff)%Q in
       let l := Lane.set_spawn_timer l2 (Lane.spawn_timer l2 + dt)%Q in
       bind (if Qleb actual_interval (Lane.spawn_timer l) then
               let l := Lane.set_spawn_timer l 0 in
               bind (match Lane.type l with
                     | LANE_ROAD => uniform CAR_SPAWN_MIN CAR_SPAWN_MAX
                     | _ => uniform LOG_SPAWN_MIN LOG_SPAWN_MAX
                     end)
                    (fun i => Lane.spawn_obstacle
                                (Lane.set_base_spawn_interval l i))
             else ret l)
            (fun l => ret (Some (Lane._enforce_no_overlap l)))) s
    = (Some l4, s4)).
  { destruct Hty as [E|E]; rewrite E in Hph; exact Hph. }
  clear Hph.
  destruct (Qeq_bool diff 0); [discriminate|].
  cbv zeta in Hcore. unfold bind at 1 in Hcore.
  match type of Hcore with
  | (let '(_, _) := ?m s in _) = _ =>
      assert (Hs : spawned l2 (m s).1 s (m s).2);
      [|destruct (m s) as [l3 s3]]
  end.
  { destruct (Qleb _ _).
    - unfold bind.
      match goal with
      | |- context [?u s] =>
          match u with
          | match _ with LANE_ROAD => _ | _ => _ end =>
              assert (Hn : next_oid (u s).2 = next_oid s)
                by (destruct (Lane.type _); apply neutral_uniform);
              destruct (u s) as [i s1]
          end
      end.
      cbn [snd] in Hn.
      eapply spawned_transport;
        [apply spawn_obstacle_spec | reflexivity .. | exact Hn].
    - unfold ret, spawned. cbn [fst snd]. lane_simpl.
      repeat split; auto. }
  unfold ret in Hcore. injection Hcore as <- <-.
  cbn [fst snd] in Hs.
  assert (Hnr : Lane.type (Lane._enforce_no_overlap l3) <> LANE_RAIL).
  { lane_simpl. destruct Hs as (Ht3 & _). rewrite Ht3, Hty2.
    destruct Hty as [E|E]; rewrite E; discriminate. }
  destruct Htr as [-> ->].
  { unfold Lane.train_phase.
    destruct (Lane.type (Lane._enforce_no_overlap l3)); try reflexivity.
    congruence. }
  exists l3. split; [exact Hs|].
  destruct Hs as (Ht3 & Hb3 & Hd3 & _).
  lane_simpl. repeat split; auto.
Qed.

End LaneUpdate.

Section NeverPass.

Lemma moved_x dt diff o :
  Obstacle.x (Obstacle.update dt diff o) =
  (Obstacle.x o
   + inject_Z (Obstacle.dir o) * (Obstacle.base_speed o * diff) * dt)%Q.
Proof. reflexivity. Qed.

(** Where an obstacle of the lane before the update is found among the
    obstacles handed to the no-overlap pass. *)
Lemma survivor_origin dt diff (l l3 : Lane.t) s s' c :
  lane_wf l s ->
  spawned (Lane.cull_obstacles (Lane.move_obstacles dt diff l)) l3 s s' ->
  c ∈ Lane.obstacles l3 ->
  (Obstacle.oid c < next_oid s)%nat ->
  exists c0, c0 ∈ Lane.obstacles l /\ c = Obstacle.update dt diff c0.
Proof.
  intros [Hall Hnd] (_ & _ & _ & _ & Hobs) Hc Hlt.
  assert (Hold : c ∈ Lane.obstacles
                   (Lane.cull_obstacles (Lane.move_obstacles dt diff l))).
  { destruct Hobs as [<-|(ob & Heq & Hoid & _)]; [exact Hc|].
    rewrite Heq in Hc. apply elem_of_app in Hc as [Hc|Hc]; [exact Hc|].
    apply list_elem_of_singleton in Hc. subst c. lia. }
  lane_simpl.
  apply list_elem_of_In, filter_In in Hold as [Hold _].
  apply list_elem_of_In, list_elem_of_fmap in Hold as (c0 & -> & Hc0).
  exists c0. split; [exact Hc0 | reflexivity].
Qed.

Lemma same_oid_same_obstacle (obs : list Obstacle.t) a b :
  NoDup (Obstacle.oid <$> obs) ->
  a ∈ obs -> b ∈ obs -> Obstacle.oid a = Obstacle.oid b -> a = b.
Proof.
  induction obs as [|o obs IH]; intros Hnd Ha Hb Hab; [inversion Ha|].
  rewrite fmap_cons in Hnd. apply NoDup_cons in Hnd as [Hn Hnd].
  apply elem_of_cons in Ha as [->|Ha]; apply elem_of_cons in Hb as [->|Hb].
  - reflexivity.
  - exfalso. apply Hn. rewrite Hab. apply list_elem_of_fmap. eauto.
  - exfalso. apply Hn. rewrite <- Hab. apply list_elem_of_fmap. eauto.
  - now apply IH.
Qed.

End NeverPass.

Section WellFormedLanes.

Lemma seed_obstacles_wf n : forall (l : Lane.t) s,
  lane_wf l s ->
  lane_wf (Lane._seed_obstacles n l s).1 (Lane._seed_obstacles n l s).2.
Proof.
  induction n as [|n IH]; intros l s Hwf; [exact Hwf|].
  simpl. unfold bind.
  pose proof (spawn_obstacle_spec l s) as Hsp.
  destruct (Lane.spawn_obstacle l s) as [l1 s1]. cbn [fst snd] in Hsp.
  apply IH. eapply lane_wf_spawned; eauto.
Qed.

Lemma no_obstacles_wf (l : Lane.t) s : Lane.obstacles l = [] -> lane_wf l s.
Proof.
  intros H. unfold lane_wf. rewrite H. split; constructor.
Qed.

(** Every lane is well formed when it leaves its constructor. *)
Lemma Lane_init_wf row ty prev s l s' :
  Lane.init row ty prev s = (l, s') -> lane_wf l s'.
Proof.
  unfold Lane.init. unfold bind at 1.
  pose proof (init_fields_shape row ty s) as Hshape.
  destruct (Lane.init_fields row ty s) as [l0 s0].
  cbn [fst] in Hshape. destruct Hshape as (_ & _ & _ & Hobs & _).
  destruct ty.
  - unfold bind, ret.
    assert (Hg : Lane.obstacles (Lane._init_grass prev l0 s0).1.2 = []).
    { unfold Lane._init_grass.
      destruct (Lane.row l0 <? START_SAFE_ROWS); unfold bind, ret;
        repeat match goal with
               | |- context [let '(_, _) := ?m ?st in _] =>
                   destruct (m st) as [? ?]
               end; exact Hobs. }
    destruct (Lane._init_grass prev l0 s0) as [g s1].
    intros [= <- <-]. apply no_obstacles_wf. exact Hg.
  - unfold bind.
    destruct (uniform CAR_SPAWN_MIN CAR_SPAWN_MAX s0) as [i s1].
    destruct (uniform CAR_SPEED_MIN CAR_SPEED_MAX s1) as [v s2].
    destruct (choice 1 [1; 2] s2) as [count s3].
    intros E.
    pose proof (seed_obstacles_wf (Z.to_nat count)
                  (Lane.set_base_speed (Lane.set_base_spawn_interval l0 i) v)
                  s3 (no_obstacles_wf
                        (Lane.set_base_speed
                           (Lane.set_base_spawn_interval l0 i) v) s3 Hobs))
      as H.
    rewrite E in H. exact H.
  - unfold bind.
    destruct (uniform LOG_SPAWN_MIN LOG_SPAWN_MAX s0) as [i s1].
    destruct (uniform LOG_SPEED_MIN LOG_SPEED_MAX s1) as [v s2].
    destruct (choice 1 [2] s2) as [count s3].
    intros E.
    pose proof (seed_obstacles_wf (Z.to_nat count)
                  (Lane.set_base_speed (Lane.set_base_spawn_interval l0 i) v)
                  s3 (no_obstacles_wf
                        (Lane.set_base_speed
                           (Lane.set_base_spawn_interval l0 i) v) s3 Hobs))
      as H.
    rewrite E in H. exact H.
  - unfold bind, ret.
    destruct (uniform TRAIN_INTERVAL_MIN TRAIN_INTERVAL_MAX s0) as [tt s1].
    intros [= <- <-]. apply no_obstacles_wf. exact Hobs.
Qed.

(** With a non-zero difficulty the update of a roadway or waterway lane
    does not raise. *)
Lemma update_road_river_total dt diff (l : Lane.t) s :
  Lane.type l = LANE_ROAD \/ Lane.type l = LANE_RIVER ->
  Qeq_bool diff 0 = false ->
  exists l' s', Lane.update dt diff l s = (Some l', s').
Proof.
  intros Hty Hd. unfold Lane.update. unfold bind at 1.
  set (l2 := Lane.cull_obstacles (Lane.move_obstacles dt diff l)).
  assert (Hty2 : Lane.type l2 = Lane.type l) by reflexivity.
  assert (Hph : exists l4 s4,
             Lane.spawn_phase dt diff l2 s = (Some l4, s4) /\
             Lane.type l4 = Lane.type l).
  { unfold Lane.spawn_phase. rewrite Hty2.
    assert (Hcore : exists l4 s4,
      (let actual_interval := (Lane.base_spawn_interval l2 / diff)%Q in
       let l := Lane.set_spawn_timer l2 (Lane.spawn_timer l2 + dt)%Q in
       bind (if Qleb actual_interval (Lane.spawn_timer l) then
               let l := Lane.set_spawn_timer l 0 in
               bind (match Lane.type l with
                     | LANE_ROAD => uniform CAR_SPAWN_MIN CAR_SPAWN_MAX
                     | _ => uniform LOG_SPAWN_MIN LOG_SPAWN_MAX
                     end)
                    (fun i => Lane.spawn_obstacle
                                (Lane.set_base_spawn_interval l i))
             else ret l)
            (fun l => ret (Some (Lane._enforce_no_overlap l)))) s
      = (Some l4, s4) /\ Lane.type l4 = Lane.type l).
    { cbv zeta. unfold bind at 1.
      match goal with
      | |- context [let '(_, _) := ?m s in _] =>
          assert (Hs : Lane.type (m s).1 = Lane.type l);
          [|destruct (m s) as [l3 s3]]
      end.
      { destruct (Qleb _ _); [|reflexivity].
        unfold bind.
        match goal with
        | |- context [let '(_, _) := ?u s in _] => destruct (u s) as [i s1]
        end.
        pose proof (spawn_obstacle_spec
                      (Lane.set_base_spawn_interval
                         (Lane.set_spawn_timer
                            (Lane.set_spawn_timer l2
                               (Lane.spawn_timer l2 + dt)) 0) i) s1)
          as (Ht & _).
        exact Ht. }
      eexists _, _. unfold ret. split; [reflexivity | exact Hs]. }
    destruct Hty as [E|E]; rewrite E; rewrite Hd; rewrite E in Hcore;
      exact Hcore. }
  destruct Hph as (l4 & s4 & -> & Hty4).
  unfold Lane.train_phase.
  destruct Hty as [E|E]; rewrite E in Hty4; rewrite Hty4;
    eexists _, _; reflexivity.
Qed.

End WellFormedLanes.

(** C1: after any update of a roadway or waterway lane (movement, culling,
    spawning, no-overlap pass), the obstacle list is in strictly increasing
    position order and every pair of obstacles in it is separated: the later
    one starts at least [MIN_GAP] past the end of the earlier one, so no two
    overlap.  Obstacles do not pass each other: two obstacles present before
    and after the update keep their relative order.  Nothing depends on the
    lane's travel direction.  The lane is assumed well formed, which every
    lane built by [Lane.init] is and which the update preserves. *)
Theorem no_overlap_after_update :
  forall (dt diff : Q) (l l' : Lane.t) (s s' : Store),
    Lane.type l = LANE_ROAD \/ Lane.type l = LANE_RIVER ->
    lane_wf l s ->
    Lane.update dt diff l s = (Some l', s') ->
    StronglySorted gap_ok (Lane.obstacles l') /\
    StronglySorted left_of (Lane.obstacles l') /\
    (forall a b a' b',
        a ∈ Lane.obstacles l -> b ∈ Lane.obstacles l ->
        a' ∈ Lane.obstacles l' -> b' ∈ Lane.obstacles l' ->
        Obstacle.oid a' = Obstacle.oid a ->
        Obstacle.oid b' = Obstacle.oid b ->
        (Obstacle.x a < Obstacle.x b)%Q ->
        (Obstacle.x a' < Obstacle.x b')%Q) /\
    lane_wf l' s'.
Proof.
  intros dt diff l l' s s' Hty Hwf Hup.
  destruct (update_road_river dt diff l l' s s' Hty Hup)
    as (l3 & Hsp & Hobs & Hty' & Hbs' & Hdir').
  pose proof (move_cull_wf dt diff l s Hwf) as Hwf2.
  pose proof (lane_wf_spawned _ _ _ _ Hsp Hwf2) as [Hall3 Hnd3].
  destruct (enforce_list_spec (Lane.obstacles l3))
    as (srt & Hperm & Hsorted & Hpushed & Hgaps).
  rewrite <- Hobs in Hpushed, Hgaps.
  destruct Hsp as (Ht3 & Hb3 & Hd3 & Hle & Hnew).
  assert (Hb3' : Lane.base_speed l3 = Lane.base_speed l) by exact Hb3.
  assert (Hd3' : Lane.direction l3 = Lane.direction l) by exact Hd3.
  rewrite Hb3', Hd3' in Hall3.
  assert (Hsrt_ok : Forall (obstacle_ok (Lane.base_speed l) (Lane.direction l)
                              (next_oid s')) srt)
    by (rewrite Hperm; exact Hall3).
  assert (Hsrt_nd : NoDup (Obstacle.oid <$> srt))
    by (rewrite Hperm; exact Hnd3).
  pose proof (pushed_ok _ _ _ _ _ Hpushed Hsrt_ok) as Hout_ok.
  pose proof (ok_widths _ _ _ _ Hout_ok) as Hout_w.
  pose proof (sorted_gap_strongly _ Hout_w Hgaps) as Hstrong.
  pose proof (gap_strongly_left_of _ Hout_w Hstrong) as Hleft.
  split; [exact Hstrong|]. split; [exact Hleft|]. split.
  - intros a b a' b' Ha Hb Ha' Hb' Hia Hib Hlt.
    destruct Hwf as [Hall Hnd].
    (* the members of [srt] that carry the identities of [a'] and [b'] *)
    assert (Hfind : forall o o', o ∈ Lane.obstacles l ->
              o' ∈ Lane.obstacles l' -> Obstacle.oid o' = Obstacle.oid o ->
              Obstacle.update dt diff o ∈ srt).
    { intros o o' Ho Ho' Hi.
      assert (Hin : Obstacle.oid o' ∈ Obstacle.oid <$> srt).
      { rewrite <- (pushed_oids _ _ Hpushed).
        apply list_elem_of_fmap. eauto. }
      apply list_elem_of_fmap in Hin as (c & Hci & Hc).
      assert (Hc3 : c ∈ Lane.obstacles l3) by (rewrite <- Hperm; exact Hc).
      rewrite Forall_forall in Hall.
      destruct (Hall o Ho) as (_ & _ & _ & Holt).
      destruct (survivor_origin dt diff l l3 s s' c (conj (proj2 (Forall_forall _ _) Hall) Hnd))
        as (c0 & Hc0 & ->); auto.
      { repeat split; auto. }
      { rewrite <- Hci, Hi. exact Holt. }
      assert (c0 = o).
      { apply (same_oid_same_obstacle (Lane.obstacles l) c0 o Hnd Hc0 Ho).
        change (Obstacle.oid c0) with
          (Obstacle.oid (Obstacle.update dt diff c0)).
        rewrite <- Hci. exact Hi. }
      subst c0. exact Hc. }
    pose proof (Hfind a a' Ha Ha' Hia) as Hma.
    pose proof (Hfind b b' Hb Hb' Hib) as Hmb.
    eapply (order_preserved srt (Lane.obstacles l') Hpushed Hsorted Hleft
              Hsrt_nd _ _ a' b' Hma Hmb Ha' Hb'); auto.
    rewrite !moved_x.
    rewrite Forall_forall in Hall.
    destruct (Hall a Ha) as (-> & -> & _).
    destruct (Hall b Hb) as (-> & -> & _).
    lra.
  - split.
    + rewrite Hbs', Hdir'. exact Hout_ok.
    + rewrite (pushed_oids _ _ Hpushed). exact Hsrt_nd.
Qed.

Lemma no_overlap_after_update_witness :
  exists l' s',
    Lane.update (1 # 60) 1 road_demo road_store = (Some l', s') /\
    StronglySorted gap_ok (Lane.obstacles l') /\
    StronglySorted left_of (Lane.obstacles l').
Proof.
  assert (Hty : Lane.type road_demo = LANE_ROAD \/
                Lane.type road_demo = LANE_RIVER) by (left; reflexivity).
  assert (Hwf : lane_wf road_demo road_store).
  { split.
    - repeat constructor; simpl; lia.
    - repeat constructor; set_solver. }
  destruct (update_road_river_total (1 # 60) 1 road_demo road_store
              Hty eq_refl) as (l' & s' & Hup).
  destruct (no_overlap_after_update (1 # 60) 1 road_demo l'
              road_store s' Hty Hwf Hup) as (Hg & Hl & _).
  exists l', s'. auto.
Defined.

(** ** World *)

Section WorldInvariant.

(** [_ensure_lane] on a row that is present does nothing. *)
Lemma ensure_lane_present row forced prev (w : World.t) :
  row ∈ dom (World.lanes w) -> World._ensure_lane row forced prev w = w.
Proof.
  intros H. unfold World._ensure_lane. rewrite bool_decide_eq_true_2; auto.
Qed.

(** On an absent row it adds exactly that row, whatever lane it builds. *)
Lemma ensure_lane_absent row forced prev (w : World.t) :
  row ∉ dom (World.lanes w) ->
  exists lane st,
    World._ensure_lane row forced prev w =
    World.mk st (<[row := lane]> (World.lanes w))
             (Z.max (World.max_generated_row w) row)
             (World.gen_log w ++ [row]).
Proof.
  intros H. unfold World._ensure_lane. rewrite bool_decide_eq_false_2; auto.
  destruct forced as [ty|].
  - unfold World.draw.
    destruct (Lane.init row ty prev (World.store w)) as [lane st].
    eexists _, _. reflexivity.
  - unfold World._choose_next_lane_type, World.draw.
    destruct (uniform _ _ (World.store w)) as [pick st0]. cbn [World.store
      World.set_store World.lanes World.max_generated_row World.gen_log].
    destruct (Lane.init row _ prev st0) as [lane st].
    eexists _, _. reflexivity.
Qed.

Lemma span_ensure_next lo row forced prev (w : World.t) :
  span lo w ->
  row = World.max_generated_row w + 1 ->
  span lo (World._ensure_lane row forced prev w) /\
  World.max_generated_row (World._ensure_lane row forced prev w) = row.
Proof.
  intros (Hlo & Hdom & Hsorted & Hbound) Hrow.
  assert (Habs : row ∉ dom (World.lanes w)).
  { intros Hin. apply Hdom in Hin. lia. }
  destruct (ensure_lane_absent row forced prev w Habs) as (lane & st & ->).
  cbn [World.max_generated_row World.lanes World.gen_log].
  split; [|lia].
  unfold span. cbn [World.max_generated_row World.lanes World.gen_log].
  split; [lia|]. split; [|split].
  - intros r. rewrite dom_insert_L, elem_of_union, elem_of_singleton, Hdom.
    lia.
  - clear Hdom Habs.
    induction (World.gen_log w) as [|x log IH]; simpl.
    + repeat constructor.
    + apply StronglySorted_inv in Hsorted as [Hs Hx].
      apply Forall_cons in Hbound as [Hxb Hb].
      constructor; [now apply IH|].
      apply Forall_app. split; [exact Hx|].
      constructor; [lia | constructor].
  - apply Forall_app. split.
    + eapply Forall_impl; [exact Hbound|]. intros x Hx. simpl in Hx. lia.
    + constructor; [lia | constructor].
Qed.

(** The loop of [_generate_up_to], for any number of further rows. *)
Lemma span_generate_rows n : forall lo (w : World.t),
  span lo w ->
  let w' :=
    foldl (fun w r =>
             World._ensure_lane r None (Some (World.prev_open_for r w)) w)
          w (seqZ (World.max_generated_row w + 1) (Z.of_nat n)) in
  span lo w' /\
  World.max_generated_row w' = World.max_generated_row w + Z.of_nat n.
Proof.
  induction n as [|n IH]; intros lo w Hspan.
  - simpl. split; [exact Hspan | lia].
  - rewrite Nat2Z.inj_succ, seqZ_cons by lia. cbn [foldl].
    set (r := World.max_generated_row w + 1).
    destruct (span_ensure_next lo r None
                (Some (World.prev_open_for r w)) w Hspan eq_refl)
      as [Hspan1 Hmax1].
    set (w1 := World._ensure_lane r None _ w) in *.
    specialize (IH lo w1 Hspan1). cbv zeta in IH.
    replace (Z.succ r) with (World.max_generated_row w1 + 1) by lia.
    replace (Z.pred (Z.succ (Z.of_nat n))) with (Z.of_nat n) by lia.
    destruct IH as [IH1 IH2]. split; [exact IH1|]. lia.
Qed.

Lemma span_generate_up_to lo target (w : World.t) :
  span lo w ->
  span lo (World._generate_up_to target w) /\
  World.max_generated_row (World._generate_up_to target w)
  = Z.max (World.max_generated_row w) target.
Proof.
  intros Hspan. unfold World._generate_up_to, range.
  destruct (Z_le_dec (target + 1 - (World.max_generated_row w + 1)) 0)
    as [Hle|Hgt].
  - rewrite seqZ_nil by lia. simpl. split; [exact Hspan | lia].
  - pose proof (span_generate_rows
                  (Z.to_nat (target + 1 - (World.max_generated_row w + 1)))
                  lo w Hspan) as H.
    cbv zeta in H. rewrite Z2Nat.id in H by lia.
    destruct H as [H1 H2]. split; [exact H1 | lia].
Qed.

End WorldInvariant.

Section WorldUpdate.

(** Updating the lane of a row changes neither the set of rows nor the
    generation bookkeeping. *)
Lemma update_lane_at_frame dt diff (w w' : World.t) r :
  World.update_lane_at dt diff (Some w) r = Some w' ->
  dom (World.lanes w') = dom (World.lanes w) /\
  World.max_generated_row w' = World.max_generated_row w /\
  World.gen_log w' = World.gen_log w.
Proof.
  unfold World.update_lane_at.
  destruct (World.lanes w !! r) as [lane|] eqn:Hl.
  - unfold World.draw.
    destruct (Lane.update dt diff lane (World.store w)) as [[lane'|] st];
      [|discriminate].
    intros [= <-]. cbn. split; [|auto].
    rewrite dom_insert_L.
    assert (r ∈ dom (World.lanes w)) by (apply elem_of_dom; eauto).
    set_solver.
  - intros [= <-]. auto.
Qed.

Lemma update_lanes_frame dt diff rows : forall (w w' : World.t),
  foldl (World.update_lane_at dt diff) (Some w) rows = Some w' ->
  dom (World.lanes w') = dom (World.lanes w) /\
  World.max_generated_row w' = World.max_generated_row w /\
  World.gen_log w' = World.gen_log w.
Proof.
  induction rows as [|r rows IH]; intros w w' H.
  - injection H as <-. auto.
  - cbn [foldl] in H.
    destruct (World.update_lane_at dt diff (Some w) r) as [w1|] eqn:E.
    + destruct (update_lane_at_frame dt diff w w1 r E) as (Hd & Hm & Hg).
      destruct (IH w1 w' H) as (Hd' & Hm' & Hg').
      rewrite Hd', Hm', Hg'. auto.
    + exfalso. clear -H. induction rows as [|r' rows IH]; [discriminate|].
      apply IH. exact H.
Qed.

Lemma dom_prune before (w : World.t) r :
  r ∈ dom (World.lanes (World.prune before w)) <->
  r ∈ dom (World.lanes w) /\ before <= r.
Proof.
  unfold World.prune. cbn [World.lanes World.set_lanes].
  rewrite !elem_of_dom. unfold is_Some.
  split.
  - intros [l Hl]. apply map_lookup_filter_Some in Hl as [Hl Hk].
    simpl in Hk. split; [eauto | lia].
  - intros [[l Hl] Hk]. exists l. apply map_lookup_filter_Some.
    split; [exact Hl | simpl; lia].
Qed.

(** The loop of the constructor over the safe rows. *)
Lemma span_safe_rows n : forall (w : World.t) prev_open,
  span 0 w ->
  let w' :=
    (foldl (fun '(w, prev_open) r =>
              let w := World._ensure_lane r (Some LANE_GRASS)
                         (Some prev_open) w in
              (w, Lane.open_cols (World.lanes w !!! r)))
           (w, prev_open)
           (seqZ (World.max_generated_row w + 1) (Z.of_nat n))).1 in
  span 0 w' /\
  World.max_generated_row w' = World.max_generated_row w + Z.of_nat n.
Proof.
  induction n as [|n IH]; intros w prev_open Hspan.
  - simpl. split; [exact Hspan | lia].
  - rewrite Nat2Z.inj_succ, seqZ_cons by lia. cbn [foldl].
    set (r := World.max_generated_row w + 1).
    destruct (span_ensure_next 0 r (Some LANE_GRASS) (Some prev_open) w
                Hspan eq_refl) as [Hspan1 Hmax1].
    set (w1 := World._ensure_lane r _ _ w) in *.
    specialize (IH w1 (Lane.open_cols (World.lanes w1 !!! r)) Hspan1).
    cbv zeta in IH.
    replace (Z.succ r) with (World.max_generated_row w1 + 1) by lia.
    replace (Z.pred (Z.succ (Z.of_nat n))) with (Z.of_nat n) by lia.
    destruct IH as [IH1 IH2]. split; [exact IH1|]. lia.
Qed.

Lemma span_init g :
  span 0 (World.init g) /\
  World.max_generated_row (World.init g) = START_SAFE_ROWS + LANE_LOOKAHEAD.
Proof.
  unfold World.init.
  set (w0 := World.mk (mkStore g 0) ∅ (-1) []).
  assert (Hspan0 : span 0 w0).
  { unfold span, w0. cbn. split; [lia|]. split; [|split; constructor].
    intros r. rewrite dom_empty_L. split; [set_solver | lia]. }
  pose proof (span_safe_rows 6 w0 Lane.all_cols Hspan0) as Hsafe.
  cbv zeta in Hsafe.
  change (seqZ (World.max_generated_row w0 + 1) (Z.of_nat 6))
    with (range 0 START_SAFE_ROWS) in Hsafe.
  destruct (foldl _ (w0, Lane.all_cols) (range 0 START_SAFE_ROWS))
    as [w1 prev].
  cbn [fst] in Hsafe. destruct Hsafe as [Hspan1 Hmax1].
  assert (Hsame : World.set_max_generated_row w1 (START_SAFE_ROWS - 1) = w1).
  { destruct w1 as [st ln mx lg]. cbn in *.
    unfold World.set_max_generated_row. cbn. f_equal. subst mx.
    reflexivity. }
  rewrite Hsame.
  destruct (span_generate_up_to 0 (START_SAFE_ROWS + LANE_LOOKAHEAD) w1
              Hspan1) as [H1 H2].
  split; [exact H1|]. rewrite H2, Hmax1. reflexivity.
Qed.

End WorldUpdate.

(** C7 (as stated) fails: a world built from the all-zero stream and updated
    once with camera row 31 has highest generated row 86, but its row 0 is
    gone (pruned), so not every row from 0 up to the highest generated row
    is present. *)
Lemma pruned_row_counterexample :
  match World.update 0 31 1 (World.init zero_rng) with
  | Some w' =>
      reachable w' /\
      World.max_generated_row w' = 86 /\
      World.lanes w' !! 0 = None
  | None => False
  end /\
  ~ (forall w, reachable w ->
       forall r, 0 <= r <= World.max_generated_row w ->
                 is_Some (World.lanes w !! r)).
Proof.
  assert (Hm : (World.max_generated_row
                  <$> World.update 0 31 1 (World.init zero_rng)) = Some 86)
    by (vm_compute; reflexivity).
  assert (Hz : (World.update 0 31 1 (World.init zero_rng)
                  ≫= fun w' => World.lanes w' !! 0) = None)
    by (vm_compute; reflexivity).
  destruct (World.update 0 31 1 (World.init zero_rng)) as [w'|] eqn:Hup;
    [|discriminate].
  cbn [fmap option_fmap option_map mbind option_bind] in Hm, Hz.
  assert (Hm' : World.max_generated_row w' = 86) by congruence.
  assert (Hr : reachable w')
    by (eapply reach_update; [apply reach_init | exact Hup]).
  split; [auto|].
  intros H. specialize (H w' Hr 0). rewrite Hz, Hm' in H.
  destruct H as [x Hx]; [lia | discriminate].
Qed.

(** ** On-demand generation through [lane_at] *)

Section LaneAt.

(** Generation is idempotent: once the lane exists, [lane_at] returns it
    and leaves the world as it is. *)
Lemma lane_at_present row (w : World.t) lane :
  World.lanes w !! row = Some lane -> World.lane_at row w = (lane, w).
Proof.
  intros H. unfold World.lane_at.
  rewrite ensure_lane_present by (apply elem_of_dom; eauto).
  unfold lookup_total, map_lookup_total. rewrite H. reflexivity.
Qed.

Lemma lane_at_twice row (w : World.t) :
  World.lane_at row (World.lane_at row w).2 = World.lane_at row w.
Proof.
  unfold World.lane_at at 2 3. cbn [snd].
  destruct (decide (row ∈ dom (World.lanes w))) as [Hin|Hout].
  - rewrite ensure_lane_present by exact Hin.
    apply elem_of_dom in Hin as [lane Hl].
    rewrite (lane_at_present row w lane Hl).
    unfold lookup_total, map_lookup_total. rewrite Hl. reflexivity.
  - destruct (ensure_lane_absent row None None w Hout) as (lane & st & ->).
    rewrite (lane_at_present row _ lane) by apply lookup_insert_eq.
    cbn [World.lanes]. rewrite lookup_total_insert_eq. reflexivity.
Qed.

(** The generation path of the update loop does choose the corridor
    centre among the open columns of the previous row. *)
Lemma pick_corridor_center_in_prev (prev : gset Z) s :
  prev <> ∅ ->
  (Lane.pick_corridor_center (Some prev) s).1 ∈ prev.
Proof.
  intros Hne. unfold Lane.pick_corridor_center.
  pose proof (merge_sort_Permutation Z.le (elements prev)) as Hperm.
  destruct (merge_sort Z.le (elements prev)) as [|c cs] eqn:E.
  - apply Permutation_nil_l in Hperm.
    exfalso. apply Hne. apply leibniz_equiv, elements_empty_inv.
    rewrite <- Hperm. reflexivity.
  - apply elem_of_elements. rewrite <- Hperm.
    apply list_elem_of_In. apply choice_in.
Qed.

End LaneAt.

(** C8: the claim holds on the generation path of the update loop
    ([pick_corridor_center_in_prev]) and for idempotence ([lane_at_twice]),
    but [lane_at] passes no previous-row columns.  In the world built from
    [stray_rng] the player hops from row 1 to row 61 (the world is unchanged,
    every row being present) and requests a move to row 62, which is absent.
    The lane generated for the look-up is a ground lane whose corridor centre
    is column 3, a column that is blocked in row 61. *)
Theorem lane_at_ignores_previous_row :
  let w := World.init stray_rng in
  let p := (hop_forward 60 (Player.init, w)).1 in
  let w' := (Player.try_move 0 1 p w).2 in
  let s := World.store (World._choose_next_lane_type 62 w).2 in
  let '(l0, s0) := Lane.init_fields 62 LANE_GRASS s in
  let '((corridor_center, _, l), _) := Lane._init_grass None l0 s0 in
  (hop_forward 60 (Player.init, w)).2 = w /\
  Player.row p = 61 /\ Player.dead p = false /\
  World.lanes w !! 62 = None /\
  World.lanes w' !! 62 = Some l /\
  Lane.type l = LANE_GRASS /\
  corridor_center = 3 /\
  Lane.type (World.lanes w !!! 61) = LANE_GRASS /\
  Lane.is_blocked (World.lanes w !!! 61) corridor_center = true /\
  bool_decide (corridor_center ∈ World.prev_open_for 62 w) = false.
Proof.
  vm_compute. repeat split; reflexivity.
Qed.

(** ** Facts about the random source *)

Section RngFacts.

Lemma randbelow_range n s : 0 < n -> 0 <= (randbelow n s).1 < n.
Proof.
  intros Hn. unfold randbelow, bind, ret, next_raw. cbn [fst].
  apply Z.mod_pos_bound. exact Hn.
Qed.

Lemma randint_range a b s : a <= b -> a <= (randint a b s).1 <= b.
Proof.
  intros Hab. unfold randint, bind, ret.
  pose proof (randbelow_range (b + 1 - a) s ltac:(lia)) as H.
  destruct (randbelow (b + 1 - a) s) as [k s1]. cbn [fst] in *. lia.
Qed.

Lemma random_range s : (0 <= (random s).1 /\ (random s).1 < 1)%Q.
Proof.
  unfold random, bind, ret, next_raw. cbn [fst].
  set (r := Z.of_N _).
  pose proof (Z.mod_pos_bound r (2 ^ 53) ltac:(reflexivity)) as [Hlo Hhi].
  unfold Qle, Qlt. cbn [Qnum Qden]. split; lia.
Qed.

Lemma uniform_range a b s :
  (a <= b)%Q -> (a <= (uniform a b s).1 /\ (uniform a b s).1 <= b)%Q.
Proof.
  intros Hab. unfold uniform, bind, ret.
  pose proof (random_range s) as [Hlo Hhi].
  destruct (random s) as [u s1]. cbn [fst] in *. split; nra.
Qed.

Lemma swap_lookup {A} (i j k : nat) (l : list A) :
  (i < length l)%nat -> (j < length l)%nat ->
  swap i j l !! k =
  if decide (k = i) then l !! j
  else if decide (k = j) then l !! i else l !! k.
Proof.
  intros Hi Hj. unfold swap.
  destruct (lookup_lt_is_Some_2 l i Hi) as [a Ha].
  destruct (lookup_lt_is_Some_2 l j Hj) as [b Hb].
  rewrite Ha, Hb.
  destruct (decide (k = i)) as [->|Hki].
  - rewrite list_lookup_insert_eq by (rewrite length_insert; exact Hi).
    reflexivity.
  - rewrite list_lookup_insert_ne by congruence.
    destruct (decide (k = j)) as [->|Hkj].
    + rewrite list_lookup_insert_eq by exact Hj. reflexivity.
    + rewrite list_lookup_insert_ne by congruence. reflexivity.
Qed.

(** A swap neither loses nor invents an element. *)
Lemma elem_of_swap {A} (i j : nat) (l : list A) x :
  x ∈ swap i j l <-> x ∈ l.
Proof.
  destruct (le_lt_dec (length l) i) as [Hi|Hi].
  { unfold swap. rewrite (lookup_ge_None_2 l i) by exact Hi. reflexivity. }
  destruct (le_lt_dec (length l) j) as [Hj|Hj].
  { unfold swap. rewrite (lookup_ge_None_2 l j) by exact Hj.
    destruct (l !! i); reflexivity. }
  rewrite !list_elem_of_lookup. split; intros [k Hk].
  - rewrite swap_lookup in Hk by assumption.
    destruct (decide (k = i)); [eauto|].
    destruct (decide (k = j)); eauto.
  - destruct (decide (k = i)) as [->|Hki].
    + exists j. rewrite swap_lookup by assumption.
      destruct (decide (j = i)) as [->|]; [exact Hk|].
      rewrite decide_True by reflexivity. exact Hk.
    + destruct (decide (k = j)) as [->|Hkj].
      * exists i. rewrite swap_lookup by assumption.
        rewrite decide_True by reflexivity. exact Hk.
      * exists k. rewrite swap_lookup by assumption.
        rewrite decide_False by exact Hki.
        rewrite decide_False by exact Hkj. exact Hk.
Qed.

Lemma elem_of_shuffle_from {A} (i : nat) : forall (l : list A) s x,
  x ∈ (shuffle_from i l s).1 <-> x ∈ l.
Proof.
  induction i as [|i IH]; intros l s x; [reflexivity|].
  cbn [shuffle_from]. unfold bind.
  destruct (randbelow _ s) as [j s1].
  rewrite IH. apply elem_of_swap.
Qed.

(** [shuffle] returns the elements it was given. *)
Lemma elem_of_shuffle {A} (l : list A) s x :
  x ∈ (shuffle l s).1 <-> x ∈ l.
Proof. apply elem_of_shuffle_from. Qed.

Lemma foldl_add_elem (l : list Z) : forall (b : gset Z) x,
  x ∈ foldl (fun b c => {[c]} ∪ b) b l <-> x ∈ b \/ x ∈ l.
Proof.
  induction l as [|c l IH]; intros b x; cbn [foldl].
  - rewrite elem_of_nil. tauto.
  - rewrite IH, elem_of_union, elem_of_singleton, elem_of_cons. tauto.
Qed.

Lemma foldl_add_size (l : list Z) : forall (b : gset Z),
  (size (foldl (fun b c => {[c]} ∪ b) b l) <= size b + length l)%nat.
Proof.
  induction l as [|c l IH]; intros b; cbn [foldl length]; [lia|].
  etransitivity; [apply IH|].
  rewrite size_union_alt, size_singleton.
  assert (size (b ∖ {[c]}) <= size b)%nat
    by (apply subseteq_size; set_solver).
  lia.
Qed.

End RngFacts.

(** ** More on ground lanes *)

Section GrassMore.

Lemma elem_of_candidates_outside corridor c :
  c ∈ Lane.candidates_outside corridor <-> 0 <= c < GRID_W /\ c ∉ corridor.
Proof.
  unfold Lane.candidates_outside, range.
  rewrite list_elem_of_filter, elem_of_seqZ. unfold GRID_W. intuition lia.
Qed.

Lemma plant_trees_elem target candidates : forall blocked x,
  x ∈ Lane.plant_trees target candidates blocked ->
  x ∈ blocked \/ x ∈ candidates.
Proof.
  induction candidates as [|c rest IH]; intros blocked x Hx; cbn in Hx.
  - now left.
  - destruct (target <=? Z.of_nat (size blocked)); [now left|].
    destruct (GRID_W - (Z.of_nat (size blocked) + 1) <? 3); [now left|].
    apply IH in Hx as [Hx|Hx].
    + apply elem_of_union in Hx as [Hx|Hx]; [|now left].
      apply elem_of_singleton in Hx. subst. right. left.
    + right. now right.
Qed.

Lemma corridor_of_shape center width :
  width = 2 \/ width = 3 ->
  Lane.corridor_of center width =
  {[ Z.max 0 (Z.min (GRID_W - 1) (center - 1));
     Z.max 0 (Z.min (GRID_W - 1) center);
     Z.max 0 (Z.min (GRID_W - 1) (center + 1)) ]}.
Proof.
  intros [-> | ->]; unfold Lane.corridor_of, range;
    change (- (2 / 2)) with (-1); change (- (3 / 2)) with (-1);
    change (2 / 2 + 1 - -1) with 3; change (3 / 2 + 1 - -1) with 3;
    change (seqZ (-1) 3) with [-1; 0; 1];
    cbn [fmap list_fmap list_to_set]; rewrite Z.add_0_r;
    change (center + -1) with (center - 1);
    set_solver.
Qed.

End GrassMore.

Lemma safe_zone_centre_free :
  forall (row : Z) (prev_open_cols : option (gset Z)) (s : Store),
    row < START_SAFE_ROWS ->
    forall c,
      c ∈ Lane.blocked_cols (Lane.init row LANE_GRASS prev_open_cols s).1 ->
      0 <= c < GRID_W /\ c <> 4 /\ c <> 5 /\ c <> 6.
Proof.
  intros row prev s Hrow c.
  rewrite Lane_init_grass_eq.
  pose proof (init_fields_shape row LANE_GRASS s) as Hshape.
  destruct (Lane.init_fields row LANE_GRASS s) as [l0 s0].
  cbn [fst] in Hshape. destruct Hshape as (Hr & Hty & Hb & _).
  unfold Lane._init_grass. rewrite Hr.
  destruct (Z.ltb_spec row START_SAFE_ROWS); [|lia].
  unfold bind, ret.
  destruct (randint 0 2 s0) as [target s1].
  pose proof (fun x => elem_of_shuffle
                (Lane.candidates_outside Lane.safe_corridor) s1 x) as Hsh.
  destruct (shuffle (Lane.candidates_outside Lane.safe_corridor) s1)
    as [cands s2].
  cbn [fst snd] in *. lane_simpl. rewrite Hb.
  intros Hc. apply foldl_add_elem in Hc as [Hc|Hc]; [set_solver|].
  assert (Hcc : c ∈ cands)
    by (eapply (subseteq_take (Z.to_nat target)); exact Hc).
  apply Hsh, elem_of_candidates_outside in Hcc as [Hcol Hout].
  split; [exact Hcol|].
  unfold Lane.safe_corridor in Hout.
  change (GRID_W / 2) with 5 in Hout. change (GRID_W - 1) with 10 in Hout.
  repeat split; intros ->; apply Hout; set_solver.
Qed.

(** X1: a ground lane generated inside the safe zone keeps the three centre
    columns 4, 5 and 6 open, blocks at most two columns, all of them grid
    columns, and so has at least nine open columns; this holds for every
    stream of draws and whatever previous-row set is passed. *)
Theorem safe_zone_lane :
  forall (row : Z) (prev_open_cols : option (gset Z)) (s : Store),
    row < START_SAFE_ROWS ->
    let l := (Lane.init row LANE_GRASS prev_open_cols s).1 in
    (forall c, c ∈ Lane.blocked_cols l ->
               0 <= c < GRID_W /\ c <> 4 /\ c <> 5 /\ c <> 6) /\
    (size (Lane.blocked_cols l) <= 2)%nat /\
    (9 <= size (Lane.open_cols l))%nat.
Proof.
  intros row prev s Hrow l.
  split; [exact (safe_zone_centre_free row prev s Hrow)|].
  assert (Hsize : (size (Lane.blocked_cols l) <= 2)%nat).
  { subst l. rewrite Lane_init_grass_eq.
    pose proof (init_fields_shape row LANE_GRASS s) as Hshape.
    destruct (Lane.init_fields row LANE_GRASS s) as [l0 s0].
    cbn [fst] in Hshape. destruct Hshape as (Hr & _ & Hb & _).
    unfold Lane._init_grass. rewrite Hr.
    destruct (Z.ltb_spec row START_SAFE_ROWS); [|lia].
    unfold bind, ret.
    pose proof (randint_range 0 2 s0 ltac:(lia)) as Hrange.
    destruct (randint 0 2 s0) as [target s1].
    destruct (shuffle (Lane.candidates_outside Lane.safe_corridor) s1)
      as [cands s2].
    cbn [fst snd] in *. lane_simpl. rewrite Hb.
    etransitivity; [apply foldl_add_size|].
    rewrite size_empty, length_take. lia. }
  split; [exact Hsize|].
  assert (Hty : Lane.type l = LANE_GRASS).
  { subst l. rewrite Lane_init_grass_eq.
    pose proof (init_fields_shape row LANE_GRASS s) as Hshape.
    destruct (Lane.init_fields row LANE_GRASS s) as [l0 s0].
    cbn [fst] in Hshape. destruct Hshape as (Hr & Hty & _).
    unfold Lane._init_grass. rewrite Hr.
    destruct (Z.ltb_spec row START_SAFE_ROWS); [|lia].
    unfold bind, ret.
    destruct (randint 0 2 s0) as [target s1].
    destruct (shuffle (Lane.candidates_outside Lane.safe_corridor) s1)
      as [cands s2].
    cbn [fst snd]. lane_simpl. exact Hty. }
  unfold Lane.open_cols. rewrite Hty.
  rewrite size_difference_alt, size_all_cols.
  assert (size (Lane.all_cols ∩ Lane.blocked_cols l)
          <= size (Lane.blocked_cols l))%nat
    by (apply subseteq_size; set_solver).
  lia.
Qed.

Lemma safe_zone_lane_witness :
  let l := (Lane.init 3 LANE_GRASS None
              (mkStore (mkRng (fun i => N.of_nat (5 * i + 2)) 0) 0)).1 in
  (forall c, c ∈ Lane.blocked_cols l ->
             0 <= c < GRID_W /\ c <> 4 /\ c <> 5 /\ c <> 6) /\
  (size (Lane.blocked_cols l) <= 2)%nat /\
  (9 <= size (Lane.open_cols l))%nat.
Proof.
  apply (safe_zone_lane 3 None
           (mkStore (mkRng (fun i => N.of_nat (5 * i + 2)) 0) 0)).
  unfold START_SAFE_ROWS. lia.
Defined.

(** X2: a ground lane generated beyond the safe zone blocks at most five
    columns, all of them grid columns, and so has at least six open columns,
    for every stream of draws and any (or no) previous-row set. *)
Theorem grass_blocks_at_most_five :
  forall (row : Z) (prev_open_cols : option (gset Z)) (s : Store),
    START_SAFE_ROWS <= row ->
    let l := (Lane.init row LANE_GRASS prev_open_cols s).1 in
    (forall c, c ∈ Lane.blocked_cols l -> 0 <= c < GRID_W) /\
    (size (Lane.blocked_cols l) <= 5)%nat /\
    (6 <= size (Lane.open_cols l))%nat.
Proof.
  intros row prev s Hrow l. subst l.
  rewrite Lane_init_grass_eq.
  pose proof (init_fields_shape row LANE_GRASS s) as Hshape.
  destruct (Lane.init_fields row LANE_GRASS s) as [l0 s0].
  cbn [fst] in Hshape. destruct Hshape as (Hr & Hty & Hb & _).
  unfold Lane._init_grass. rewrite Hr.
  destruct (Z.ltb_spec row START_SAFE_ROWS); [lia|].
  unfold bind, ret.
  destruct (Lane.pick_corridor_center prev s0) as [cc sa].
  destruct (choice 2 [3] sa) as [cw sb].
  pose proof (randint_range 2 5 sb ltac:(lia)) as Hrange.
  destruct (randint 2 5 sb) as [target sc].
  pose proof (fun x => elem_of_shuffle
                (Lane.candidates_outside (Lane.corridor_of cc cw)) sc x)
    as Hsh.
  destruct (shuffle (Lane.candidates_outside (Lane.corridor_of cc cw)) sc)
    as [cands sd].
  cbn [fst snd] in *. lane_simpl. rewrite Hb.
  assert (Hsize : (size (Lane.plant_trees target cands ∅
                         ∖ Lane.corridor_of cc cw) <= 5)%nat).
  { etransitivity; [apply subseteq_size, subseteq_difference_l; reflexivity|].
    pose proof (plant_trees_target target cands ∅ ltac:(lia)) as Ht.
    rewrite size_empty in Ht. specialize (Ht ltac:(lia)). lia. }
  split; [|split; [exact Hsize|]].
  - intros c Hc. apply elem_of_difference in Hc as [Hc _].
    apply plant_trees_elem in Hc as [Hc|Hc]; [set_solver|].
    apply Hsh, elem_of_candidates_outside in Hc as [Hcol _]. exact Hcol.
  - unfold Lane.open_cols. lane_simpl. rewrite Hty.
    rewrite size_difference_alt, size_all_cols.
    match goal with
    | |- (6 <= 11 - size (_ ∩ ?b))%nat =>
        assert (size (Lane.all_cols ∩ b) <= size b)%nat
          by (apply subseteq_size; set_solver)
    end.
    lia.
Qed.

Lemma grass_blocks_at_most_five_witness :
  let l := (Lane.init 40 LANE_GRASS (Some {[0; 7]})
              (mkStore (mkRng (fun i => N.of_nat (11 * i + 4)) 0) 0)).1 in
  (forall c, c ∈ Lane.blocked_cols l -> 0 <= c < GRID_W) /\
  (size (Lane.blocked_cols l) <= 5)%nat /\
  (6 <= size (Lane.open_cols l))%nat.
Proof.
  apply (grass_blocks_at_most_five 40 (Some {[0; 7]})
           (mkStore (mkRng (fun i => N.of_nat (11 * i + 4)) 0) 0)).
  unfold START_SAFE_ROWS. lia.
Defined.

(** X3: beyond the safe zone the corridor is always the centre column and
    its two neighbours, clamped to the grid: the drawn corridor width (2 or
    3) makes no difference.  The centre is a column of the previous row's
    open set when that set is given and not empty, and a grid column
    otherwise. *)
Theorem corridor_is_centre_and_neighbours :
  forall (prev_open_cols : option (gset Z)) (l : Lane.t) (s : Store),
    START_SAFE_ROWS <= Lane.row l ->
    let '((corridor_center, corridor, _), _) :=
      Lane._init_grass prev_open_cols l s in
    corridor =
      {[ Z.max 0 (Z.min (GRID_W - 1) (corridor_center - 1));
         Z.max 0 (Z.min (GRID_W - 1) corridor_center);
         Z.max 0 (Z.min (GRID_W - 1) (corridor_center + 1)) ]} /\
    match prev_open_cols with
    | Some prev =>
        if decide (prev = ∅) then 0 <= corridor_center < GRID_W
        else corridor_center ∈ prev
    | None => 0 <= corridor_center < GRID_W
    end.
Proof.
  intros prev l s Hrow. unfold Lane._init_grass.
  destruct (Z.ltb_spec (Lane.row l) START_SAFE_ROWS); [lia|].
  unfold bind, ret.
  assert (Hcenter :
    match prev with
    | Some p => if decide (p = ∅)
                then 0 <= (Lane.pick_corridor_center prev s).1 < GRID_W
                else (Lane.pick_corridor_center prev s).1 ∈ p
    | None => 0 <= (Lane.pick_corridor_center prev s).1 < GRID_W
    end).
  { destruct prev as [p|].
    - destruct (decide (p = ∅)) as [->|Hne].
      + unfold Lane.pick_corridor_center. rewrite elements_empty.
        change (merge_sort Z.le []) with (@nil Z).
        apply randbelow_range. reflexivity.
      + now apply pick_corridor_center_in_prev.
    - apply randbelow_range. reflexivity. }
  destruct (Lane.pick_corridor_center prev s) as [cc sa].
  pose proof (choice_in 2 [3] sa) as Hw.
  destruct (choice 2 [3] sa) as [cw sb].
  destruct (randint 2 5 sb) as [target sc].
  destruct (shuffle _ sc) as [cands sd].
  cbn [fst] in *. split; [|exact Hcenter].
  apply corridor_of_shape.
  destruct Hw as [<-|[<-|[]]]; auto.
Qed.

Lemma corridor_is_centre_and_neighbours_witness :
  let '((corridor_center, corridor, _), _) :=
    Lane._init_grass (Some {[9; 10]})
      (Lane.init_fields 12 LANE_GRASS zero_store).1 zero_store in
  corridor =
    {[ Z.max 0 (Z.min (GRID_W - 1) (corridor_center - 1));
       Z.max 0 (Z.min (GRID_W - 1) corridor_center);
       Z.max 0 (Z.min (GRID_W - 1) (corridor_center + 1)) ]} /\
  (if decide (({[9; 10]} : gset Z) = ∅) then 0 <= corridor_center < GRID_W
   else corridor_center ∈ ({[9; 10]} : gset Z)).
Proof.
  apply (corridor_is_centre_and_neighbours (Some {[9; 10]})
           (Lane.init_fields 12 LANE_GRASS zero_store).1 zero_store).
  vm_compute. discriminate.
Defined.

(** ** Spawning and spacing *)

Section Spacing.

Lemma min_by_spec {A} (key : A -> Q) l : forall a,
  min_by key a l ∈ a :: l /\
  (key (min_by key a l) <= key a)%Q /\
  Forall (fun b => (key (min_by key a l) <= key b)%Q) l.
Proof.
  unfold min_by. induction l as [|b l IH]; intros a; cbn [fold_left].
  - split; [left|split; [apply Qle_refl|constructor]].
  - destruct (Qltb (key b) (key a)) eqn:Hlt.
    + destruct (IH b) as (Hin & Hle & Hall). apply Qltb_lt in Hlt.
      split; [right; exact Hin|]. split; [lra|].
      constructor; assumption.
    + destruct (IH a) as (Hin & Hle & Hall). apply Qltb_nlt in Hlt.
      split.
      { apply elem_of_cons in Hin as [->|Hin]; [left|right; right; exact Hin]. }
      split; [exact Hle|]. constructor; [lra|exact Hall].
Qed.

Lemma max_by_spec {A} (key : A -> Q) l : forall a,
  max_by key a l ∈ a :: l /\
  (key a <= key (max_by key a l))%Q /\
  Forall (fun b => (key b <= key (max_by key a l))%Q) l.
Proof.
  unfold max_by. induction l as [|b l IH]; intros a; cbn [fold_left].
  - split; [left|split; [apply Qle_refl|constructor]].
  - destruct (Qltb (key a) (key b)) eqn:Hlt.
    + destruct (IH b) as (Hin & Hle & Hall). apply Qltb_lt in Hlt.
      split; [right; exact Hin|]. split; [lra|].
      constructor; assumption.
    + destruct (IH a) as (Hin & Hle & Hall). apply Qltb_nlt in Hlt.
      split.
      { apply elem_of_cons in Hin as [->|Hin]; [left|right; right; exact Hin]. }
      split; [exact Hle|]. constructor; [lra|exact Hall].
Qed.

Lemma can_spawn_behind (l : Lane.t) x w :
  Lane._can_spawn_with_gap l x w = true ->
  Forall (behind_with_gap (Lane.direction l) x w) (Lane.obstacles l).
Proof.
  unfold Lane._can_spawn_with_gap, behind_with_gap.
  destruct (Lane.obstacles l) as [|ob obs]; [constructor|].
  destruct (Lane.direction l =? 1); cbv zeta; rewrite Qleb_le; intros H.
  - destruct (min_by_spec Obstacle.x obs ob) as (_ & Hle & Hall).
    constructor; [lra|].
    eapply Forall_impl; [exact Hall|]. cbv beta. intros b Hb. lra.
  - destruct (max_by_spec (fun o => Obstacle.x o + Obstacle.w o)%Q obs ob)
      as (_ & Hle & Hall).
    cbv beta in *. constructor; [lra|].
    eapply Forall_impl; [exact Hall|]. cbv beta. intros b Hb. lra.
Qed.

Lemma edge_spawn_before_entry (l : Lane.t) w s :
  let x := (Lane._edge_spawn_x l w s).1 in
  if Lane.direction l =? 1 then (x + w <= 0)%Q
  else (inject_Z SCREEN_W <= x)%Q.
Proof.
  unfold Lane._edge_spawn_x.
  destruct (Lane.direction l =? 1); unfold uniform, bind, ret;
    pose proof (random_range s) as [Hlo Hhi];
    destruct (random s) as [u s1]; cbn [fst] in *;
    change (inject_Z (TILE * 2)) with 96%Q;
    change (inject_Z SCREEN_W) with 528%Q;
    change (inject_Z (SCREEN_W + TILE * 2)) with 624%Q; lra.
Qed.

(** A list that is already in order, with the gaps, is sorted by [x]. *)
Lemma gap_sorted_by_x l :
  Forall (fun o => 0 <= Obstacle.w o)%Q l ->
  Sorted gap_ok l -> StronglySorted (key_le Obstacle.x) l.
Proof.
  intros Hw Hs. apply Sorted_StronglySorted.
  { intros a b c Hab Hbc. unfold key_le in *. lra. }
  induction Hs as [|a l Hs IH Hhd]; constructor.
  - apply IH. inversion Hw; assumption.
  - destruct Hhd as [|b l Hab]; constructor.
    unfold gap_ok, key_le in *. inversion Hw; subst.
    pose proof MIN_GAP_pos. lra.
Qed.

Lemma insert_by_head {A} (key : A -> Q) a l :
  Forall (fun b => (key a <= key b)%Q) l -> insert_by key a l = a :: l.
Proof.
  intros H. destruct l as [|b l]; [reflexivity|]. cbn [insert_by].
  inversion H; subst.
  rewrite (proj2 (Qleb_le _ _)) by assumption. reflexivity.
Qed.

Lemma sort_by_sorted_id {A} (key : A -> Q) l :
  StronglySorted (key_le key) l -> sort_by key l = l.
Proof.
  induction 1 as [|a l Hs IH Hall]; [reflexivity|].
  unfold sort_by in *. cbn [foldr]. rewrite IH.
  apply insert_by_head. exact Hall.
Qed.

Lemma push_apart_id rest : forall prev,
  Sorted gap_ok (prev :: rest) -> Lane.push_apart prev rest = rest.
Proof.
  induction rest as [|cur rest IH]; intros prev Hs; [reflexivity|].
  cbn [Lane.push_apart]. cbv zeta.
  apply Sorted_inv in Hs as [Hs Hhd]. apply HdRel_inv in Hhd.
  unfold gap_ok in Hhd.
  rewrite (proj2 (Qltb_nlt _ _)) by exact Hhd.
  rewrite IH by exact Hs. reflexivity.
Qed.

Lemma enforce_list_id obs :
  Forall (fun o => 0 <= Obstacle.w o)%Q obs ->
  Sorted gap_ok obs -> Lane.enforce_list obs = obs.
Proof.
  intros Hw Hs. rewrite enforce_list_eq.
  rewrite sort_by_sorted_id by (apply gap_sorted_by_x; assumption).
  destruct obs as [|prev rest]; [reflexivity|].
  rewrite push_apart_id by exact Hs. reflexivity.
Qed.

Lemma enforce_list_widths obs :
  Forall (fun o => 0 <= Obstacle.w o)%Q obs ->
  Forall (fun o => 0 <= Obstacle.w o)%Q (Lane.enforce_list obs).
Proof.
  intros Hw.
  destruct (enforce_list_spec obs) as (srt & Hperm & _ & Hpush & _).
  assert (Hsrt : Forall (fun o => 0 <= Obstacle.w o)%Q srt).
  { rewrite Forall_forall in *. intros o Ho. apply Hw.
    rewrite <- Hperm. exact Ho. }
  clear Hperm Hw. induction Hpush as [|a a' l l' Hp Hpush IH];
    constructor.
  - destruct Hp as (_ & Hwd & _). rewrite Hwd. inversion Hsrt; assumption.
  - apply IH. inversion Hsrt; assumption.
Qed.

End Spacing.

(** X4: the spacing test accepts a new obstacle exactly when it would lie
    entirely behind every obstacle of the lane with a gap of at least
    [MIN_GAP]: to the left of all of them in a lane moving right, to the
    right of all of them in a lane moving left.  Testing only the nearest
    obstacle, as the code does, loses nothing. *)
Theorem can_spawn_with_gap_iff :
  forall (l : Lane.t) (x w : Q),
    Lane._can_spawn_with_gap l x w = true <->
    forall ob, ob ∈ Lane.obstacles l ->
      if Lane.direction l =? 1
      then (x + w + MIN_GAP <= Obstacle.x ob)%Q
      else (Obstacle.x ob + Obstacle.w ob + MIN_GAP <= x)%Q.
Proof.
  intros l x w. unfold Lane._can_spawn_with_gap.
  destruct (Lane.obstacles l) as [|ob obs].
  { split; [intros _ o Ho; inversion Ho|reflexivity]. }
  destruct (Lane.direction l =? 1); cbv zeta; rewrite Qleb_le.
  - destruct (min_by_spec Obstacle.x obs ob) as (Hin & Hle & Hall).
    rewrite Forall_forall in Hall. split.
    + intros H o Ho. apply elem_of_cons in Ho as [->|Ho]; [lra|].
      specialize (Hall _ Ho). cbv beta in Hall. lra.
    + intros H. specialize (H _ Hin). lra.
  - destruct (max_by_spec (fun o => Obstacle.x o + Obstacle.w o)%Q obs ob)
      as (Hin & Hle & Hall).
    rewrite Forall_forall in Hall. cbv beta in *. split.
    + intros H o Ho. apply elem_of_cons in Ho as [->|Ho]; [lra|].
      specialize (Hall _ Ho). cbv beta in Hall. lra.
    + intros H. specialize (H _ Hin). cbv beta in H. lra.
Qed.

(** X5: an obstacle is always spawned outside the screen, at most two
    tiles away from the edge it will enter through: in a lane moving right
    its right edge lies between [-2 TILE] and [0], in a lane moving left its
    left edge lies between [SCREEN_W] and [SCREEN_W + 2 TILE], both ends
    included. *)
Theorem edge_spawn_off_screen :
  forall (l : Lane.t) (w : Q) (s : Store),
    let x := (Lane._edge_spawn_x l w s).1 in
    if Lane.direction l =? 1
    then (- inject_Z (TILE * 2) <= x + w /\ x + w <= 0)%Q
    else (inject_Z SCREEN_W <= x /\ x <= inject_Z (SCREEN_W + TILE * 2))%Q.
Proof.
  intros l w s. unfold Lane._edge_spawn_x.
  change (inject_Z (TILE * 2)) with 96%Q.
  change (inject_Z SCREEN_W) with 528%Q.
  change (inject_Z (SCREEN_W + TILE * 2)) with 624%Q.
  destruct (Lane.direction l =? 1); unfold bind, ret;
    pose proof (uniform_range 0 96 s ltac:(discriminate)) as [Hlo Hhi];
    destruct (uniform 0 96 s) as [u s1]; cbn [fst] in *; split; lra.
Qed.

(** X6: the no-overlap pass leaves a list alone that is already in order
    from left to right with a gap of [MIN_GAP] between neighbours, and
    running the pass a second time changes nothing. *)
Theorem enforce_no_overlap_idempotent :
  forall obs : list Obstacle.t,
    Forall (fun o => 0 <= Obstacle.w o)%Q obs ->
    (Sorted gap_ok obs -> Lane.enforce_list obs = obs) /\
    Lane.enforce_list (Lane.enforce_list obs) = Lane.enforce_list obs.
Proof.
  intros obs Hw. split; [apply enforce_list_id; exact Hw|].
  apply enforce_list_id; [apply enforce_list_widths; exact Hw|].
  destruct (enforce_list_spec obs) as (_ & _ & _ & _ & Hs). exact Hs.
Qed.

Lemma enforce_no_overlap_idempotent_witness :
  (Sorted gap_ok (Lane.obstacles road_demo) ->
   Lane.enforce_list (Lane.obstacles road_demo) = Lane.obstacles road_demo) /\
  Lane.enforce_list (Lane.enforce_list (Lane.obstacles road_demo))
  = Lane.enforce_list (Lane.obstacles road_demo).
Proof.
  apply (enforce_no_overlap_idempotent (Lane.obstacles road_demo)).
  repeat constructor; discriminate.
Defined.

(** ** More on lanes: construction and update *)

Section LaneMore.

Lemma spawn_with_width_cases w (l : Lane.t) s :
  exists x s1,
    Lane._edge_spawn_x l w s = (x, s1) /\
    Lane.spawn_with_width w l s =
    if Lane._can_spawn_with_gap l x w
    then (Lane.set_obstacles l
            (Lane.obstacles l
             ++ [Obstacle.mk (next_oid s1) x w (Lane.base_speed l)
                             (Lane.direction l)]),
          mkStore (rng s1) (S (next_oid s1)))
    else (l, s1).
Proof.
  unfold Lane.spawn_with_width, bind.
  destruct (Lane._edge_spawn_x l w s) as [x s1]. exists x, s1.
  split; [reflexivity|].
  destruct (Lane._can_spawn_with_gap l x w); reflexivity.
Qed.

(** What one call of [spawn_obstacle] does to a lane: nothing, or it appends
    one obstacle that is off-screen at the entry side and behind all the
    others. *)
Lemma spawn_obstacle_cases (l : Lane.t) s :
  let l' := (Lane.spawn_obstacle l s).1 in
  let s' := (Lane.spawn_obstacle l s).2 in
  (l' = l /\ next_oid s' = next_oid s /\
   (Lane.obstacles l = [] -> Lane.type l = LANE_GRASS \/ Lane.type l = LANE_RAIL))
  \/
  exists ob,
    l' = Lane.set_obstacles l (Lane.obstacles l ++ [ob]) /\
    (Lane.type l = LANE_ROAD \/ Lane.type l = LANE_RIVER) /\
    Obstacle.oid ob = next_oid s /\ next_oid s' = S (next_oid s) /\
    Obstacle.base_speed ob = Lane.base_speed l /\
    Obstacle.dir ob = Lane.direction l /\
    (0 < Obstacle.w ob)%Q /\
    before_entry (Lane.direction l) ob /\
    Forall (behind_with_gap (Lane.direction l) (Obstacle.x ob) (Obstacle.w ob))
           (Lane.obstacles l).
Proof.
  assert (Hw : forall w s0, (0 < w)%Q -> next_oid s0 = next_oid s ->
    let l' := (Lane.spawn_with_width w l s0).1 in
    let s' := (Lane.spawn_with_width w l s0).2 in
    (l' = l /\ next_oid s' = next_oid s /\ (Lane.obstacles l = [] -> False))
    \/
    exists ob,
      l' = Lane.set_obstacles l (Lane.obstacles l ++ [ob]) /\
      Obstacle.oid ob = next_oid s /\ next_oid s' = S (next_oid s) /\
      Obstacle.base_speed ob = Lane.base_speed l /\
      Obstacle.dir ob = Lane.direction l /\
      (0 < Obstacle.w ob)%Q /\
      before_entry (Lane.direction l) ob /\
      Forall (behind_with_gap (Lane.direction l) (Obstacle.x ob)
                              (Obstacle.w ob))
             (Lane.obstacles l)).
  { intros w s0 Hpos Hs0.
    destruct (spawn_with_width_cases w l s0) as (x & s1 & Hx & ->).
    pose proof (neutral_edge_spawn_x l w s0) as Hn. rewrite Hx in Hn.
    cbn [snd] in Hn.
    pose proof (edge_spawn_before_entry l w s0) as Hr. rewrite Hx in Hr.
    cbn [fst] in Hr.
    destruct (Lane._can_spawn_with_gap l x w) eqn:Hc; cbn [fst snd].
    - right. eexists. split; [reflexivity|].
      cbn [Obstacle.oid Obstacle.base_speed Obstacle.dir Obstacle.w
           Obstacle.x next_oid].
      repeat (split; [congruence || assumption|]).
      apply can_spawn_behind. exact Hc.
    - left. split; [reflexivity|]. split; [congruence|].
      intros He. unfold Lane._can_spawn_with_gap in Hc.
      rewrite He in Hc. discriminate. }
  unfold Lane.spawn_obstacle.
  destruct (Lane.type l) eqn:Hty.
  - left. cbn. auto.
  - destruct (Hw (inject_Z (1 * TILE)) s ltac:(reflexivity) eq_refl)
      as [(E1 & E2 & E3)|(ob & H)].
    + left. split; [exact E1|]. split; [exact E2|]. intros He.
      destruct (E3 He).
    + right. exists ob. intuition.
  - unfold bind.
    pose proof (choice_in 2 [2; 3] s) as Hin.
    pose proof (neutral_choice 2 [2; 3] s) as Hn.
    destruct (choice 2 [2; 3] s) as [wt s0]. cbn [fst snd] in *.
    assert (Hpos : (0 < inject_Z (wt * TILE))%Q).
    { destruct Hin as [<-|[<-|[<-|[]]]]; reflexivity. }
    destruct (Hw (inject_Z (wt * TILE)) s0 Hpos Hn)
      as [(E1 & E2 & E3)|(ob & H)].
    + left. split; [exact E1|]. split; [exact E2|]. intros He.
      destruct (E3 He).
    + right. exists ob. intuition.
  - left. cbn. auto.
Qed.

Lemma same_ground_refl l : same_ground l l.
Proof. repeat split. Qed.

Lemma same_train_refl l : same_train l l.
Proof. repeat split. Qed.

Lemma same_traffic_refl l : same_traffic l l.
Proof. repeat split. Qed.

(** The spawn phase of [update], by lane type. *)
Lemma spawn_phase_cases dt diff (l : Lane.t) s :
  match Lane.type l with
  | LANE_ROAD | LANE_RIVER =>
      if Qeq_bool diff 0 then Lane.spawn_phase dt diff l s = (None, s)
      else
        exists l3 s',
          Lane.spawn_phase dt diff l s
          = (Some (Lane._enforce_no_overlap l3), s') /\
          same_ground l l3 /\ same_train l l3 /\
          (Lane.obstacles l3 = Lane.obstacles l /\ next_oid s' = next_oid s
           \/
           exists ob,
             Lane.obstacles l3 = Lane.obstacles l ++ [ob] /\
             Obstacle.oid ob = next_oid s /\ next_oid s' = S (next_oid s) /\
             Obstacle.base_speed ob = Lane.base_speed l /\
             Obstacle.dir ob = Lane.direction l /\
             (0 < Obstacle.w ob)%Q /\
             before_entry (Lane.direction l) ob /\
             Forall (behind_with_gap (Lane.direction l) (Obstacle.x ob)
                                     (Obstacle.w ob))
                    (Lane.obstacles l))
  | _ => Lane.spawn_phase dt diff l s = (Some l, s)
  end.
Proof.
  assert (Hcore : forall (u : Gen Q), oid_neutral u ->
    Qeq_bool diff 0 = false ->
    exists l3 s',
      (let actual_interval := (Lane.base_spawn_interval l / diff)%Q in
       let l0 := Lane.set_spawn_timer l (Lane.spawn_timer l + dt)%Q in
       bind (if Qleb actual_interval (Lane.spawn_timer l0) then
               let l0 := Lane.set_spawn_timer l0 0 in
               bind u (fun i => Lane.spawn_obstacle
                                  (Lane.set_base_spawn_interval l0 i))
             else ret l0)
            (fun l0 => ret (Some (Lane._enforce_no_overlap l0)))) s
      = (Some (Lane._enforce_no_overlap l3), s') /\
      same_ground l l3 /\ same_train l l3 /\
      (Lane.obstacles l3 = Lane.obstacles l /\ next_oid s' = next_oid s
       \/
       exists ob,
         Lane.obstacles l3 = Lane.obstacles l ++ [ob] /\
         Obstacle.oid ob = next_oid s /\ next_oid s' = S (next_oid s) /\
         Obstacle.base_speed ob = Lane.base_speed l /\
         Obstacle.dir ob = Lane.direction l /\
         (0 < Obstacle.w ob)%Q /\
         before_entry (Lane.direction l) ob /\
         Forall (behind_with_gap (Lane.direction l) (Obstacle.x ob)
                                 (Obstacle.w ob))
                (Lane.obstacles l))).
  { intros u Hu Hd. cbv zeta. unfold bind at 1.
    destruct (Qleb _ _).
    - unfold bind. pose proof (Hu s) as Hn.
      destruct (u s) as [i s0]. cbn [snd] in Hn.
      set (lx := Lane.set_base_spawn_interval _ i).
      pose proof (spawn_obstacle_cases lx s0) as Hc.
      destruct (Lane.spawn_obstacle lx s0) as [l3 s3].
      cbn [fst snd] in Hc. exists l3, s3. split; [reflexivity|].
      destruct Hc as [(-> & Hs3 & _)|(ob & -> & _ & H)].
      + split; [repeat split|]. split; [repeat split|].
        left. split; [reflexivity|congruence].
      + split; [repeat split|]. split; [repeat split|].
        right. exists ob. split; [reflexivity|].
        rewrite Hn in H. exact H.
    - eexists _, s. split; [reflexivity|].
      split; [repeat split|]. split; [repeat split|].
      left. split; reflexivity. }
  unfold Lane.spawn_phase.
  destruct (Lane.type l) eqn:Hty; try reflexivity.
  - destruct (Qeq_bool diff 0) eqn:Hd; [reflexivity|].
    destruct (Hcore (uniform CAR_SPAWN_MIN CAR_SPAWN_MAX)
                (neutral_uniform _ _) eq_refl) as (l3 & s' & E & H).
    exists l3, s'. split; [|exact H]. rewrite <- E.
    cbv zeta. lane_simpl. rewrite Hty. reflexivity.
  - destruct (Qeq_bool diff 0) eqn:Hd; [reflexivity|].
    destruct (Hcore (uniform LOG_SPAWN_MIN LOG_SPAWN_MAX)
                (neutral_uniform _ _) eq_refl) as (l3 & s' & E & H).
    exists l3, s'. split; [|exact H]. rewrite <- E.
    cbv zeta. lane_simpl. rewrite Hty. reflexivity.
Qed.

Lemma neutral_shuffle_from {A} (i : nat) : forall (l : list A),
  oid_neutral (shuffle_from i l).
Proof.
  induction i as [|i IH]; intros l; cbn [shuffle_from].
  - apply neutral_ret.
  - apply neutral_bind; [apply neutral_randbelow|]. intros j. apply IH.
Qed.

Lemma neutral_shuffle {A} (l : list A) : oid_neutral (shuffle l).
Proof. apply neutral_shuffle_from. Qed.

Lemma neutral_pick_corridor_center prev :
  oid_neutral (Lane.pick_corridor_center prev).
Proof.
  unfold Lane.pick_corridor_center.
  destruct prev as [p|]; [|apply neutral_randbelow].
  destruct (merge_sort Z.le (elements p));
    [apply neutral_randbelow|apply neutral_choice].
Qed.

Lemma neutral_finish_train diff (l : Lane.t) :
  oid_neutral (Lane._finish_train diff l).
Proof.
  intros s. unfold Lane._finish_train, Lane._roll_next_train_interval.
  cbv zeta. unfold bind at 1. unfold bind at 1.
  pose proof (neutral_uniform TRAIN_INTERVAL_MIN TRAIN_INTERVAL_MAX s) as H1.
  destruct (uniform _ _ s) as [base s1]. cbn [snd] in H1. unfold ret at 1.
  destruct (Qeq_bool diff 0); [exact H1|].
  unfold bind, ret. pose proof (neutral_random s1) as H2.
  destruct (random s1) as [u s2]. cbn [snd] in *. congruence.
Qed.

(** The end of a run: the next countdown is a draw between 6 and 10 divided
    by the difficulty, and the direction is kept or reversed. *)
Lemma finish_train_cases diff (l : Lane.t) s :
  if Qeq_bool diff 0 then (Lane._finish_train diff l s).1 = None
  else
    exists l' base,
      (Lane._finish_train diff l s).1 = Some l' /\
      same_ground l l' /\ same_traffic l l' /\
      Lane.train_active l' = false /\
      Lane.train_x l' = Lane.train_x l /\
      Lane.train_warning l' = Lane.train_warning l /\
      (TRAIN_INTERVAL_MIN <= base /\ base <= TRAIN_INTERVAL_MAX)%Q /\
      Lane.train_timer l' = (base / diff)%Q /\
      (Lane.train_dir l' = Lane.train_dir l \/
       Lane.train_dir l' = Lane.train_dir l * -1).
Proof.
  unfold Lane._finish_train, Lane._roll_next_train_interval.
  cbv zeta.
  pose proof (uniform_range TRAIN_INTERVAL_MIN TRAIN_INTERVAL_MAX s
                ltac:(discriminate)) as Hb.
  destruct (Qeq_bool diff 0); unfold bind, ret;
    destruct (uniform _ _ s) as [base s1]; cbn [fst] in Hb;
    [reflexivity|].
  destruct (random s1) as [u s2]. cbn [fst].
  destruct (Qltb u (1 # 2)); eexists _, base; (split; [reflexivity|]);
    lane_simpl;
    (split; [repeat split|]); (split; [repeat split|]);
    repeat (split; [reflexivity || exact Hb|]); auto.
Qed.

Lemma train_phase_other dt diff (l : Lane.t) s :
  Lane.type l <> LANE_RAIL -> Lane.train_phase dt diff l s = (Some l, s).
Proof.
  intros H. unfold Lane.train_phase.
  destruct (Lane.type l); try reflexivity. congruence.
Qed.

(** The train logic on a lane whose train is running. *)
Lemma train_phase_active dt diff (l : Lane.t) s :
  Lane.type l = LANE_RAIL ->
  Lane.train_active l = true ->
  let x' := (Lane.train_x l
             + inject_Z (Lane.train_dir l) * (TRAIN_SPEED * diff) * dt)%Q in
  if train_gone (Lane.train_dir l) x' then
    if Qeq_bool diff 0 then (Lane.train_phase dt diff l s).1 = None
    else
      exists l' base,
        (Lane.train_phase dt diff l s).1 = Some l' /\
        same_ground l l' /\ same_traffic l l' /\
        Lane.train_active l' = false /\
        Lane.train_x l' = x' /\
        Lane.train_warning l' = warning_tick dt (Lane.train_warning l) /\
        (TRAIN_INTERVAL_MIN <= base /\ base <= TRAIN_INTERVAL_MAX)%Q /\
        Lane.train_timer l' = (base / diff)%Q /\
        (Lane.train_dir l' = Lane.train_dir l \/
         Lane.train_dir l' = Lane.train_dir l * -1)
  else
    exists l',
      Lane.train_phase dt diff l s = (Some l', s) /\
      same_ground l l' /\ same_traffic l l' /\
      Lane.train_active l' = true /\
      Lane.train_x l' = x' /\
      Lane.train_warning l' = warning_tick dt (Lane.train_warning l) /\
      Lane.train_timer l' = Lane.train_timer l /\
      Lane.train_dir l' = Lane.train_dir l.
Proof.
  intros Hty Hact x'. unfold Lane.train_phase. rewrite Hty, Hact.
  cbn [negb]. cbv zeta. lane_simpl. fold x'.
  set (l1 := Lane.set_train_x l x').
  assert (Hfin :
    if Qeq_bool diff 0
    then (bind (Lane._finish_train diff l1)
            (fun ol => ret match ol with
               | Some l0 =>
                   Some (if Qltb 0 (Lane.train_warning l0)
                         then if Qltb (Lane.train_warning l0 - dt) 0
                              then Lane.set_train_warning
                                     (Lane.set_train_warning l0
                                        (Lane.train_warning l0 - dt)) 0
                              else Lane.set_train_warning l0
                                     (Lane.train_warning l0 - dt)
                         else l0)
               | None => None
               end) s).1 = None
    else
      exists l' base,
        (bind (Lane._finish_train diff l1)
            (fun ol => ret match ol with
               | Some l0 =>
                   Some (if Qltb 0 (Lane.train_warning l0)
                         then if Qltb (Lane.train_warning l0 - dt) 0
                              then Lane.set_train_warning
                                     (Lane.set_train_warning l0
                                        (Lane.train_warning l0 - dt)) 0
                              else Lane.set_train_warning l0
                                     (Lane.train_warning l0 - dt)
                         else l0)
               | None => None
               end) s).1 = Some l' /\
        same_ground l l' /\ same_traffic l l' /\
        Lane.train_active l' = false /\
        Lane.train_x l' = x' /\
        Lane.train_warning l' = warning_tick dt (Lane.train_warning l) /\
        (TRAIN_INTERVAL_MIN <= base /\ base <= TRAIN_INTERVAL_MAX)%Q /\
        Lane.train_timer l' = (base / diff)%Q /\
        (Lane.train_dir l' = Lane.train_dir l \/
         Lane.train_dir l' = Lane.train_dir l * -1)).
  { pose proof (finish_train_cases diff l1 s) as Hf.
    destruct (Qeq_bool diff 0).
    - unfold bind. destruct (Lane._finish_train diff l1 s) as [ol s1].
      cbn [fst] in Hf. subst ol. reflexivity.
    - destruct Hf as (l2 & base & E & Hg & Ht & Ha & Hx & Hw & Hb & Htm & Hd).
      unfold bind. destruct (Lane._finish_train diff l1 s) as [ol s1].
      cbn [fst] in E. subst ol. unfold ret. cbn [fst].
      eexists _, base. split; [reflexivity|].
      unfold warning_tick. rewrite Hw. subst l1. lane_simpl.
      destruct Hg as (? & ? & ? & ? & ?). destruct Ht as (? & ? & ?).
      lane_simpl.
      destruct (Qltb 0 (Lane.train_warning l));
        [destruct (Qltb (Lane.train_warning l - dt) 0)|];
        unfold same_ground, same_traffic; lane_simpl;
        repeat split; try assumption; try reflexivity; apply Hb. }
  unfold train_gone.
  destruct (Lane.train_dir l =? 1) eqn:Hd1;
    [destruct (Qltb (inject_Z (SCREEN_W + TILE * 8)) x') eqn:Hq1|];
    cbn [andb orb]; try exact Hfin.
  - assert (Hd2 : (Lane.train_dir l =? -1) = false) by lia.
    rewrite Hd2. cbn [andb]. unfold bind, ret. eexists. split; [reflexivity|].
    unfold warning_tick. subst l1. lane_simpl.
    destruct (Qltb 0 (Lane.train_warning l));
      [destruct (Qltb (Lane.train_warning l - dt) 0)|];
      unfold same_ground, same_traffic; lane_simpl;
      repeat split; assumption || reflexivity.
  - destruct ((Lane.train_dir l =? -1)
              && Qltb x' (inject_Z (- TILE * 12))); [exact Hfin|].
    unfold bind, ret. eexists. split; [reflexivity|].
    unfold warning_tick. subst l1. lane_simpl.
    destruct (Qltb 0 (Lane.train_warning l));
      [destruct (Qltb (Lane.train_warning l - dt) 0)|];
      unfold same_ground, same_traffic; lane_simpl;
      repeat split; assumption || reflexivity.
Qed.

(** The train logic on a lane whose train is not running. *)
Lemma train_phase_idle dt diff (l : Lane.t) s :
  Lane.type l = LANE_RAIL ->
  Lane.train_active l = false ->
  exists l',
    Lane.train_phase dt diff l s = (Some l', s) /\
    same_ground l l' /\ same_traffic l l' /\
    Lane.train_dir l' = Lane.train_dir l /\
    Lane.train_timer l' = (Lane.train_timer l - dt)%Q /\
    Lane.train_active l' = Qleb (Lane.train_timer l - dt) 0 /\
    Lane.train_x l' =
      (if Qleb (Lane.train_timer l - dt) 0
       then if Lane.train_dir l =? 1 then inject_Z (- TILE * 12)
            else inject_Z (SCREEN_W + TILE * 12)
       else Lane.train_x l) /\
    Lane.train_warning l' =
      (if Qleb (Lane.train_timer l - dt) 0 then 0%Q
       else warning_tick dt
              (if Lane.arms_warning dt l then TRAIN_WARNING_TIME
               else Lane.train_warning l)).
Proof.
  intros Hty Hact.
  rewrite (arms_warning_idle dt l Hact).
  unfold Lane.train_phase, bind, ret, warning_tick. rewrite Hty, Hact.
  lane_simpl.
  destruct (Qleb (Lane.train_timer l - dt) TRAIN_WARNING_TIME
            && Qleb (Lane.train_warning l) 0) eqn:Harm; lane_simpl;
    destruct (Qleb (Lane.train_timer l - dt) 0) eqn:Hz; lane_simpl.
  - change (Qltb 0 0) with false. lane_simpl.
    eexists. split; [reflexivity|].
    unfold same_ground, same_traffic. lane_simpl. repeat split; auto.
  - change (Qltb 0 TRAIN_WARNING_TIME) with true. lane_simpl.
    destruct (Qltb (TRAIN_WARNING_TIME - dt) 0); lane_simpl;
      (eexists; split; [reflexivity|]);
      unfold same_ground, same_traffic; lane_simpl; repeat split; auto.
  - change (Qltb 0 0) with false. lane_simpl.
    eexists. split; [reflexivity|].
    unfold same_ground, same_traffic. lane_simpl. repeat split; auto.
  - destruct (Qltb 0 (Lane.train_warning l)); lane_simpl;
      [destruct (Qltb (Lane.train_warning l - dt) 0); lane_simpl|];
      (eexists; split; [reflexivity|]);
      unfold same_ground, same_traffic; lane_simpl; repeat split; auto.
Qed.

Lemma warning_tick_range dt w :
  (0 <= dt)%Q -> (0 <= w /\ w <= TRAIN_WARNING_TIME)%Q ->
  (0 <= warning_tick dt w /\ warning_tick dt w <= TRAIN_WARNING_TIME)%Q.
Proof.
  intros Hdt [Hlo Hhi]. unfold warning_tick.
  destruct (Qltb 0 w) eqn:H0; [|split; assumption].
  destruct (Qltb (w - dt) 0) eqn:H1.
  - split; [apply Qle_refl|]. unfold TRAIN_WARNING_TIME. discriminate.
  - apply Qltb_nlt in H1. split; [exact H1|]. lra.
Qed.

(** [update] as the composition of its phases. *)
Lemma update_phases dt diff (l : Lane.t) s :
  Lane.update dt diff l s =
  let l1 := Lane.cull_obstacles (Lane.move_obstacles dt diff l) in
  match Lane.spawn_phase dt diff l1 s with
  | (Some l2, s2) => Lane.train_phase dt diff l2 s2
  | (None, s2) => (None, s2)
  end.
Proof.
  unfold Lane.update, bind. cbv zeta.
  destruct (Lane.spawn_phase dt diff _ s) as [[l2|] s2]; reflexivity.
Qed.

Lemma same_ground_trans l1 l2 l3 :
  same_ground l1 l2 -> same_ground l2 l3 -> same_ground l1 l3.
Proof.
  unfold same_ground. intros (?&?&?&?&?) (?&?&?&?&?).
  repeat split; congruence.
Qed.

Lemma move_cull_ground dt diff l :
  same_ground l (Lane.cull_obstacles (Lane.move_obstacles dt diff l)) /\
  same_train l (Lane.cull_obstacles (Lane.move_obstacles dt diff l)).
Proof. split; repeat split. Qed.

Lemma rail_or_not (l : Lane.t) :
  Lane.type l = LANE_RAIL \/ Lane.type l <> LANE_RAIL.
Proof. destruct (Lane.type l); auto; right; discriminate. Qed.

(** Whatever the lane, an update that returns leaves its ground alone and
    hands out identities only upwards. *)
Lemma update_ground dt diff (l l' : Lane.t) s s' :
  Lane.update dt diff l s = (Some l', s') ->
  same_ground l l' /\ (next_oid s <= next_oid s')%nat.
Proof.
  rewrite update_phases. cbv zeta.
  set (l1 := Lane.cull_obstacles (Lane.move_obstacles dt diff l)).
  assert (Hg1 : same_ground l l1) by (repeat split).
  pose proof (spawn_phase_cases dt diff l1 s) as Hsp.
  assert (Hrail : forall l2 s2,
             same_ground l l2 -> (next_oid s <= next_oid s2)%nat ->
             Lane.train_phase dt diff l2 s2 = (Some l', s') ->
             same_ground l l' /\ (next_oid s <= next_oid s')%nat).
  { intros l2 s2 Hg2 Hn Hph.
    destruct (rail_or_not l2) as [Hty|Hty].
    - destruct (Lane.train_active l2) eqn:Hact.
      + pose proof (train_phase_active dt diff l2 s2 Hty Hact) as Hc.
        cbv zeta in Hc.
        pose proof (neutral_finish_train diff) as Hnf.
        assert (Hs' : next_oid s' = next_oid s2).
        { clear Hc. unfold Lane.train_phase in Hph. rewrite Hty in Hph.
          unfold bind at 1 in Hph.
          match type of Hph with
          | (let '(_, _) := ?m s2 in _) = _ =>
              assert (Hm : next_oid (m s2).2 = next_oid s2);
              [|destruct (m s2) as [ol s3]; cbn [snd] in Hm;
                unfold ret in Hph; injection Hph as _ <-; exact Hm]
          end.
          rewrite Hact. cbn [negb]. cbv zeta.
          repeat match goal with
                 | |- context [if ?b then _ else _] => destruct b
                 end; try apply Hnf; reflexivity. }
        destruct (train_gone _ _).
        * destruct (Qeq_bool diff 0).
          { rewrite Hph in Hc. discriminate. }
          destruct Hc as (l3 & base & E & Hg3 & _).
          rewrite Hph in E. injection E as <-.
          split; [eapply same_ground_trans; eassumption|lia].
        * destruct Hc as (l3 & E & Hg3 & _).
          rewrite Hph in E. injection E as <- <-.
          split; [eapply same_ground_trans; eassumption|lia].
      + destruct (train_phase_idle dt diff l2 s2 Hty Hact)
          as (l3 & E & Hg3 & _).
        rewrite Hph in E. injection E as <- <-.
        split; [eapply same_ground_trans; eassumption|lia].
    - rewrite train_phase_other in Hph by exact Hty.
      injection Hph as <- <-. split; assumption. }
  destruct (Lane.type l1) eqn:Hty1.
  - rewrite Hsp. apply Hrail; [exact Hg1|lia].
  - destruct (Qeq_bool diff 0); [rewrite Hsp; discriminate|].
    destruct Hsp as (l3 & s3 & -> & Hg3 & _ & Hob).
    apply Hrail.
    + eapply same_ground_trans; [exact Hg1|].
      destruct Hg3 as (?&?&?&?&?). repeat split; assumption.
    + destruct Hob as [[_ E]|(ob & _ & _ & E & _)]; lia.
  - destruct (Qeq_bool diff 0); [rewrite Hsp; discriminate|].
    destruct Hsp as (l3 & s3 & -> & Hg3 & _ & Hob).
    apply Hrail.
    + eapply same_ground_trans; [exact Hg1|].
      destruct Hg3 as (?&?&?&?&?). repeat split; assumption.
    + destruct Hob as [[_ E]|(ob & _ & _ & E & _)]; lia.
  - rewrite Hsp. apply Hrail; [exact Hg1|lia].
Qed.

(** A lane without rails keeps the fields of its train. *)
Lemma update_train_other dt diff (l l' : Lane.t) s s' :
  Lane.type l <> LANE_RAIL ->
  Lane.update dt diff l s = (Some l', s') ->
  same_train l l'.
Proof.
  intros Hty. rewrite update_phases. cbv zeta.
  set (l1 := Lane.cull_obstacles (Lane.move_obstacles dt diff l)).
  assert (Hty1 : Lane.type l1 = Lane.type l) by reflexivity.
  pose proof (spawn_phase_cases dt diff l1 s) as Hsp.
  destruct (Lane.type l1) eqn:E1.
  - rewrite Hsp, train_phase_other by congruence.
    intros [= <- <-]. repeat split.
  - destruct (Qeq_bool diff 0); [rewrite Hsp; discriminate|].
    destruct Hsp as (l3 & s3 & -> & (_ & Ht3 & _) & Htr & _).
    rewrite train_phase_other by (lane_simpl; congruence).
    intros [= <- <-]. destruct Htr as (?&?&?&?&?).
    repeat split; assumption.
  - destruct (Qeq_bool diff 0); [rewrite Hsp; discriminate|].
    destruct Hsp as (l3 & s3 & -> & (_ & Ht3 & _) & Htr & _).
    rewrite train_phase_other by (lane_simpl; congruence).
    intros [= <- <-]. destruct Htr as (?&?&?&?&?).
    repeat split; assumption.
  - congruence.
Qed.

(** A lane with nothing on it that is neither a roadway nor a waterway, nor
    a railway, is a fixed point of [update]. *)
Lemma update_bare_grass dt diff (l : Lane.t) s :
  Lane.type l = LANE_GRASS -> Lane.obstacles l = [] ->
  Lane.update dt diff l s = (Some l, s).
Proof.
  intros Hty Hob. destruct l. cbn in Hty, Hob. subst. reflexivity.
Qed.

Lemma init_grass_no_obstacles prev (l : Lane.t) s :
  Lane.obstacles (Lane._init_grass prev l s).1.2 = Lane.obstacles l /\
  Lane.type (Lane._init_grass prev l s).1.2 = Lane.type l /\
  Lane.row (Lane._init_grass prev l s).1.2 = Lane.row l /\
  same_train l (Lane._init_grass prev l s).1.2 /\
  next_oid (Lane._init_grass prev l s).2 = next_oid s.
Proof.
  unfold Lane._init_grass.
  destruct (Lane.row l <? START_SAFE_ROWS); unfold bind, ret.
  - pose proof (neutral_bind (randbelow (2 + 1 - 0))
                  (fun k => ret (0 + k)) (neutral_randbelow _)
                  (fun a => neutral_ret _) s) as H1.
    change (bind (randbelow (2 + 1 - 0)) (fun k => ret (0 + k)))
      with (randint 0 2) in H1.
    destruct (randint 0 2 s) as [t s1].
    pose proof (neutral_shuffle
                  (Lane.candidates_outside Lane.safe_corridor) s1) as H2.
    destruct (shuffle _ s1) as [c s2]. cbn [fst snd] in *.
    repeat split. congruence.
  - pose proof (neutral_pick_corridor_center prev s) as H0.
    destruct (Lane.pick_corridor_center prev s) as [cc s0].
    pose proof (neutral_choice 2 [3] s0) as H1.
    destruct (choice 2 [3] s0) as [cw s1].
    pose proof (neutral_bind (randbelow (5 + 1 - 2))
                  (fun k => ret (2 + k)) (neutral_randbelow _)
                  (fun a => neutral_ret _) s1) as H2.
    change (bind (randbelow (5 + 1 - 2)) (fun k => ret (2 + k)))
      with (randint 2 5) in H2.
    destruct (randint 2 5 s1) as [t s2].
    pose proof (neutral_shuffle
                  (Lane.candidates_outside (Lane.corridor_of cc cw)) s2)
      as H3.
    destruct (shuffle _ s2) as [c s3]. cbn [fst snd] in *.
    repeat split. congruence.
Qed.

End LaneMore.

(** X7: an update that returns never touches the ground of a lane: its
    row, type, direction of travel, base speed and trees, hence its open
    columns, are those it had before, for every lane type and every frame
    time; and the identity allocator only moves forward. *)
Theorem lane_update_keeps_ground :
  forall (dt diff : Q) (l l' : Lane.t) (s s' : Store),
    Lane.update dt diff l s = (Some l', s') ->
    Lane.row l' = Lane.row l /\
    Lane.type l' = Lane.type l /\
    Lane.direction l' = Lane.direction l /\
    Lane.base_speed l' = Lane.base_speed l /\
    Lane.blocked_cols l' = Lane.blocked_cols l /\
    Lane.open_cols l' = Lane.open_cols l /\
    (next_oid s <= next_oid s')%nat.
Proof.
  intros dt diff l l' s s' Hup.
  destruct (update_ground dt diff l l' s s' Hup)
    as ((Hr & Hty & Hd & Hv & Hb) & Hn).
  repeat (split; [assumption|]). split; [|exact Hn].
  unfold Lane.open_cols. rewrite Hty, Hb. reflexivity.
Qed.

Lemma lane_update_keeps_ground_witness :
  match Lane.update (1 # 60) 1 road_demo road_store with
  | (Some l', s') =>
      Lane.row l' = Lane.row road_demo /\
      Lane.type l' = Lane.type road_demo /\
      Lane.direction l' = Lane.direction road_demo /\
      Lane.base_speed l' = Lane.base_speed road_demo /\
      Lane.blocked_cols l' = Lane.blocked_cols road_demo /\
      Lane.open_cols l' = Lane.open_cols road_demo /\
      (next_oid road_store <= next_oid s')%nat
  | (None, _) => False
  end.
Proof.
  destruct (Lane.update (1 # 60) 1 road_demo road_store) as [[l'|] s'] eqn:E.
  - exact (lane_update_keeps_ground (1 # 60) 1 road_demo l' road_store s' E).
  - vm_compute in E. discriminate E.
Defined.

Lemma update_total dt diff (l : Lane.t) s :
  Qeq_bool diff 0 = false ->
  exists l' s', Lane.update dt diff l s = (Some l', s').
Proof.
  intros Hd. rewrite update_phases. cbv zeta.
  set (l1 := Lane.cull_obstacles (Lane.move_obstacles dt diff l)).
  pose proof (spawn_phase_cases dt diff l1 s) as Hsp.
  destruct (Lane.type l1) eqn:Hty.
  - rewrite Hsp, train_phase_other by congruence. eauto.
  - rewrite Hd in Hsp. destruct Hsp as (l3 & s3 & -> & (_ & Ht3 & _) & _).
    rewrite train_phase_other by (lane_simpl; congruence). eauto.
  - rewrite Hd in Hsp. destruct Hsp as (l3 & s3 & -> & (_ & Ht3 & _) & _).
    rewrite train_phase_other by (lane_simpl; congruence). eauto.
  - rewrite Hsp.
    destruct (Lane.train_phase dt diff l1 s) as [o s'] eqn:E.
    assert (Ho : exists l', o = Some l'); [|destruct Ho as [l' ->]; eauto].
    change o with (o, s').1. rewrite <- E.
    destruct (Lane.train_active l1) eqn:Hact.
    + pose proof (train_phase_active dt diff l1 s Hty Hact) as Hc.
      cbv zeta in Hc. destruct (train_gone _ _).
      * rewrite Hd in Hc. destruct Hc as (l3 & base & -> & _). eauto.
      * destruct Hc as (l3 & -> & _). eauto.
    + destruct (train_phase_idle dt diff l1 s Hty Hact) as (l3 & -> & _).
      eauto.
Qed.

(** X8: [update] raises (a division by zero) exactly when the difficulty is
    zero and the lane is a roadway, a waterway, or a railway whose running
    train leaves the stage in this very update.  A ground lane never raises,
    and with a non-zero difficulty no lane does. *)
Theorem lane_update_raises_iff :
  forall (dt diff : Q) (l : Lane.t) (s : Store),
    (Lane.update dt diff l s).1 = None <->
    (diff == 0)%Q /\
    (Lane.type l = LANE_ROAD \/ Lane.type l = LANE_RIVER \/
     (Lane.type l = LANE_RAIL /\ Lane.train_active l = true /\
      train_gone (Lane.train_dir l)
        (Lane.train_x l
         + inject_Z (Lane.train_dir l) * (TRAIN_SPEED * diff) * dt)%Q
      = true)).
Proof.
  intros dt diff l s. rewrite <- Qeq_bool_iff.
  rewrite update_phases. cbv zeta.
  set (l1 := Lane.cull_obstacles (Lane.move_obstacles dt diff l)).
  change (Lane.type l) with (Lane.type l1).
  change (Lane.train_active l) with (Lane.train_active l1).
  change (Lane.train_dir l) with (Lane.train_dir l1).
  change (Lane.train_x l) with (Lane.train_x l1).
  pose proof (spawn_phase_cases dt diff l1 s) as Hsp.
  destruct (Lane.type l1) eqn:Hty.
  - rewrite Hsp, train_phase_other by congruence. cbn [fst].
    split; [discriminate|]. intros (_ & [H|[H|(H & _)]]); discriminate.
  - destruct (Qeq_bool diff 0).
    + rewrite Hsp. cbn [fst]. split; auto.
    + destruct Hsp as (l3 & s3 & -> & (_ & Ht3 & _) & _).
      rewrite train_phase_other by (lane_simpl; congruence). cbn [fst].
      split; [discriminate|]. intros (H & _). discriminate.
  - destruct (Qeq_bool diff 0).
    + rewrite Hsp. cbn [fst]. split; auto.
    + destruct Hsp as (l3 & s3 & -> & (_ & Ht3 & _) & _).
      rewrite train_phase_other by (lane_simpl; congruence). cbn [fst].
      split; [discriminate|]. intros (H & _). discriminate.
  - rewrite Hsp. destruct (Lane.train_active l1) eqn:Hact.
    + pose proof (train_phase_active dt diff l1 s Hty Hact) as Hc.
      cbv zeta in Hc. destruct (train_gone _ _).
      * destruct (Qeq_bool diff 0).
        { rewrite Hc. split; auto 10. }
        destruct Hc as (l3 & base & -> & _).
        split; [discriminate|]. intros (H & _). discriminate.
      * destruct Hc as (l3 & -> & _). cbn [fst].
        split; [discriminate|].
        intros (_ & [H|[H|(_ & _ & H)]]); discriminate.
    + destruct (train_phase_idle dt diff l1 s Hty Hact) as (l3 & -> & _).
      cbn [fst]. split; [discriminate|].
      intros (_ & [H|[H|(_ & H & _)]]); discriminate.
Qed.

(** X9: a ground lane, as its constructor returns it, is a fixed point of
    [update]: whatever the frame time and the difficulty (zero included),
    the update returns the lane unchanged and draws nothing from the
    generator. *)
Theorem ground_lane_never_changes :
  forall (row : Z) (prev_open_cols : option (gset Z)) (s : Store)
         (dt diff : Q) (s' : Store),
    let l := (Lane.init row LANE_GRASS prev_open_cols s).1 in
    Lane.update dt diff l s' = (Some l, s').
Proof.
  intros row prev s dt diff s' l. subst l.
  rewrite Lane_init_grass_eq.
  pose proof (init_fields_shape row LANE_GRASS s) as Hshape.
  destruct (Lane.init_fields row LANE_GRASS s) as [l0 s0].
  cbn [fst] in Hshape. destruct Hshape as (_ & Hty & _ & Hob & _).
  pose proof (init_grass_no_obstacles prev l0 s0) as (Ho & Ht & _).
  destruct (Lane._init_grass prev l0 s0) as [g s1]. cbn [fst snd] in *.
  apply update_bare_grass; congruence.
Qed.

(** X10: the warning countdown of a lane stays within
    [0, TRAIN_WARNING_TIME] under updates with a non-negative frame time,
    whatever the lane type and the state of the train. *)
Theorem train_warning_stays_in_range :
  forall (dt diff : Q) (l l' : Lane.t) (s s' : Store),
    (0 <= dt)%Q ->
    (0 <= Lane.train_warning l /\ Lane.train_warning l <= TRAIN_WARNING_TIME)%Q ->
    Lane.update dt diff l s = (Some l', s') ->
    (0 <= Lane.train_warning l' /\
     Lane.train_warning l' <= TRAIN_WARNING_TIME)%Q.
Proof.
  intros dt diff l l' s s' Hdt Hw Hup.
  destruct (rail_or_not l) as [Hty|Hty].
  - rewrite update_rail in Hup by exact Hty.
    set (l1 := Lane.cull_obstacles (Lane.move_obstacles dt diff l)) in *.
    change (Lane.train_warning l) with (Lane.train_warning l1) in Hw.
    assert (Hty1 : Lane.type l1 = LANE_RAIL) by exact Hty.
    destruct (Lane.train_active l1) eqn:Hact.
    + pose proof (train_phase_active dt diff l1 s Hty1 Hact) as Hc.
      cbv zeta in Hc. destruct (train_gone _ _).
      * destruct (Qeq_bool diff 0); [rewrite Hup in Hc; discriminate|].
        destruct Hc as (l3 & base & E & _ & _ & _ & _ & Hw3 & _).
        rewrite Hup in E. injection E as <-. rewrite Hw3.
        apply warning_tick_range; assumption.
      * destruct Hc as (l3 & E & _ & _ & _ & _ & Hw3 & _).
        rewrite Hup in E. injection E as <- <-. rewrite Hw3.
        apply warning_tick_range; assumption.
    + destruct (train_phase_idle dt diff l1 s Hty1 Hact)
        as (l3 & E & _ & _ & _ & _ & _ & _ & Hw3).
      rewrite Hup in E. injection E as <- <-. rewrite Hw3.
      destruct (Qleb _ 0); [unfold TRAIN_WARNING_TIME; split; discriminate|].
      apply warning_tick_range; [exact Hdt|].
      destruct (Lane.arms_warning dt l1); [|exact Hw].
      unfold TRAIN_WARNING_TIME; split; [discriminate|apply Qle_refl].
  - destruct (update_train_other dt diff l l' s s' Hty Hup) as (_ & Hw3 & _).
    rewrite Hw3. exact Hw.
Qed.

Lemma train_warning_stays_in_range_witness :
  match Lane.update (1 # 4) 1 rail_late zero_store with
  | (Some l', _) =>
      (0 <= Lane.train_warning l' /\
       Lane.train_warning l' <= TRAIN_WARNING_TIME)%Q
  | (None, _) => False
  end.
Proof.
  destruct (Lane.update (1 # 4) 1 rail_late zero_store) as [[l'|] s'] eqn:E.
  - apply (train_warning_stays_in_range (1 # 4) 1 rail_late l'
             zero_store s'); [discriminate| |exact E].
    split; vm_compute; discriminate.
  - vm_compute in E. discriminate E.
Defined.

(** X11: one update of a railway lane whose train is running, at a non-zero
    difficulty.  The train advances by [train_dir * TRAIN_SPEED * diff * dt].
    If it is then beyond its exit (more than eight tiles right of the screen
    when moving right, more than twelve tiles left of the origin when moving
    left), the run ends: the lane is idle again, the next countdown is a
    draw between 6 and 10, both included, divided by the difficulty, and the
    direction is kept or reversed.  Otherwise the train keeps running with the countdown and
    direction unchanged. *)
Theorem train_run_step :
  forall (dt diff : Q) (l : Lane.t) (s : Store),
    Lane.type l = LANE_RAIL ->
    Lane.train_active l = true ->
    ~ (diff == 0)%Q ->
    let x' := (Lane.train_x l
               + inject_Z (Lane.train_dir l) * (TRAIN_SPEED * diff) * dt)%Q in
    let gone :=
      (Lane.train_dir l = 1 /\ (inject_Z (SCREEN_W + TILE * 8) < x')%Q) \/
      (Lane.train_dir l = -1 /\ (x' < inject_Z (- TILE * 12))%Q) in
    exists l' s',
      Lane.update dt diff l s = (Some l', s') /\
      Lane.train_x l' = x' /\
      (gone ->
       Lane.train_active l' = false /\
       (exists base,
           (TRAIN_INTERVAL_MIN <= base /\ base <= TRAIN_INTERVAL_MAX)%Q /\
           Lane.train_timer l' = (base / diff)%Q) /\
       (Lane.train_dir l' = Lane.train_dir l \/
        Lane.train_dir l' = - Lane.train_dir l)) /\
      (~ gone ->
       s' = s /\
       Lane.train_active l' = true /\
       Lane.train_timer l' = Lane.train_timer l /\
       Lane.train_dir l' = Lane.train_dir l).
Proof.
  intros dt diff l s Hty Hact Hd x' gone.
  rewrite update_rail by exact Hty.
  set (l1 := Lane.cull_obstacles (Lane.move_obstacles dt diff l)).
  pose proof (train_phase_active dt diff l1 s Hty Hact) as Hc.
  cbv zeta in Hc.
  change (Lane.train_x l1) with (Lane.train_x l) in Hc.
  change (Lane.train_dir l1) with (Lane.train_dir l) in Hc.
  change (Lane.train_timer l1) with (Lane.train_timer l) in Hc.
  fold x' in Hc.
  assert (Hgone : train_gone (Lane.train_dir l) x' = true <-> gone).
  { unfold train_gone, gone.
    rewrite orb_true_iff, !andb_true_iff, !Z.eqb_eq, !Qltb_lt.
    reflexivity. }
  destruct (train_gone (Lane.train_dir l) x').
  - destruct (Qeq_bool diff 0) eqn:Hq.
    { apply Qeq_bool_iff in Hq. contradiction. }
    destruct Hc as (l3 & base & E & _ & _ & Ha & Hx & _ & Hb & Htm & Hdir).
    destruct (Lane.train_phase dt diff l1 s) as [ol s3]. cbn [fst] in E.
    subst ol. exists l3, s3. split; [reflexivity|]. split; [exact Hx|].
    split.
    + intros _. split; [exact Ha|]. split; [exists base; auto|].
      destruct Hdir as [->| ->]; [left; reflexivity|right; lia].
    + intros Hn. destruct Hn. apply Hgone. reflexivity.
  - destruct Hc as (l3 & E & _ & _ & Ha & Hx & _ & Htm & Hdir).
    exists l3, s. split; [exact E|]. split; [exact Hx|]. split.
    + intros Hg. apply Hgone in Hg. discriminate.
    + intros _. auto.
Qed.

Lemma train_run_step_witness :
  let l := Lane.spawn_train rail_demo in
  exists l' s',
    Lane.update (1 # 60) 1 l zero_store = (Some l', s') /\
    Lane.train_x l' =
      (Lane.train_x l
       + inject_Z (Lane.train_dir l) * (TRAIN_SPEED * 1) * (1 # 60))%Q.
Proof.
  destruct (train_run_step (1 # 60) 1 (Lane.spawn_train rail_demo)
              zero_store eq_refl eq_refl ltac:(discriminate))
    as (l' & s' & E & Hx & _).
  exists l', s'. split; [exact E | exact Hx].
Defined.

(** ** Separation of obstacles, lane by lane and in the world *)

Section Separation.

Lemma strongly_sorted_separated obs :
  StronglySorted gap_ok obs -> separated obs.
Proof.
  induction 1 as [|o obs Hs IH Hall]; intros a b Ha Hb Hne.
  - inversion Ha.
  - rewrite Forall_forall in Hall.
    apply elem_of_cons in Ha as [->|Ha]; apply elem_of_cons in Hb as [->|Hb].
    + congruence.
    + left. apply Hall. exact Hb.
    + right. apply Hall. exact Ha.
    + apply IH; assumption.
Qed.

Lemma separated_nil : separated [].
Proof. intros a b Ha. inversion Ha. Qed.

Lemma separated_app obs d ob :
  separated obs ->
  Forall (behind_with_gap d (Obstacle.x ob) (Obstacle.w ob)) obs ->
  separated (obs ++ [ob]).
Proof.
  intros Hsep Hall a b Ha Hb Hne. rewrite Forall_forall in Hall.
  unfold behind_with_gap in Hall.
  apply elem_of_app in Ha as [Ha|Ha]; apply elem_of_app in Hb as [Hb|Hb].
  - apply Hsep; assumption.
  - apply list_elem_of_singleton in Hb as ->. specialize (Hall a Ha).
    unfold apart, gap_ok. destruct (d =? 1); [right|left]; exact Hall.
  - apply list_elem_of_singleton in Ha as ->. specialize (Hall b Hb).
    unfold apart, gap_ok. destruct (d =? 1); [left|right]; exact Hall.
  - apply list_elem_of_singleton in Ha as ->.
    apply list_elem_of_singleton in Hb as ->. congruence.
Qed.

(** Obstacles that share speed and direction keep their distances when they
    move, and culling only removes some. *)
Lemma separated_move_cull dt diff (l : Lane.t) s :
  lane_wf l s -> separated (Lane.obstacles l) ->
  separated (Lane.obstacles
               (Lane.cull_obstacles (Lane.move_obstacles dt diff l))).
Proof.
  intros [Hall _] Hsep a' b' Ha Hb Hne. lane_simpl.
  apply list_elem_of_In, filter_In in Ha as [Ha _].
  apply list_elem_of_In, filter_In in Hb as [Hb _].
  apply list_elem_of_In, list_elem_of_fmap in Ha as (a & -> & Ha).
  apply list_elem_of_In, list_elem_of_fmap in Hb as (b & -> & Hb).
  rewrite Forall_forall in Hall.
  destruct (Hall a Ha) as (Hva & Hda & _).
  destruct (Hall b Hb) as (Hvb & Hdb & _).
  assert (Hab : apart a b) by (apply Hsep; assumption).
  unfold apart, gap_ok in *. rewrite !moved_x.
  cbn [Obstacle.update Obstacle.set_x Obstacle.w].
  rewrite Hva, Hda, Hvb, Hdb.
  destruct Hab as [H|H]; [left|right]; lra.
Qed.

Lemma lane_wf_mono (l : Lane.t) s s' :
  lane_wf l s -> (next_oid s <= next_oid s')%nat -> lane_wf l s'.
Proof.
  intros [Hall Hnd] Hle. split; [|exact Hnd].
  eapply Forall_impl; [exact Hall|].
  intros o (? & ? & ? & ?). repeat split; try assumption. lia.
Qed.

Lemma lane_wf_same (l l' : Lane.t) s :
  Lane.obstacles l' = Lane.obstacles l ->
  Lane.base_speed l' = Lane.base_speed l ->
  Lane.direction l' = Lane.direction l ->
  lane_wf l s -> lane_wf l' s.
Proof. unfold lane_wf. intros -> -> ->. auto. Qed.

(** An update keeps a lane well formed and its obstacles separated. *)
Lemma update_wf_sep dt diff (l l' : Lane.t) s s' :
  lane_wf l s -> separated (Lane.obstacles l) ->
  Lane.update dt diff l s = (Some l', s') ->
  lane_wf l' s' /\ separated (Lane.obstacles l').
Proof.
  intros Hwf Hsep Hup.
  pose proof (move_cull_wf dt diff l s Hwf) as Hwf1.
  pose proof (separated_move_cull dt diff l s Hwf Hsep) as Hsep1.
  destruct (update_ground dt diff l l' s s' Hup) as ((_ & _ & Hd & Hv & _) & Hn).
  assert (Hroad : Lane.type l = LANE_ROAD \/ Lane.type l = LANE_RIVER ->
                  lane_wf l' s' /\ separated (Lane.obstacles l')).
  { intros Hty.
    destruct (update_road_river dt diff l l' s s' Hty Hup)
      as (l3 & Hsp & Hobs & Hty' & Hbs' & Hdir').
    pose proof (lane_wf_spawned _ _ _ _ Hsp Hwf1) as [Hall3 Hnd3].
    destruct (enforce_list_spec (Lane.obstacles l3))
      as (srt & Hperm & Hsorted & Hpushed & Hgaps).
    rewrite <- Hobs in Hpushed, Hgaps.
    destruct Hsp as (Ht3 & Hb3 & Hd3 & Hle & Hnew).
    assert (Hb3' : Lane.base_speed l3 = Lane.base_speed l) by exact Hb3.
    assert (Hd3' : Lane.direction l3 = Lane.direction l) by exact Hd3.
    rewrite Hb3', Hd3' in Hall3.
    assert (Hsrt_ok : Forall (obstacle_ok (Lane.base_speed l)
                                (Lane.direction l) (next_oid s')) srt)
      by (rewrite Hperm; exact Hall3).
    assert (Hsrt_nd : NoDup (Obstacle.oid <$> srt))
      by (rewrite Hperm; exact Hnd3).
    pose proof (pushed_ok _ _ _ _ _ Hpushed Hsrt_ok) as Hout_ok.
    pose proof (ok_widths _ _ _ _ Hout_ok) as Hout_w.
    pose proof (sorted_gap_strongly _ Hout_w Hgaps) as Hstrong.
    split; [|apply strongly_sorted_separated; exact Hstrong].
    split; [rewrite Hv, Hd; exact Hout_ok|].
    rewrite (pushed_oids _ _ Hpushed). exact Hsrt_nd. }
  assert (Hother : forall s1,
            Lane.train_phase dt diff
              (Lane.cull_obstacles (Lane.move_obstacles dt diff l)) s
            = (Some l', s1) ->
            same_traffic
              (Lane.cull_obstacles (Lane.move_obstacles dt diff l)) l' ->
            lane_wf l' s' /\ separated (Lane.obstacles l')).
  { intros s1 _ (Ho & _). split.
    - apply (lane_wf_mono _ s); [|exact Hn].
      apply (lane_wf_same
               (Lane.cull_obstacles (Lane.move_obstacles dt diff l)));
        [exact Ho|exact Hv|exact Hd|exact Hwf1].
    - rewrite Ho. exact Hsep1. }
  destruct (Lane.type l) eqn:Hty; [|apply Hroad; auto|apply Hroad; auto|].
  - rewrite update_phases in Hup. cbv zeta in Hup.
    pose proof (spawn_phase_cases dt diff
                  (Lane.cull_obstacles (Lane.move_obstacles dt diff l)) s)
      as Hsp.
    change (Lane.type (Lane.cull_obstacles (Lane.move_obstacles dt diff l)))
      with (Lane.type l) in Hsp.
    rewrite Hty in Hsp. rewrite Hsp in Hup.
    pose proof Hup as Hup'.
    rewrite train_phase_other in Hup' by (lane_simpl; congruence).
    injection Hup' as <- <-.
    split; [exact Hwf1 | exact Hsep1].
  - rewrite update_rail in Hup by exact Hty.
    set (l1 := Lane.cull_obstacles (Lane.move_obstacles dt diff l)) in *.
    assert (Hty1 : Lane.type l1 = LANE_RAIL) by exact Hty.
    destruct (Lane.train_active l1) eqn:Hact.
    + pose proof (train_phase_active dt diff l1 s Hty1 Hact) as Hc.
      cbv zeta in Hc. destruct (train_gone _ _).
      * destruct (Qeq_bool diff 0); [rewrite Hup in Hc; discriminate|].
        destruct Hc as (l3 & base & E & _ & Htr & _).
        rewrite Hup in E. injection E as <-.
        exact (Hother _ Hup Htr).
      * destruct Hc as (l3 & E & _ & Htr & _).
        rewrite Hup in E. injection E as <- <-.
        exact (Hother _ Hup Htr).
    + destruct (train_phase_idle dt diff l1 s Hty1 Hact)
        as (l3 & E & _ & Htr & _).
      rewrite Hup in E. injection E as <- <-.
      exact (Hother _ Hup Htr).
Qed.

Lemma same_train_trans l1 l2 l3 :
  same_train l1 l2 -> same_train l2 l3 -> same_train l1 l3.
Proof.
  unfold same_train. intros (?&?&?&?&?) (?&?&?&?&?).
  repeat split; congruence.
Qed.

(** Seeding a lane: every obstacle it puts in is off-screen at the entry
    side and separated from the others. *)
Lemma seed_obstacles_spec n : forall (l : Lane.t) s,
  Forall (before_entry (Lane.direction l)) (Lane.obstacles l) ->
  separated (Lane.obstacles l) ->
  let l' := (Lane._seed_obstacles n l s).1 in
  same_ground l l' /\ same_train l l' /\
  Forall (before_entry (Lane.direction l)) (Lane.obstacles l') /\
  separated (Lane.obstacles l') /\
  (length (Lane.obstacles l) <= length (Lane.obstacles l')
   <= length (Lane.obstacles l) + n)%nat /\
  (Lane.type l = LANE_ROAD \/ Lane.type l = LANE_RIVER ->
   (0 < n)%nat -> (0 < length (Lane.obstacles l'))%nat) /\
  (next_oid s <= next_oid (Lane._seed_obstacles n l s).2)%nat.
Proof.
  induction n as [|n IH]; intros l s Hbe Hsep; cbn [Lane._seed_obstacles].
  - unfold ret. cbn [fst snd].
    split; [repeat split|]. split; [repeat split|].
    split; [exact Hbe|]. split; [exact Hsep|]. split; [lia|].
    split; [lia|lia].
  - unfold bind. pose proof (spawn_obstacle_cases l s) as Hc.
    destruct (Lane.spawn_obstacle l s) as [l1 s1]. cbn [fst snd] in Hc.
    destruct Hc as [(-> & Hn & Hempty)|(ob & -> & Hty & _ & Hn & _ & _ & _ & Hb & Hall)].
    + destruct (IH l s1 Hbe Hsep) as (Hg & Ht & Hbe' & Hsep' & Hlen & Hpos & Hn').
      repeat (split; [assumption|]).
      split; [lia|]. split; [|lia].
      intros Hty _.
      destruct (Lane.obstacles l) as [|o obs] eqn:Ho.
      * destruct (Hempty eq_refl) as [E|E]; destruct Hty; congruence.
      * cbn [length] in Hlen. lia.
    + set (l1 := Lane.set_obstacles l (Lane.obstacles l ++ [ob])) in *.
      assert (Hbe1 : Forall (before_entry (Lane.direction l1))
                            (Lane.obstacles l1)).
      { subst l1. lane_simpl. apply Forall_app. split; [exact Hbe|].
        constructor; [exact Hb|constructor]. }
      assert (Hsep1 : separated (Lane.obstacles l1)).
      { subst l1. lane_simpl. eapply separated_app; eassumption. }
      destruct (IH l1 s1 Hbe1 Hsep1)
        as (Hg & Ht & Hbe' & Hsep' & Hlen & Hpos & Hn').
      assert (Hlen1 : length (Lane.obstacles l1)
                      = S (length (Lane.obstacles l))).
      { subst l1. lane_simpl. rewrite length_app. cbn. lia. }
      split; [exact Hg|]. split; [exact Ht|].
      split; [exact Hbe'|]. split; [exact Hsep'|].
      split; [lia|]. split; [lia|lia].
Qed.

Lemma init_fields_more row ty s :
  let l0 := (Lane.init_fields row ty s).1 in
  (Lane.direction l0 = -1 \/ Lane.direction l0 = 1) /\
  (Lane.train_dir l0 = -1 \/ Lane.train_dir l0 = 1) /\
  next_oid (Lane.init_fields row ty s).2 = next_oid s.
Proof.
  unfold Lane.init_fields, bind, ret.
  pose proof (choice_in (-1) [1] s) as H1.
  pose proof (neutral_choice (-1) [1] s) as N1.
  destruct (choice (-1) [1] s) as [d s1].
  pose proof (neutral_uniform TRAIN_INTERVAL_MIN TRAIN_INTERVAL_MAX s1) as N2.
  destruct (uniform _ _ s1) as [t s2].
  pose proof (choice_in (-1) [1] s2) as H3.
  pose proof (neutral_choice (-1) [1] s2) as N3.
  destruct (choice (-1) [1] s2) as [d' s3].
  cbn [fst snd] in *. lane_simpl.
  split; [destruct H1 as [<-|[<-|[]]]; auto|].
  split; [destruct H3 as [<-|[<-|[]]]; auto|]. congruence.
Qed.

(** What the constructor returns, for every lane type. *)
Lemma Lane_init_traffic row ty prev s :
  let l := (Lane.init row ty prev s).1 in
  Lane.row l = row /\ Lane.type l = ty /\
  Lane.train_active l = false /\ Lane.train_warning l = 0%Q /\
  (Lane.direction l = -1 \/ Lane.direction l = 1) /\
  (Lane.train_dir l = -1 \/ Lane.train_dir l = 1) /\
  Forall (before_entry (Lane.direction l)) (Lane.obstacles l) /\
  separated (Lane.obstacles l) /\
  match ty with
  | LANE_ROAD | LANE_RIVER => (1 <= length (Lane.obstacles l) <= 2)%nat
  | _ => Lane.obstacles l = []
  end /\
  (next_oid s <= next_oid (Lane.init row ty prev s).2)%nat.
Proof.
  cbv zeta. remember (Lane.init row ty prev s) as r eqn:Er.
  unfold Lane.init in Er. unfold bind at 1 in Er.
  pose proof (init_fields_shape row ty s) as Hshape.
  pose proof (init_fields_more row ty s) as Hmore.
  destruct (Lane.init_fields row ty s) as [l0 s0].
  cbn [fst snd] in Hshape, Hmore.
  destruct Hshape as (Hr & Hty & Hbl & Hob & Hact & Hwarn).
  destruct Hmore as (Hdir & Htd & Hn0).
  assert (Hseed : forall (u1 u2 : Gen Q) c cs,
    oid_neutral u1 -> oid_neutral u2 ->
    (forall k, In k (c :: cs) -> k = 1 \/ k = 2) ->
    Lane.type l0 = LANE_ROAD \/ Lane.type l0 = LANE_RIVER ->
    let r := bind u1 (fun i => bind u2 (fun v => bind (choice c cs)
               (fun count => Lane._seed_obstacles (Z.to_nat count)
                  (Lane.set_base_speed
                     (Lane.set_base_spawn_interval l0 i) v)))) s0 in
    Lane.row r.1 = row /\ Lane.type r.1 = ty /\
    Lane.train_active r.1 = false /\ Lane.train_warning r.1 = 0%Q /\
    (Lane.direction r.1 = -1 \/ Lane.direction r.1 = 1) /\
    (Lane.train_dir r.1 = -1 \/ Lane.train_dir r.1 = 1) /\
    Forall (before_entry (Lane.direction r.1)) (Lane.obstacles r.1) /\
    separated (Lane.obstacles r.1) /\
    (1 <= length (Lane.obstacles r.1) <= 2)%nat /\
    (next_oid s <= next_oid r.2)%nat).
  { intros u1 u2 c cs N1 N2 Hcs Hty0. cbv zeta. unfold bind.
    specialize (N1 s0). destruct (u1 s0) as [i s1].
    specialize (N2 s1). destruct (u2 s1) as [v s2].
    pose proof (choice_in c cs s2) as Hin.
    pose proof (neutral_choice c cs s2) as N3.
    destruct (choice c cs s2) as [count s3]. cbn [fst snd] in *.
    apply Hcs in Hin.
    set (l1 := Lane.set_base_speed (Lane.set_base_spawn_interval l0 i) v).
    assert (Hbe1 : Forall (before_entry (Lane.direction l1))
                          (Lane.obstacles l1)).
    { subst l1. lane_simpl. rewrite Hob. constructor. }
    assert (Hsep1 : separated (Lane.obstacles l1)).
    { subst l1. lane_simpl. rewrite Hob. apply separated_nil. }
    destruct (seed_obstacles_spec (Z.to_nat count) l1 s3 Hbe1 Hsep1)
      as ((Hr' & Hty' & Hd' & _) & (_ & Hw' & Ha' & _ & Htd')
          & Hbe' & Hsep' & Hlen & Hpos & Hn').
    assert (Hl1 : length (Lane.obstacles l1) = 0%nat).
    { subst l1. lane_simpl. rewrite Hob. reflexivity. }
    subst l1. lane_simpl.
    rewrite Hr', Hty', Ha', Hw', Hd', Htd'.
    repeat (split; [assumption|]).
    split; [|lia].
    specialize (Hpos Hty0). destruct Hin as [-> | ->]; cbn in *; lia. }
  destruct ty; subst r.
  - pose proof (init_grass_no_obstacles prev l0 s0)
      as (Ho & Ht & Hr' & (_ & Hw' & Ha' & _ & Htd') & Hn').
    unfold bind, ret.
    assert (Hd' : Lane.direction (Lane._init_grass prev l0 s0).1.2
                  = Lane.direction l0).
    { unfold Lane._init_grass.
      destruct (Lane.row l0 <? START_SAFE_ROWS); unfold bind, ret;
        repeat match goal with
               | |- context [let '(_, _) := ?m ?st in _] =>
                   destruct (m st) as [? ?]
               end; reflexivity. }
    destruct (Lane._init_grass prev l0 s0) as [g s1]. cbn [fst snd] in *.
    rewrite Hr', Ht, Ha', Hw', Hd', Htd', Ho, Hob.
    repeat (split; [assumption || reflexivity|]).
    split; [constructor|]. split; [apply separated_nil|].
    split; [reflexivity|lia].
  - apply (Hseed (uniform CAR_SPAWN_MIN CAR_SPAWN_MAX)
                 (uniform CAR_SPEED_MIN CAR_SPEED_MAX) 1 [1; 2]);
      try apply neutral_uniform; [|left; exact Hty].
    intros k [<-|[<-|[<-|[]]]]; auto.
  - apply (Hseed (uniform LOG_SPAWN_MIN LOG_SPAWN_MAX)
                 (uniform LOG_SPEED_MIN LOG_SPEED_MAX) 1 [2]);
      try apply neutral_uniform; [|right; exact Hty].
    intros k [<-|[<-|[]]]; auto.
  - unfold bind, ret.
    pose proof (neutral_uniform TRAIN_INTERVAL_MIN TRAIN_INTERVAL_MAX s0) as N.
    destruct (uniform _ _ s0) as [tt s1]. cbn [fst snd] in *. lane_simpl.
    rewrite Hob.
    repeat (split; [assumption || reflexivity|]).
    split; [constructor|]. split; [apply separated_nil|].
    split; [reflexivity|lia].
Qed.

End Separation.

Section WorldWf.

(** [_ensure_lane] on an absent row stores what the constructor returns for
    that row, called on a store that has handed out the same identities. *)
Lemma ensure_lane_absent_init row forced prev (w : World.t) :
  row ∉ dom (World.lanes w) ->
  exists ty s0,
    next_oid s0 = next_oid (World.store w) /\
    (forall ty', forced = Some ty' -> ty = ty' /\ s0 = World.store w) /\
    World._ensure_lane row forced prev w =
    World.mk (Lane.init row ty prev s0).2
             (<[row := (Lane.init row ty prev s0).1]> (World.lanes w))
             (Z.max (World.max_generated_row w) row)
             (World.gen_log w ++ [row]).
Proof.
  intros H. unfold World._ensure_lane. rewrite bool_decide_eq_false_2; auto.
  destruct forced as [ty|].
  - exists ty, (World.store w). split; [reflexivity|].
    split; [intros ty' [= <-]; auto|].
    unfold World.draw.
    destruct (Lane.init row ty prev (World.store w)) as [lane st].
    reflexivity.
  - unfold World._choose_next_lane_type, World.draw.
    match goal with
    | |- context [uniform ?a ?b (World.store w)] =>
        pose proof (neutral_uniform a b (World.store w)) as Hn;
        destruct (uniform a b (World.store w)) as [pick st0]
    end.
    cbn [snd] in Hn.
    cbn [World.store World.set_store World.lanes World.max_generated_row
         World.gen_log].
    match goal with
    | |- context [Lane.init row ?T prev st0] => exists T, st0
    end.
    split; [exact Hn|]. split; [discriminate|].
    destruct (Lane.init row _ prev st0) as [lane st]. reflexivity.
Qed.

Lemma world_wf_ensure_lane row forced prev (w : World.t) :
  world_wf w ->
  world_wf (World._ensure_lane row forced prev w) /\
  (next_oid (World.store w)
   <= next_oid (World.store (World._ensure_lane row forced prev w)))%nat.
Proof.
  intros Hwf.
  destruct (decide (row ∈ dom (World.lanes w))) as [Hin|Hout].
  - rewrite ensure_lane_present by exact Hin. split; [exact Hwf|lia].
  - destruct (ensure_lane_absent_init row forced prev w Hout)
      as (ty & s0 & Hn & _ & ->).
    pose proof (Lane_init_traffic row ty prev s0) as Htr. cbv zeta in Htr.
    destruct Htr as (Hr & _ & _ & _ & _ & _ & _ & Hsep & _ & Hmono).
    pose proof (Lane_init_wf row ty prev s0) as Hlwf.
    destruct (Lane.init row ty prev s0) as [lane st]. cbn [fst snd] in *.
    specialize (Hlwf lane st eq_refl).
    split; [|cbn [World.store]; lia].
    intros r l. cbn [World.lanes World.store].
    destruct (decide (r = row)) as [->|Hne].
    + rewrite lookup_insert_eq. intros [= <-]. auto.
    + rewrite lookup_insert_ne by congruence. intros Hl.
      destruct (Hwf r l Hl) as (H1 & H2 & H3).
      split; [exact H1|]. split; [|exact H3].
      apply (lane_wf_mono l (World.store w)); [exact H2|lia].
Qed.

Lemma world_wf_generate_rows rows : forall (w : World.t),
  world_wf w ->
  let w' :=
    foldl (fun w r =>
             World._ensure_lane r None (Some (World.prev_open_for r w)) w)
          w rows in
  world_wf w' /\
  (next_oid (World.store w) <= next_oid (World.store w'))%nat.
Proof.
  induction rows as [|r rows IH]; intros w Hwf; cbn [foldl].
  - split; [exact Hwf|lia].
  - destruct (world_wf_ensure_lane r None
                (Some (World.prev_open_for r w)) w Hwf) as [H1 H2].
    destruct (IH _ H1) as [H3 H4]. cbv zeta. split; [exact H3|lia].
Qed.

Lemma world_wf_generate_up_to target (w : World.t) :
  world_wf w ->
  world_wf (World._generate_up_to target w) /\
  (next_oid (World.store w)
   <= next_oid (World.store (World._generate_up_to target w)))%nat.
Proof. intros Hwf. apply world_wf_generate_rows. exact Hwf. Qed.

Lemma world_wf_safe_rows rows : forall (w : World.t) prev_open,
  world_wf w ->
  world_wf
    (foldl (fun '(w, prev_open) r =>
              let w := World._ensure_lane r (Some LANE_GRASS)
                         (Some prev_open) w in
              (w, Lane.open_cols (World.lanes w !!! r)))
           (w, prev_open) rows).1.
Proof.
  induction rows as [|r rows IH]; intros w prev_open Hwf; cbn [foldl].
  - exact Hwf.
  - apply IH. apply world_wf_ensure_lane. exact Hwf.
Qed.

Lemma world_wf_init g : world_wf (World.init g).
Proof.
  unfold World.init.
  pose proof (world_wf_safe_rows (range 0 START_SAFE_ROWS)
                (World.mk (mkStore g 0) ∅ (-1) []) Lane.all_cols) as H.
  destruct (foldl _ _ (range 0 START_SAFE_ROWS)) as [w1 po].
  cbn [fst] in H.
  apply world_wf_generate_up_to.
  intros r l Hl. apply H; [|exact Hl].
  intros r' l' Hl'. cbn [World.lanes] in Hl'.
  rewrite lookup_empty in Hl'. discriminate.
Qed.

Lemma world_wf_update_lane_at dt diff (w w' : World.t) r :
  world_wf w ->
  World.update_lane_at dt diff (Some w) r = Some w' ->
  world_wf w'.
Proof.
  intros Hwf. unfold World.update_lane_at.
  destruct (World.lanes w !! r) as [lane|] eqn:Hl; [|intros [= <-]; exact Hwf].
  unfold World.draw.
  destruct (Lane.update dt diff lane (World.store w)) as [[lane'|] st] eqn:E;
    [|discriminate].
  intros [= <-].
  destruct (Hwf r lane Hl) as (Hr & Hlwf & Hsep).
  destruct (update_wf_sep dt diff lane lane' _ _ Hlwf Hsep E) as [Hwf' Hsep'].
  destruct (update_ground dt diff lane lane' _ _ E) as ((Hr' & _) & Hn).
  intros r0 l0. cbn [World.lanes World.set_lanes World.set_store World.store].
  destruct (decide (r0 = r)) as [->|Hne].
  - rewrite lookup_insert_eq. intros [= <-].
    split; [congruence|]. split; assumption.
  - rewrite lookup_insert_ne by congruence. intros Hl0.
    destruct (Hwf r0 l0 Hl0) as (H1 & H2 & H3).
    split; [exact H1|]. split; [|exact H3].
    apply (lane_wf_mono l0 (World.store w)); assumption.
Qed.

Lemma world_wf_update_lanes dt diff rows : forall (w w' : World.t),
  world_wf w ->
  foldl (World.update_lane_at dt diff) (Some w) rows = Some w' ->
  world_wf w'.
Proof.
  induction rows as [|r rows IH]; intros w w' Hwf H.
  - injection H as <-. exact Hwf.
  - cbn [foldl] in H.
    destruct (World.update_lane_at dt diff (Some w) r) as [w1|] eqn:E.
    + apply (IH w1 w'); [|exact H].
      apply (world_wf_update_lane_at dt diff w w1 r Hwf E).
    + exfalso. clear -H. induction rows as [|r' rows IH']; [discriminate|].
      cbn [foldl] in H. apply IH'. exact H.
Qed.

Lemma world_wf_prune before (w : World.t) :
  world_wf w -> world_wf (World.prune before w).
Proof.
  intros Hwf r l. unfold World.prune.
  cbn [World.lanes World.set_lanes World.store].
  intros Hl. apply map_lookup_filter_Some in Hl as [Hl _].
  apply Hwf. exact Hl.
Qed.

Lemma world_wf_update dt camera_row diff (w w' : World.t) :
  world_wf w ->
  World.update dt camera_row diff w = Some w' ->
  world_wf w'.
Proof.
  intros Hwf. unfold World.update.
  destruct (foldl _ _ _) as [w1|] eqn:E; [|discriminate].
  intros [= <-]. apply world_wf_prune.
  eapply world_wf_update_lanes; [|exact E].
  apply world_wf_generate_up_to. exact Hwf.
Qed.

Lemma world_wf_lane_at row (w : World.t) :
  world_wf w -> world_wf (World.lane_at row w).2.
Proof.
  intros Hwf. unfold World.lane_at. cbn [snd].
  apply world_wf_ensure_lane. exact Hwf.
Qed.


(** With a non-zero difficulty the loop over the window never raises. *)
Lemma update_lanes_total dt diff rows : forall (w : World.t),
  Qeq_bool diff 0 = false ->
  exists w', foldl (World.update_lane_at dt diff) (Some w) rows = Some w'.
Proof.
  induction rows as [|r rows IH]; intros w Hd; cbn [foldl]; [eauto|].
  assert (H1 : exists w1, World.update_lane_at dt diff (Some w) r = Some w1).
  { unfold World.update_lane_at.
    destruct (World.lanes w !! r) as [lane|]; [|eauto].
    unfold World.draw.
    destruct (update_total dt diff lane (World.store w) Hd)
      as (l' & s' & ->). eauto. }
  destruct H1 as (w1 & ->). apply IH. exact Hd.
Qed.

Lemma world_update_total dt camera_row diff (w : World.t) :
  Qeq_bool diff 0 = false ->
  exists w', World.update dt camera_row diff w = Some w'.
Proof.
  intros Hd. unfold World.update.
  destruct (update_lanes_total dt diff
              (range (Z.max 0 (camera_row - 10))
                     (camera_row + LANE_LOOKAHEAD + 1))
              (World._generate_up_to (camera_row + LANE_LOOKAHEAD) w) Hd)
    as (w1 & ->).
  eauto.
Qed.

End WorldWf.

Section WorldFrame.

(** Generation never replaces a lane that is there. *)
Lemma ensure_lane_keeps row forced prev (w : World.t) r l :
  World.lanes w !! r = Some l ->
  World.lanes (World._ensure_lane row forced prev w) !! r = Some l.
Proof.
  intros Hl.
  destruct (decide (row ∈ dom (World.lanes w))) as [Hin|Hout].
  - rewrite ensure_lane_present by exact Hin. exact Hl.
  - destruct (ensure_lane_absent row forced prev w Hout) as (lane & st & ->).
    cbn [World.lanes]. rewrite lookup_insert_ne; [exact Hl|].
    intros ->. apply Hout. apply elem_of_dom. eauto.
Qed.

Lemma generate_rows_keeps rows : forall (w : World.t) r l,
  World.lanes w !! r = Some l ->
  World.lanes
    (foldl (fun w r =>
              World._ensure_lane r None (Some (World.prev_open_for r w)) w)
           w rows) !! r = Some l.
Proof.
  induction rows as [|r0 rows IH]; intros w r l Hl; cbn [foldl].
  - exact Hl.
  - apply IH. apply ensure_lane_keeps. exact Hl.
Qed.

(** It only ever adds rows above the highest generated one. *)
Lemma ensure_lane_absent_below row forced prev (w : World.t) r :
  World.lanes w !! r = None -> r <> row ->
  World.lanes (World._ensure_lane row forced prev w) !! r = None.
Proof.
  intros Hl Hne.
  destruct (decide (row ∈ dom (World.lanes w))) as [Hin|Hout].
  - rewrite ensure_lane_present by exact Hin. exact Hl.
  - destruct (ensure_lane_absent row forced prev w Hout) as (lane & st & ->).
    cbn [World.lanes]. rewrite lookup_insert_ne by congruence. exact Hl.
Qed.

Lemma update_lane_at_lookup dt diff (w w' : World.t) r0 r l :
  World.update_lane_at dt diff (Some w) r0 = Some w' ->
  World.lanes w !! r = Some l ->
  exists l', World.lanes w' !! r = Some l' /\ same_ground l l' /\
             (r <> r0 -> l' = l).
Proof.
  unfold World.update_lane_at.
  destruct (World.lanes w !! r0) as [lane|] eqn:Hl0.
  - unfold World.draw.
    destruct (Lane.update dt diff lane (World.store w)) as [[lane'|] st] eqn:E;
      [|discriminate].
    intros [= <-] Hl. cbn [World.lanes World.set_lanes World.set_store].
    destruct (decide (r = r0)) as [->|Hne].
    + rewrite lookup_insert_eq. exists lane'. split; [reflexivity|].
      rewrite Hl0 in Hl. injection Hl as <-.
      split; [|congruence].
      apply (update_ground dt diff lane lane' _ _ E).
    + rewrite lookup_insert_ne by congruence. exists l.
      split; [exact Hl|]. split; [apply same_ground_refl|reflexivity].
  - intros [= <-] Hl. exists l.
    split; [exact Hl|]. split; [apply same_ground_refl|reflexivity].
Qed.

Lemma update_lanes_lookup dt diff rows : forall (w w' : World.t) r l,
  foldl (World.update_lane_at dt diff) (Some w) rows = Some w' ->
  World.lanes w !! r = Some l ->
  exists l', World.lanes w' !! r = Some l' /\ same_ground l l' /\
             (r ∉ rows -> l' = l).
Proof.
  induction rows as [|r0 rows IH]; intros w w' r l H Hl.
  - injection H as <-. exists l.
    split; [exact Hl|]. split; [apply same_ground_refl|reflexivity].
  - cbn [foldl] in H.
    destruct (World.update_lane_at dt diff (Some w) r0) as [w1|] eqn:E.
    + destruct (update_lane_at_lookup dt diff w w1 r0 r l E Hl)
        as (l1 & Hl1 & Hg1 & He1).
      destruct (IH w1 w' r l1 H Hl1) as (l2 & Hl2 & Hg2 & He2).
      exists l2. split; [exact Hl2|].
      split; [eapply same_ground_trans; eassumption|].
      intros Hnin. rewrite not_elem_of_cons in Hnin.
      destruct Hnin as [Hne Hnin]. rewrite He2, He1; auto.
    + exfalso. clear -H. induction rows as [|r' rows IH']; [discriminate|].
      cbn [foldl] in H. apply IH'. exact H.
Qed.

Lemma update_lanes_absent dt diff rows : forall (w w' : World.t) r,
  foldl (World.update_lane_at dt diff) (Some w) rows = Some w' ->
  World.lanes w !! r = None -> World.lanes w' !! r = None.
Proof.
  intros w w' r H Hl.
  destruct (update_lanes_frame dt diff rows w w' H) as (Hd & _).
  apply not_elem_of_dom. rewrite Hd. apply not_elem_of_dom. exact Hl.
Qed.

(** What [World.update] does to the lane of a row that is there. *)
Lemma world_update_lookup dt camera_row diff (w w' : World.t) r l :
  World.update dt camera_row diff w = Some w' ->
  World.lanes w !! r = Some l ->
  if decide (r < camera_row - 30) then World.lanes w' !! r = None
  else exists l', World.lanes w' !! r = Some l' /\ same_ground l l' /\
                  (r < Z.max 0 (camera_row - 10)
                   \/ camera_row + LANE_LOOKAHEAD < r -> l' = l).
Proof.
  unfold World.update.
  destruct (foldl _ _ _) as [w1|] eqn:E; [|discriminate].
  intros [= <-] Hl. unfold World.prune. cbn [World.lanes World.set_lanes].
  destruct (decide (r < camera_row - 30)) as [Hlt|Hge].
  - apply map_lookup_filter_None. right. intros l0 _. cbn. lia.
  - assert (Hl0 : World.lanes
                    (World._generate_up_to (camera_row + LANE_LOOKAHEAD) w)
                  !! r = Some l)
      by (apply generate_rows_keeps; exact Hl).
    destruct (update_lanes_lookup dt diff _ _ _ r l E Hl0)
      as (l' & Hl' & Hg & He).
    exists l'. split.
    + apply map_lookup_filter_Some. split; [exact Hl'|]. cbn. lia.
    + split; [exact Hg|]. intros Hout. apply He.
      unfold range. rewrite elem_of_seqZ. lia.
Qed.

Lemma lane_at_spec row (w : World.t) :
  World.lanes (World.lane_at row w).2 !! row = Some (World.lane_at row w).1 /\
  (forall r, r <> row ->
             World.lanes (World.lane_at row w).2 !! r = World.lanes w !! r) /\
  (row ∈ dom (World.lanes w) -> (World.lane_at row w).2 = w).
Proof.
  unfold World.lane_at. cbn [fst snd].
  destruct (decide (row ∈ dom (World.lanes w))) as [Hin|Hout].
  - rewrite ensure_lane_present by exact Hin.
    apply elem_of_dom in Hin as [l Hl].
    split; [rewrite lookup_total_alt, Hl; reflexivity|]. split; auto.
  - destruct (ensure_lane_absent row None None w Hout) as (lane & st & ->).
    cbn [World.lanes]. split.
    + rewrite lookup_total_alt, lookup_insert_eq. reflexivity.
    + split; [|contradiction].
      intros r Hne. rewrite lookup_insert_ne by congruence. reflexivity.
Qed.

End WorldFrame.

(** X12: what the constructor puts on a new lane.  A roadway or waterway
    starts with one or two obstacles, a ground or railway lane with none;
    every obstacle is entirely off-screen on the side it will enter from,
    and any two of them are at least [MIN_GAP] apart.  The lane carries the
    row and type it was asked for, both of its directions are -1 or 1, and
    no train is running or announced. *)
Theorem new_lane_traffic :
  forall (row : Z) (ty : LaneType) (prev_open_cols : option (gset Z))
         (s : Store),
    let l := (Lane.init row ty prev_open_cols s).1 in
    Lane.row l = row /\ Lane.type l = ty /\
    Lane.train_active l = false /\ Lane.train_warning l = 0%Q /\
    (Lane.direction l = -1 \/ Lane.direction l = 1) /\
    (Lane.train_dir l = -1 \/ Lane.train_dir l = 1) /\
    Forall (fun ob =>
              if Lane.direction l =? 1
              then (Obstacle.x ob + Obstacle.w ob <= 0)%Q
              else (inject_Z SCREEN_W <= Obstacle.x ob)%Q)
           (Lane.obstacles l) /\
    (forall a b, a ∈ Lane.obstacles l -> b ∈ Lane.obstacles l ->
                 Obstacle.oid a <> Obstacle.oid b ->
                 (Obstacle.x a + Obstacle.w a + MIN_GAP <= Obstacle.x b)%Q \/
                 (Obstacle.x b + Obstacle.w b + MIN_GAP <= Obstacle.x a)%Q) /\
    match ty with
    | LANE_ROAD | LANE_RIVER => (1 <= length (Lane.obstacles l) <= 2)%nat
    | _ => Lane.obstacles l = []
    end.
Proof.
  intros row ty prev s l.
  destruct (Lane_init_traffic row ty prev s)
    as (H1 & H2 & H3 & H4 & H5 & H6 & H7 & H8 & H9 & _).
  repeat (split; [assumption|]).
  first [exact H9 | split; [exact H8 | exact H9]].
Qed.



(** X14: [World.update] on the lane of a row that is in the mapping.  A row
    more than 30 below the camera row is removed.  Any other row keeps its
    lane object's row, type, direction, base speed and trees; if it lies
    outside the update window (below the camera row minus 10, or above the
    camera row plus the look-ahead) its lane is not touched at all. *)
Theorem world_update_frame :
  forall (dt : Q) (camera_row : Z) (diff : Q) (w w' : World.t) (r : Z)
         (l : Lane.t),
    World.update dt camera_row diff w = Some w' ->
    World.lanes w !! r = Some l ->
    (r < camera_row - 30 -> World.lanes w' !! r = None) /\
    (camera_row - 30 <= r ->
     exists l',
       World.lanes w' !! r = Some l' /\
       Lane.row l' = Lane.row l /\ Lane.type l' = Lane.type l /\
       Lane.direction l' = Lane.direction l /\
       Lane.base_speed l' = Lane.base_speed l /\
       Lane.blocked_cols l' = Lane.blocked_cols l /\
       (r < Z.max 0 (camera_row - 10) \/ camera_row + LANE_LOOKAHEAD < r ->
        l' = l)).
Proof.
  intros dt cr diff w w' r l Hup Hl.
  pose proof (world_update_lookup dt cr diff w w' r l Hup Hl) as H.
  destruct (decide (r < cr - 30)) as [Hlt|Hge].
  - split; [intros _; exact H|lia].
  - split; [lia|]. intros _.
    destruct H as (l' & Hl' & (H1 & H2 & H3 & H4 & H5) & He).
    exists l'. auto 10.
Qed.

Lemma world_update_frame_witness :
  match World.update (1 # 60) 0 (6 # 10) (World.init zero_rng) with
  | Some w' =>
      match World.lanes (World.init zero_rng) !! 3 with
      | Some l =>
          exists l', World.lanes w' !! 3 = Some l' /\
                     Lane.type l' = Lane.type l /\
                     Lane.blocked_cols l' = Lane.blocked_cols l
      | None => False
      end
  | None => False
  end.
Proof.
  destruct (World.update (1 # 60) 0 (6 # 10) (World.init zero_rng))
    as [w'|] eqn:E.
  - destruct (World.lanes (World.init zero_rng) !! 3) as [l|] eqn:El.
    + destruct (world_update_frame (1 # 60) 0 (6 # 10) (World.init zero_rng)
                  w' 3 l E El) as [_ H].
      destruct (H ltac:(lia)) as (l' & H1 & _ & H3 & _ & _ & H6 & _).
      exists l'. auto.
    + vm_compute in El. discriminate El.
  - destruct (world_update_total (1 # 60) 0 (6 # 10) (World.init zero_rng)
                eq_refl) as (w1 & E1).
    rewrite E1 in E. discriminate E.
Defined.

(** X15: [lane_at] returns the lane it leaves stored under the row asked
    for, changes the lane of no other row, leaves the world as it is when
    the row is already there, and asking again gives the same answer without
    changing the world any more. *)
Theorem lane_at_round_trip :
  forall (row : Z) (w : World.t),
    let '(lane, w') := World.lane_at row w in
    World.lanes w' !! row = Some lane /\
    (forall r, r <> row -> World.lanes w' !! r = World.lanes w !! r) /\
    (row ∈ dom (World.lanes w) -> w' = w) /\
    World.lane_at row w' = (lane, w').
Proof.
  intros row w.
  pose proof (lane_at_spec row w) as (H1 & H2 & H3).
  pose proof (lane_at_twice row w) as H4.
  destruct (World.lane_at row w) as [lane w']. cbn [fst snd] in *. auto.
Qed.

(** ** More on the player *)

Section PlayerMore.

Lemma Qfloor_eq q c :
  (inject_Z c <= q)%Q -> (q < inject_Z (c + 1))%Q -> Qfloor q = c.
Proof.
  intros Hlo Hhi.
  pose proof (Qfloor_le q) as H1. pose proof (Qlt_floor q) as H2.
  assert (H3 : (inject_Z (Qfloor q) < inject_Z (c + 1))%Q) by lra.
  assert (H4 : (inject_Z c < inject_Z (Qfloor q + 1))%Q) by lra.
  rewrite <- Zlt_Qlt in H3, H4. lia.
Qed.

(** The centre of a column lies in that column. *)
Lemma Qfloor_centre c :
  Qfloor ((inject_Z (c * TILE) + inject_Z TILE / 2) / inject_Z TILE) = c.
Proof.
  apply Qfloor_eq; rewrite ?inject_Z_plus, inject_Z_mult;
    change (inject_Z TILE) with 48%Q; change (inject_Z 1) with 1%Q;
    generalize (inject_Z c); intros x; unfold Qdiv;
    change (/ 48)%Q with (1 # 48); change (/ 2)%Q with (1 # 2); lra.
Qed.

Lemma on_screen_col p : on_screen p -> 0 <= Player.col p <= GRID_W.
Proof.
  intros ((Hlo & Hhi) & Hc & _). rewrite Hc.
  change (inject_Z SCREEN_W) with 528%Q in Hhi.
  change (inject_Z TILE) with 48%Q.
  split.
  - change 0 with (Qfloor (0 / 48)). apply Qfloor_resp_le.
    unfold Qdiv. change (/ 48)%Q with (1 # 48). lra.
  - change GRID_W with (Qfloor (528 / 48)). apply Qfloor_resp_le.
    unfold Qdiv. change (/ 48)%Q with (1 # 48). lra.
Qed.

(** A move either leaves the player as it is or puts it on the centre of
    the target cell. *)
Lemma try_move_cases dcol drow p world :
  let new_col := Player.col p + dcol in
  let new_row := Player.row p + drow in
  let r := Player.try_move dcol drow p world in
  (r.1 = p /\ (r.2 = world \/ r.2 = (World.lane_at new_row world).2)) \/
  (Player.dead p = false /\ 0 <= new_col < GRID_W /\ 0 <= new_row /\
   r.2 = (World.lane_at new_row world).2 /\
   r.1 = Player.mk new_col new_row
           (inject_Z (new_col * TILE) + inject_Z TILE / 2)%Q false
           (Z.max (Player.max_row p) new_row)
           (Player.was_on_log p) (Player.log_under p) (Player.log_dip_t p)).
Proof.
  intros new_col new_row. cbv zeta. unfold Player.try_move.
  destruct (Player.dead p) eqn:Hd; [left; auto|].
  fold new_col new_row.
  destruct (World.lane_at new_row world) as [lane w'].
  destruct (Z.leb_spec 0 new_col) as [H0|H0]; cbn [andb negb];
    [|left; auto].
  destruct (Z.ltb_spec new_col GRID_W) as [H1|H1]; cbn [andb negb];
    [|left; auto].
  destruct (Z.ltb_spec new_row 0) as [H2|H2]; [left; auto|].
  destruct (LaneType_eqb (Lane.type lane) LANE_GRASS
            && Lane.is_blocked lane new_col); [left; cbn; auto|].
  right. cbn [fst snd]. repeat (split; [auto; lia|]).
  unfold Player._snap_x_to_col, Player.set_x_px. cbn. reflexivity.
Qed.

Lemma collide_fields lane cam_y p :
  let p' := Player.collide lane cam_y p in
  Player.col p' = Player.col p /\ Player.row p' = Player.row p /\
  Player.x_px p' = Player.x_px p /\ Player.max_row p' = Player.max_row p /\
  Player.was_on_log p' = Player.was_on_log p /\
  Player.log_under p' = Player.log_under p /\
  Player.log_dip_t p' = Player.log_dip_t p /\
  (Player.dead p = true -> Player.dead p' = true).
Proof.
  cbv zeta. unfold Player.collide.
  repeat match goal with
         | |- context [if ?b then _ else _] => destruct b
         end; cbn; auto 10.
Qed.

Lemma ride_log_fields dt lane p :
  Player.row (Player.ride_log dt lane p).1 = Player.row p /\
  Player.max_row (Player.ride_log dt lane p).1 = Player.max_row p.
Proof.
  unfold Player.ride_log.
  destruct (List.find _ _) as [ob|]; [|cbn; auto].
  cbv zeta.
  repeat match goal with
         | |- context [if ?b then _ else _] => destruct b
         end; cbn; auto.
Qed.

(** The shape of [update] on a lane that is not a river. *)
Lemma update_off_river dt world cam_y p :
  Player.dead p = false ->
  Lane.type (World.lane_at (Player.row p) world).1 <> LANE_RIVER ->
  Player.update dt world cam_y p =
  (Player.collide (World.lane_at (Player.row p) world).1 cam_y
     (Player.set_log_state (Player.tick_dip dt p) false None),
   (World.lane_at (Player.row p) world).2).
Proof.
  intros Hd Hty. unfold Player.update. rewrite Hd.
  destruct (World.lane_at (Player.row p) world) as [lane w'].
  cbn [fst snd] in *.
  destruct (LaneType_eqb (Lane.type lane) LANE_RIVER) eqn:E;
    [|reflexivity].
  apply lane_type_eqb_eq in E. contradiction.
Qed.

Lemma update_world dt world cam_y p :
  (Player.update dt world cam_y p).2 = world \/
  (Player.update dt world cam_y p).2 = (World.lane_at (Player.row p) world).2.
Proof.
  unfold Player.update. destruct (Player.dead p); [left; reflexivity|].
  right. destruct (World.lane_at (Player.row p) world) as [lane w'].
  destruct (LaneType_eqb (Lane.type lane) LANE_RIVER).
  - destruct (Player.ride_log dt lane (Player.tick_dip dt p)) as [p1 [|]];
      reflexivity.
  - reflexivity.
Qed.

(** [update] never changes row or score, and a player it leaves alive is on
    the screen if it was. *)
Lemma update_on_screen dt world cam_y p :
  on_screen p ->
  let p' := (Player.update dt world cam_y p).1 in
  Player.row p' = Player.row p /\ Player.max_row p' = Player.max_row p /\
  (Player.dead p = true -> p' = p) /\
  (Player.dead p' = false -> on_screen p').
Proof.
  intros Hon. cbv zeta.
  destruct (Player.dead p) eqn:Hd.
  { unfold Player.update. rewrite Hd. cbn [fst]. auto. }
  destruct (tick_dip_fields dt p) as (Tc & Tr & Tx & Td & Tm).
  destruct (LaneType_eqb (Lane.type (World.lane_at (Player.row p) world).1)
              LANE_RIVER) eqn:Hty.
  - apply lane_type_eqb_eq in Hty.
    rewrite (update_river dt world cam_y p Hd Hty).
    set (lane := (World.lane_at (Player.row p) world).1).
    pose proof (ride_log_fields dt lane (Player.tick_dip dt p)) as [Rr Rm].
    destruct (List.find (Player.covers (Player.x_px (Player.tick_dip dt p)))
                (Lane.obstacles lane)) as [ob|] eqn:Hf.
    + destruct (ride_log_some dt lane (Player.tick_dip dt p) ob Hf)
        as (p1 & E & Hx & Hr & Hout & Hin).
      cbv zeta in E, Hout, Hin. rewrite E in Rr, Rm |- *. cbn [fst] in Rr, Rm.
      destruct (Qltb _ 0 || Qltb (inject_Z SCREEN_W) _) eqn:Ho; cbn [negb].
      * destruct (Hout eq_refl) as [Hdead _].
        split; [congruence|]. split; [congruence|].
        split; [discriminate|]. congruence.
      * destruct (Hin eq_refl) as [Hd1 Hc1].
        destruct (collide_fields lane cam_y p1)
          as (Cc & Cr & Cx & Cm & _).
        split; [congruence|]. split; [congruence|].
        split; [discriminate|]. intros _.
        apply out_of_bounds_false in Ho.
        destruct Hon as (_ & _ & Hrow).
        unfold on_screen. rewrite Cc, Cr, Cx, Cm, Hc1, Hx, Rr, Rm, Tr.
        split; [exact Ho|]. split; [reflexivity|rewrite Tm; exact Hrow].
    + unfold Player.ride_log. rewrite Hf. cbn.
      rewrite Tr, Tm. repeat split; discriminate.
  - assert (Hne : Lane.type (World.lane_at (Player.row p) world).1
                  <> LANE_RIVER).
    { intros E. apply lane_type_eqb_eq in E. congruence. }
    rewrite (update_off_river dt world cam_y p Hd Hne). cbn [fst].
    destruct (collide_fields (World.lane_at (Player.row p) world).1 cam_y
                (Player.set_log_state (Player.tick_dip dt p) false None))
      as (Cc & Cr & Cx & Cm & _).
    cbn [Player.set_log_state Player.col Player.row Player.x_px
         Player.max_row] in Cc, Cr, Cx, Cm.
    split; [congruence|]. split; [congruence|].
    split; [discriminate|]. intros _.
    destruct Hon as (Hx & Hc & Hrow).
    unfold on_screen. rewrite Cc, Cr, Cx, Cm, Tc, Tr, Tx, Tm. auto.
Qed.

Lemma try_move_on_screen dcol drow p world :
  on_screen p ->
  let p' := (Player.try_move dcol drow p world).1 in
  on_screen p' /\ Player.dead p' = Player.dead p /\
  Player.max_row p <= Player.max_row p' /\
  (Player.dead p = true -> p' = p).
Proof.
  intros Hon. cbv zeta.
  destruct (try_move_cases dcol drow p world)
    as [(-> & _)|(Hd & Hc & Hr & _ & ->)].
  - split; [exact Hon|]. split; [reflexivity|]. split; [lia|auto].
  - cbn [Player.dead Player.max_row].
    split; [|split; [congruence|split; [lia|congruence]]].
    unfold on_screen. cbn [Player.x_px Player.col Player.row Player.max_row].
    split; [|split; [symmetry; apply Qfloor_centre|lia]].
    rewrite inject_Z_mult.
    change (inject_Z TILE) with 48%Q. change (inject_Z SCREEN_W) with 528%Q.
    assert (H0 : (inject_Z 0 <= inject_Z (Player.col p + dcol))%Q)
      by (rewrite <- Zle_Qle; lia).
    assert (H1 : (inject_Z (Player.col p + dcol) <= inject_Z 10)%Q)
      by (rewrite <- Zle_Qle; unfold GRID_W in Hc; lia).
    change (inject_Z 0) with 0%Q in H0. change (inject_Z 10) with 10%Q in H1.
    unfold Qdiv. change (/ 2)%Q with (1 # 2). split; lra.
Qed.

Lemma init_on_screen : on_screen Player.init.
Proof.
  unfold on_screen. cbn. split; [split; discriminate|].
  split; [reflexivity|lia].
Qed.

End PlayerMore.

(** X16: an alive player is always on the screen.  If the centre of the
    player is within [0, SCREEN_W], its column is the tile under the centre
    and its row is between 0 and its score, then the column is within
    [0, GRID_W] and the same holds after any move request, which never
    kills and never lowers the score, and after any update that leaves the
    player alive, which changes neither row nor score. *)
Theorem player_stays_on_screen :
  forall (p : Player.t) (world : World.t) (dcol drow : Z) (dt cam_y : Q),
    on_screen p ->
    0 <= Player.col p <= GRID_W /\
    (let p' := (Player.try_move dcol drow p world).1 in
     on_screen p' /\ Player.dead p' = Player.dead p /\
     Player.max_row p <= Player.max_row p') /\
    (let p' := (Player.update dt world cam_y p).1 in
     Player.row p' = Player.row p /\ Player.max_row p' = Player.max_row p /\
     (Player.dead p' = false -> on_screen p')).
Proof.
  intros p world dcol drow dt cam_y Hon.
  split; [apply on_screen_col; exact Hon|]. split.
  - destruct (try_move_on_screen dcol drow p world Hon) as (H1 & H2 & H3 & _).
    auto.
  - destruct (update_on_screen dt world cam_y p Hon) as (H1 & H2 & _ & H4).
    auto.
Qed.

Lemma player_stays_on_screen_witness :
  let p := Player.init in
  let world := World.init zero_rng in
  0 <= Player.col p <= GRID_W /\
  (let p' := (Player.try_move 1 0 p world).1 in
   on_screen p' /\ Player.dead p' = Player.dead p /\
   Player.max_row p <= Player.max_row p') /\
  (let p' := (Player.update (1 # 60) world 0 p).1 in
   Player.row p' = Player.row p /\ Player.max_row p' = Player.max_row p /\
   (Player.dead p' = false -> on_screen p')).
Proof.
  apply (player_stays_on_screen Player.init (World.init zero_rng) 1 0
           (1 # 60) 0).
  unfold on_screen. cbn. split; [split; discriminate|].
  split; [reflexivity|lia].
Defined.

(** X17: an update of an alive player on a lane that is not a river never
    moves it and clears its log state, and it kills the player exactly when
    the lane is a roadway with a car over the player's centre (edges
    included), or a railway whose running train, sixteen tiles long, is over
    the centre, or the player has fallen behind the screen. *)
Theorem road_rail_collision :
  forall (dt : Q) (world : World.t) (cam_y : Q) (p : Player.t),
    Player.dead p = false ->
    Lane.type (World.lane_at (Player.row p) world).1 <> LANE_RIVER ->
    let lane := (World.lane_at (Player.row p) world).1 in
    let p' := (Player.update dt world cam_y p).1 in
    Player.col p' = Player.col p /\ Player.row p' = Player.row p /\
    Player.x_px p' = Player.x_px p /\ Player.max_row p' = Player.max_row p /\
    Player.was_on_log p' = false /\ Player.log_under p' = None /\
    (Player.dead p' = true <->
     (Lane.type lane = LANE_ROAD /\
      exists ob, ob ∈ Lane.obstacles lane /\
                 (Obstacle.x ob <= Player.x_px p /\
                  Player.x_px p <= Obstacle.x ob + Obstacle.w ob)%Q) \/
     (Lane.type lane = LANE_RAIL /\ Lane.train_active lane = true /\
      (Lane.train_x lane <= Player.x_px p /\
       Player.x_px p <= Lane.train_x lane + inject_Z (TILE * 16))%Q) \/
     SCREEN_H < rect_from_tile_top (Player.col p) (Player.row p) cam_y).
Proof.
  intros dt world cam_y p Hd Hty lane p'. subst p'.
  rewrite (update_off_river dt world cam_y p Hd Hty). cbn [fst]. fold lane.
  destruct (tick_dip_fields dt p) as (Tc & Tr & Tx & Td & Tm).
  set (p2 := Player.set_log_state (Player.tick_dip dt p) false None).
  assert (H2 : Player.col p2 = Player.col p /\ Player.row p2 = Player.row p /\
               Player.x_px p2 = Player.x_px p /\
               Player.max_row p2 = Player.max_row p /\
               Player.was_on_log p2 = false /\ Player.log_under p2 = None /\
               Player.dead p2 = false).
  { subst p2. cbn. rewrite Tc, Tr, Tx, Tm, Td. auto 10. }
  destruct H2 as (Hc2 & Hr2 & Hx2 & Hm2 & Hw2 & Hl2 & Hd2).
  destruct (collide_fields lane cam_y p2)
    as (Cc & Cr & Cx & Cm & Cw & Cl & _).
  repeat (split; [congruence|]).
  unfold Player.collide. rewrite Hx2, Hc2, Hr2.
  assert (Hroad : existsb (Player.covers (Player.x_px p))
                    (Lane.obstacles lane) = true <->
                  exists ob, ob ∈ Lane.obstacles lane /\
                    (Obstacle.x ob <= Player.x_px p /\
                     Player.x_px p <= Obstacle.x ob + Obstacle.w ob)%Q).
  { rewrite existsb_exists. split; intros (ob & Hin & Hcov); exists ob.
    - split; [apply list_elem_of_In; exact Hin|].
      apply covers_spec. exact Hcov.
    - split; [apply list_elem_of_In; exact Hin|].
      apply covers_spec. exact Hcov. }
  assert (Hrail : Qleb (Lane.train_x lane) (Player.x_px p)
                  && Qleb (Player.x_px p)
                          (Lane.train_x lane + inject_Z (TILE * 16)) = true
                  <-> (Lane.train_x lane <= Player.x_px p /\
                       Player.x_px p
                       <= Lane.train_x lane + inject_Z (TILE * 16))%Q).
  { rewrite andb_true_iff, !Qleb_le. reflexivity. }
  cbv zeta.
  destruct (LaneType_eqb (Lane.type lane) LANE_ROAD) eqn:Eroad.
  - apply lane_type_eqb_eq in Eroad.
    destruct (existsb _ _) eqn:Ecov; cbn [andb].
    + split; [intros _; left; split; [exact Eroad|apply Hroad; reflexivity]
             |reflexivity].
    + rewrite Eroad. cbn [LaneType_eqb andb].
      destruct (Z.ltb_spec SCREEN_H
                  (rect_from_tile_top (Player.col p) (Player.row p) cam_y)).
      * split; [auto|reflexivity].
      * rewrite Hd2. split; [discriminate|].
        intros [(_ & Hex)|[(E & _)|Hlt]]; [|congruence|lia].
        apply Hroad in Hex. discriminate.
  - cbn [andb].
    assert (Hnr : Lane.type lane <> LANE_ROAD).
    { intros E. apply lane_type_eqb_eq in E. congruence. }
    destruct (LaneType_eqb (Lane.type lane) LANE_RAIL) eqn:Erail.
    + apply lane_type_eqb_eq in Erail.
      destruct (Lane.train_active lane) eqn:Eact; cbn [andb].
      * destruct (Qleb _ _ && Qleb _ _) eqn:Eon.
        { split; [intros _; right; left; split; [exact Erail|];
                  split; [reflexivity|apply Hrail; reflexivity]
                 |reflexivity]. }
        destruct (Z.ltb_spec SCREEN_H
                    (rect_from_tile_top (Player.col p) (Player.row p) cam_y)).
        { split; [auto|reflexivity]. }
        rewrite Hd2. split; [discriminate|].
        intros [(E & _)|[(_ & _ & Hon)|Hlt]]; [congruence| |lia].
        apply Hrail in Hon. discriminate.
      * destruct (Z.ltb_spec SCREEN_H
                    (rect_from_tile_top (Player.col p) (Player.row p) cam_y)).
        { split; [auto|reflexivity]. }
        rewrite Hd2. split; [discriminate|].
        intros [(E & _)|[(_ & E & _)|Hlt]]; [congruence|discriminate|lia].
    + cbn [andb].
      assert (Hnl : Lane.type lane <> LANE_RAIL).
      { intros E. apply lane_type_eqb_eq in E. congruence. }
      destruct (Z.ltb_spec SCREEN_H
                  (rect_from_tile_top (Player.col p) (Player.row p) cam_y)).
      { split; [auto|reflexivity]. }
      rewrite Hd2. split; [discriminate|].
      intros [(E & _)|[(E & _)|Hlt]]; [congruence|congruence|lia].
Qed.

Lemma road_rail_collision_witness :
  let world := World.init zero_rng in
  let p := Player.init in
  let p' := (Player.update (1 # 60) world 0 p).1 in
  Player.col p' = Player.col p /\ Player.row p' = Player.row p /\
  Player.x_px p' = Player.x_px p /\ Player.max_row p' = Player.max_row p /\
  Player.was_on_log p' = false /\ Player.log_under p' = None.
Proof.
  destruct (road_rail_collision (1 # 60) (World.init zero_rng) 0 Player.init
              eq_refl) as (H1 & H2 & H3 & H4 & H5 & H6 & _).
  - vm_compute. discriminate.
  - cbv zeta. auto 10.
Defined.

(** X18: the fall-behind test does not depend on the column.  It fails,
    so that the player is not killed for falling behind, whenever the camera
    is at most one tile ahead of the bottom edge of the player's row, and it
    succeeds whenever the camera is at least one tile and one pixel ahead of
    it, provided the camera is not so far ahead that the top of the tile,
    which is then at most [2^31 - 1], would not fit the integer of the
    rectangle.  In the pixel between the two bounds the truncation of the
    coordinate decides. *)
Theorem fall_behind_threshold :
  forall (col row : Z) (cam_y : Q),
    let top := rect_from_tile_top col row cam_y in
    ((cam_y <= inject_Z (row * TILE + TILE))%Q -> ~ SCREEN_H < top) /\
    ((inject_Z (row * TILE + TILE + 1) <= cam_y)%Q ->
     (cam_y <= inject_Z (row * TILE + (2 ^ 31 - 1 - (SCREEN_H - TILE))))%Q ->
     SCREEN_H < top <= 2 ^ 31 - 1).
Proof.
  intros col row cam_y top. subst top. unfold rect_from_tile_top.
  set (q := (inject_Z (SCREEN_H - TILE) - (inject_Z (row * TILE) - cam_y))%Q).
  assert (Hq : (q == cam_y - inject_Z (row * TILE) + 624)%Q).
  { subst q. change (inject_Z (SCREEN_H - TILE)) with 624%Q. lra. }
  rewrite !inject_Z_plus.
  change (inject_Z TILE) with 48%Q. change (inject_Z 1) with 1%Q.
  change (inject_Z (2 ^ 31 - 1 - (SCREEN_H - TILE))) with 2147483023%Q.
  change SCREEN_H with 672. change (2 ^ 31 - 1) with 2147483647.
  assert (Htr : forall m : Z,
            0 <= m ->
            ((q <= inject_Z m)%Q -> Qtruncate q <= m) /\
            ((inject_Z m <= q)%Q -> m <= Qtruncate q)).
  { intros m Hm. clear Hq. clearbody q. destruct q as [n d].
    unfold Qtruncate. cbn [Qnum Qden].
    destruct (Z_lt_le_dec n 0) as [Hneg|Hpos].
    - assert (Hle : Z.quot n (Z.pos d) <= 0).
      { rewrite <- (Z.opp_involutive n), Z.quot_opp_l by lia.
        pose proof (Z.quot_pos (- n) (Z.pos d) ltac:(lia) ltac:(lia)). lia. }
      split; [lia|]. intros H.
      unfold Qle in H. cbn [Qnum Qden inject_Z] in H. nia.
    - rewrite Z.quot_div_nonneg by lia.
      change (n / Z.pos d) with (Qfloor (n # d)).
      split; intros H; apply Qfloor_resp_le in H; rewrite Qfloor_Z in H;
        exact H. }
  split.
  - intros H. destruct (Htr 672 ltac:(lia)) as [Hle _].
    assert (Hq1 : (q <= inject_Z 672)%Q)
      by (change (inject_Z 672) with 672%Q; lra).
    apply Hle in Hq1. lia.
  - intros Hlo Hhi.
    destruct (Htr 673 ltac:(lia)) as [_ Hge].
    destruct (Htr 2147483647 ltac:(lia)) as [Hle _].
    assert (Hq1 : (inject_Z 673 <= q)%Q)
      by (change (inject_Z 673) with 673%Q; lra).
    assert (Hq2 : (q <= inject_Z 2147483647)%Q)
      by (change (inject_Z 2147483647) with 2147483647%Q; lra).
    apply Hge in Hq1. apply Hle in Hq2. lia.
Qed.

Lemma fall_behind_threshold_witness :
  ~ SCREEN_H < rect_from_tile_top 5 1 96 /\
  SCREEN_H < rect_from_tile_top 5 1 97 <= 2 ^ 31 - 1.
Proof.
  split.
  - apply (fall_behind_threshold 5 1 96). vm_compute. discriminate.
  - apply (fall_behind_threshold 5 1 97); vm_compute; discriminate.
Defined.

(** ** The game loop *)

Section GameFacts.

Lemma difficulty_nonzero n : Qeq_bool (difficulty n) 0 = false.
Proof.
  destruct (Qeq_bool (difficulty n) 0) eqn:E; [|reflexivity].
  apply Qeq_bool_iff in E. pose proof (difficulty_bounds n). lra.
Qed.

Lemma try_move_dead dcol drow p world :
  Player.dead p = true -> Player.try_move dcol drow p world = (p, world).
Proof. intros H. unfold Player.try_move. rewrite H. reflexivity. Qed.

Lemma update_dead dt world cam_y p :
  Player.dead p = true -> Player.update dt world cam_y p = (p, world).
Proof. intros H. unfold Player.update. rewrite H. reflexivity. Qed.

Lemma init_game_wf streams : game_wf (Game.init streams).
Proof.
  split; [apply world_wf_init|]. intros _. apply init_on_screen.
Qed.

Lemma reset_game_wf g : game_wf (Game.reset g).
Proof.
  split; [apply world_wf_init|]. intros _. apply init_on_screen.
Qed.

Lemma move_game_wf dcol drow g : game_wf g -> game_wf (Game.move dcol drow g).
Proof.
  intros [Hw Hp]. unfold Game.move.
  destruct (Player.dead (Game.player g)) eqn:Hd.
  - rewrite try_move_dead by exact Hd. split; [exact Hw|].
    cbn. congruence.
  - pose proof (try_move_cases dcol drow (Game.player g) (Game.world g))
      as Hc.
    pose proof (try_move_on_screen dcol drow (Game.player g) (Game.world g)
                  (Hp eq_refl)) as (Hon & _).
    cbv zeta in Hc.
    destruct (Player.try_move dcol drow (Game.player g) (Game.world g))
      as [p' w']. cbn [fst snd] in *.
    split; [|intros _; exact Hon].
    cbn [Game.world Game.set_player Game.set_world].
    destruct Hc as [(_ & [-> | ->])|(_ & _ & _ & -> & _)];
      try exact Hw; apply world_wf_lane_at; exact Hw.
Qed.

Lemma on_keydown_game_wf key g g' :
  game_wf g -> Game.on_keydown key g = Some g' -> game_wf g'.
Proof.
  intros Hwf. unfold Game.on_keydown.
  destruct key; try discriminate; cbv zeta; intros [= <-];
    try (destruct (negb (Player.dead (Game.player g)));
         [apply move_game_wf; exact Hwf | exact Hwf]);
    try (destruct (negb (Player.dead (Game.player g))); exact Hwf).
  destruct (Player.dead (Game.player g)) eqn:Hd.
  - cbn. apply reset_game_wf.
  - rewrite Hd. cbn. exact Hwf.
Qed.

Lemma handle_events_game_wf events : forall g g',
  game_wf g -> Game.handle_events events g = Some g' -> game_wf g'.
Proof.
  induction events as [|e events IH]; intros g g' Hwf H;
    cbn [Game.handle_events] in H.
  - injection H as <-. exact Hwf.
  - destruct (Game.on_event e g) as [g1|] eqn:E; [|discriminate].
    apply (IH g1 g'); [|exact H].
    destruct e; cbn [Game.on_event] in E; try discriminate.
    + eapply on_keydown_game_wf; eassumption.
    + injection E as <-. exact Hwf.
Qed.

(** The state a frame continues with, in terms of the state after the
    events. *)
Lemma frame_cases ms events g :
  match Game.handle_events events g with
  | None => Game.frame ms events g = Exit
  | Some g1 =>
      let dt := (inject_Z ms / 1000)%Q in
      let diff := difficulty (Player.max_row (Game.player g1)) in
      let y := if Player.dead (Game.player g1) then Game.cam_y g1
               else (Game.cam_y g1 + (BASE_SCROLL_SPEED * diff) * dt)%Q in
      let row := Qfloor (y / inject_Z TILE) in
      exists w,
        World.update dt row diff (Game.world g1) = Some w /\
        Game.frame ms events g =
        Continue
          (Game.mk (Player.update dt w y (Game.player g1)).2
                   (Player.update dt w y (Game.player g1)).1
                   y row (Game.worlds g1) (Game.resets g1))
  end.
Proof.
  unfold Game.frame.
  destruct (Game.handle_events events g) as [g1|]; [|reflexivity].
  cbv zeta.
  destruct (Player.dead (Game.player g1)) eqn:Hd; cbn [negb];
    cbn [Game.cam_y Game.set_cam_y Game.set_camera_row Game.camera_row
         Game.world Game.player];
    match goal with
    | |- context [World.update ?dt ?r ?d ?w] =>
        destruct (world_update_total dt r d w (difficulty_nonzero _))
          as (w1 & E); exists w1; split; [exact E|]; rewrite E
    end;
    match goal with
    | |- context [Player.update ?dt ?w ?y ?p] =>
        destruct (Player.update dt w y p) as [p' w']
    end; reflexivity.
Qed.

Lemma frame_after_events ms events g g1 :
  Game.handle_events events g = Some g1 ->
  let dt := (inject_Z ms / 1000)%Q in
  let diff := difficulty (Player.max_row (Game.player g1)) in
  let y := if Player.dead (Game.player g1) then Game.cam_y g1
           else (Game.cam_y g1 + (BASE_SCROLL_SPEED * diff) * dt)%Q in
  let row := Qfloor (y / inject_Z TILE) in
  exists w,
    World.update dt row diff (Game.world g1) = Some w /\
    Game.frame ms events g =
    Continue
      (Game.mk (Player.update dt w y (Game.player g1)).2
               (Player.update dt w y (Game.player g1)).1
               y row (Game.worlds g1) (Game.resets g1)).
Proof.
  intros He. pose proof (frame_cases ms events g) as Hc.
  rewrite He in Hc. exact Hc.
Qed.

Lemma run_cons ms events rest g :
  Game.run ((ms, events) :: rest) g =
  match Game.frame ms events g with
  | Continue g' => Game.run rest g'
  | o => o
  end.
Proof. reflexivity. Qed.

Lemma run_nil g : Game.run [] g = Continue g.
Proof. reflexivity. Qed.

Lemma frame_game_wf ms events g g' :
  game_wf g -> Game.frame ms events g = Continue g' -> game_wf g'.
Proof.
  intros Hwf Hf. pose proof (frame_cases ms events g) as Hc.
  destruct (Game.handle_events events g) as [g1|] eqn:He;
    [|rewrite Hc in Hf; discriminate].
  pose proof (handle_events_game_wf events g g1 Hwf He) as [Hw1 Hp1].
  cbv zeta in Hc. destruct Hc as (w & Hup & E).
  rewrite E in Hf. injection Hf as <-.
  pose proof (world_wf_update _ _ _ _ _ Hw1 Hup) as Hw.
  set (dt := (inject_Z ms / 1000)%Q) in *.
  set (y := if Player.dead (Game.player g1) then _ else _) in *.
  split; cbn [Game.world Game.player].
  - destruct (update_world dt w y (Game.player g1)) as [-> | ->];
      [exact Hw|apply world_wf_lane_at; exact Hw].
  - destruct (Player.dead (Game.player g1)) eqn:Hd.
    + rewrite update_dead by exact Hd. cbn [fst]. congruence.
    + apply (update_on_screen dt w y (Game.player g1) (Hp1 eq_refl)).
Qed.

Lemma run_game_wf inputs : forall g g',
  game_wf g -> Game.run inputs g = Continue g' -> game_wf g'.
Proof.
  induction inputs as [|[ms events] inputs IH]; intros g g' Hwf H;
    cbn [Game.run] in H.
  - injection H as <-. exact Hwf.
  - destruct (Game.frame ms events g) as [| |g1] eqn:E; try discriminate.
    apply (IH g1 g'); [|exact H].
    eapply frame_game_wf; eassumption.
Qed.

Lemma frame_not_raise ms events g : Game.frame ms events g <> Raise.
Proof.
  pose proof (frame_cases ms events g) as Hc.
  destruct (Game.handle_events events g) as [g1|].
  - cbv zeta in Hc. destruct Hc as (w & _ & ->). discriminate.
  - rewrite Hc. discriminate.
Qed.



Lemma Continue_inj {A} (a b : A) : Continue a = Continue b -> a = b.
Proof. intros [= H]. exact H. Qed.



(** While the player is dead, plain events do nothing. *)
Lemma handle_events_dead events : forall g,
  Player.dead (Game.player g) = true ->
  Forall plain_event events ->
  Game.handle_events events g = Some g.
Proof.
  induction events as [|e events IH]; intros g Hd Hall; [reflexivity|].
  apply Forall_cons in Hall as [(Hq & He & Hr) Hall].
  cbn [Game.handle_events].
  assert (E : Game.on_event e g = Some g).
  { destruct e as [|key|]; [congruence| |reflexivity].
    cbn [Game.on_event]. unfold Game.on_keydown.
    destruct key; try congruence; cbv zeta; rewrite Hd; reflexivity. }
  rewrite E. apply IH; assumption.
Qed.

End GameFacts.

(** X19: the game loop never raises.  Whatever the frame times and the
    events, no iteration ends in a [ZeroDivisionError]: the difficulty the
    loop passes down is at least 0.6, so none of the divisions by it can
    fail.  An iteration ends the program only through [sys.exit()]. *)
Theorem game_never_raises :
  forall (inputs : list (Z * list Event)) (g : Game.t),
    Game.run inputs g <> Raise.
Proof.
  induction inputs as [|[ms events] inputs IH]; intros g;
    cbn [Game.run]; [discriminate|].
  pose proof (frame_not_raise ms events g) as Hn.
  destruct (Game.frame ms events g) as [| |g1]; [discriminate|congruence|].
  apply IH.
Qed.

(** X20: in every state the game reaches from its start, whatever the
    inputs, every lane is stored under its own row, no two obstacles of a
    lane are closer than [MIN_GAP], and a player that is alive has its
    centre on the screen and stands on the tile under its centre, on a row
    between 0 and its score. *)
Theorem game_state_invariant :
  forall (streams : nat -> Rng) (inputs : list (Z * list Event))
         (g : Game.t),
    Game.run inputs (Game.init streams) = Continue g ->
    (forall r l, World.lanes (Game.world g) !! r = Some l ->
       Lane.row l = r /\
       forall a b, a ∈ Lane.obstacles l -> b ∈ Lane.obstacles l -> a <> b ->
         (Obstacle.x a + Obstacle.w a + MIN_GAP <= Obstacle.x b)%Q \/
         (Obstacle.x b + Obstacle.w b + MIN_GAP <= Obstacle.x a)%Q) /\
    (Player.dead (Game.player g) = false ->
     (0 <= Player.x_px (Game.player g) /\
      Player.x_px (Game.player g) <= inject_Z SCREEN_W)%Q /\
     Player.col (Game.player g)
     = Qfloor (Player.x_px (Game.player g) / inject_Z TILE) /\
     0 <= Player.col (Game.player g) <= GRID_W /\
     0 <= Player.row (Game.player g) <= Player.max_row (Game.player g)).
Proof.
  intros streams inputs g Hrun.
  destruct (run_game_wf inputs (Game.init streams) g
              (init_game_wf streams) Hrun) as [Hw Hp].
  split.
  - intros r l Hl. destruct (Hw r l Hl) as (Hr & [_ Hnd] & Hsep).
    split; [exact Hr|]. intros a b Ha Hb Hne.
    apply Hsep; [exact Ha|exact Hb|]. intros Hoid. apply Hne.
    exact (same_oid_same_obstacle (Lane.obstacles l) a b Hnd Ha Hb Hoid).
  - intros Hd. pose proof (Hp Hd) as Hon.
    pose proof (on_screen_col _ Hon) as Hcol.
    destruct Hon as (Hx & Hc & Hr). auto.
Qed.

Lemma game_state_invariant_witness :
  match Game.run [(16, [KEYDOWN K_UP])] (Game.init (fun _ => zero_rng)) with
  | Continue g =>
      Player.dead (Game.player g) = false ->
      0 <= Player.col (Game.player g) <= GRID_W /\
      0 <= Player.row (Game.player g) <= Player.max_row (Game.player g)
  | _ => False
  end.
Proof.
  destruct (frame_after_events 16 [KEYDOWN K_UP]
              (Game.init (fun _ => zero_rng))
              (if negb (Player.dead
                          (Game.player (Game.init (fun _ => zero_rng))))
               then Game.move 0 1 (Game.init (fun _ => zero_rng))
               else Game.init (fun _ => zero_rng)) eq_refl)
    as (w & _ & Hf).
  destruct (Game.run [(16, [KEYDOWN K_UP])] (Game.init (fun _ => zero_rng)))
    as [| |g] eqn:E.
  - rewrite run_cons, Hf, run_nil in E. discriminate E.
  - rewrite run_cons, Hf, run_nil in E. discriminate E.
  - destruct (game_state_invariant (fun _ => zero_rng)
                [(16, [KEYDOWN K_UP])] g E) as [_ H].
    intros Hd. destruct (H Hd) as (_ & _ & H3 & H4). auto.
Defined.



(** X22: game over freezes the player and the camera but not the world.
    When the player is dead and the events of an iteration contain neither
    a quit request, nor Escape, nor R, the iteration continues with the same
    player, the same camera position and the same restart count, while the
    world is still updated, at the old camera position and with the
    difficulty of the final score. *)
Theorem game_over_is_frozen :
  forall (ms : Z) (events : list Event) (g : Game.t),
    Player.dead (Game.player g) = true ->
    Forall (fun e => e <> QUIT /\ e <> KEYDOWN K_ESCAPE /\ e <> KEYDOWN K_r)
           events ->
    exists g',
      Game.frame ms events g = Continue g' /\
      Game.player g' = Game.player g /\
      Game.cam_y g' = Game.cam_y g /\
      Game.resets g' = Game.resets g /\
      Game.camera_row g' = Qfloor (Game.cam_y g / inject_Z TILE) /\
      World.update (inject_Z ms / 1000)
                   (Qfloor (Game.cam_y g / inject_Z TILE))
                   (difficulty (Player.max_row (Game.player g)))
                   (Game.world g)
      = Some (Game.world g').
Proof.
  intros ms events g Hd Hall.
  pose proof (frame_cases ms events g) as Hc.
  rewrite (handle_events_dead events g Hd Hall) in Hc.
  cbv zeta in Hc. rewrite Hd in Hc.
  destruct Hc as (w & Hup & E).
  rewrite update_dead in E by exact Hd. cbn [fst snd] in E.
  eexists. split; [exact E|]. cbn. auto 10.
Qed.

Lemma game_over_is_frozen_witness :
  let g := Game.mk (World.init zero_rng) (Player.kill Player.init) 0 0
                   (fun _ => zero_rng) 1 in
  exists g',
    Game.frame 16 [KEYDOWN K_LEFT; OTHER_EVENT] g = Continue g' /\
    Game.player g' = Game.player g /\
    Game.cam_y g' = Game.cam_y g.
Proof.
  destruct (game_over_is_frozen 16 [KEYDOWN K_LEFT; OTHER_EVENT]
              (Game.mk (World.init zero_rng) (Player.kill Player.init) 0 0
                       (fun _ => zero_rng) 1) eq_refl)
    as (g' & H1 & H2 & H3 & _).
  - repeat constructor; discriminate.
  - exists g'. auto.
Defined.

(** ** The start zone, and the appearance of a train *)

Section StartZone.

(** The loop of [World.__init__] over the safe rows only builds ground
    lanes with the centre columns free. *)
Lemma safe_rows_open n : forall (w : World.t) prev_open,
  span 0 w ->
  World.max_generated_row w + Z.of_nat n < START_SAFE_ROWS ->
  (forall r l, World.lanes w !! r = Some l ->
     Lane.type l = LANE_GRASS /\
     forall c, c ∈ Lane.blocked_cols l -> c <> 4 /\ c <> 5 /\ c <> 6) ->
  let w' :=
    (foldl (fun '(w, prev_open) r =>
              let w := World._ensure_lane r (Some LANE_GRASS)
                         (Some prev_open) w in
              (w, Lane.open_cols (World.lanes w !!! r)))
           (w, prev_open)
           (seqZ (World.max_generated_row w + 1) (Z.of_nat n))).1 in
  forall r l, World.lanes w' !! r = Some l ->
    Lane.type l = LANE_GRASS /\
    forall c, c ∈ Lane.blocked_cols l -> c <> 4 /\ c <> 5 /\ c <> 6.
Proof.
  induction n as [|n IH]; intros w prev_open Hspan Hmax Hsafe.
  - cbn. exact Hsafe.
  - rewrite Nat2Z.inj_succ, seqZ_cons by lia. cbn [foldl].
    set (r0 := World.max_generated_row w + 1).
    destruct (span_ensure_next 0 r0 (Some LANE_GRASS) (Some prev_open) w
                Hspan eq_refl) as [Hspan1 Hmax1].
    assert (Habs : r0 ∉ dom (World.lanes w)).
    { destruct Hspan as (_ & Hdom & _). intros Hin. apply Hdom in Hin.
      subst r0. lia. }
    assert (Hsafe1 : forall r l,
              World.lanes (World._ensure_lane r0 (Some LANE_GRASS)
                             (Some prev_open) w) !! r = Some l ->
              Lane.type l = LANE_GRASS /\
              forall c, c ∈ Lane.blocked_cols l -> c <> 4 /\ c <> 5 /\ c <> 6).
    { destruct (ensure_lane_absent_init r0 (Some LANE_GRASS)
                  (Some prev_open) w Habs) as (ty & s0 & _ & Hty & ->).
      destruct (Hty LANE_GRASS eq_refl) as [-> _].
      intros r l. cbn [World.lanes].
      destruct (decide (r = r0)) as [->|Hne].
      - rewrite lookup_insert_eq. intros [= <-].
        destruct (Lane_init_traffic r0 LANE_GRASS (Some prev_open) s0)
          as (_ & Ht & _).
        split; [exact Ht|]. intros c Hc.
        destruct (safe_zone_centre_free r0 (Some prev_open) s0 ltac:(lia)
                    c Hc) as (_ & H).
        exact H.
      - rewrite lookup_insert_ne by congruence. apply Hsafe. }
    set (w1 := World._ensure_lane r0 _ _ w) in *.
    specialize (IH w1 (Lane.open_cols (World.lanes w1 !!! r0)) Hspan1
                  ltac:(lia) Hsafe1).
    cbv zeta in IH.
    replace (Z.succ r0) with (World.max_generated_row w1 + 1) by lia.
    replace (Z.pred (Z.succ (Z.of_nat n))) with (Z.of_nat n) by lia.
    exact IH.
Qed.

Lemma init_start_zone g r :
  0 <= r < START_SAFE_ROWS ->
  exists l,
    World.lanes (World.init g) !! r = Some l /\
    Lane.type l = LANE_GRASS /\
    forall c, c ∈ Lane.blocked_cols l -> c <> 4 /\ c <> 5 /\ c <> 6.
Proof.
  intros Hr. unfold World.init.
  set (w0 := World.mk (mkStore g 0) ∅ (-1) []).
  assert (Hspan0 : span 0 w0).
  { unfold span, w0. cbn. split; [lia|]. split; [|split; constructor].
    intros r'. rewrite dom_empty_L. split; [set_solver | lia]. }
  pose proof (span_safe_rows 6 w0 Lane.all_cols Hspan0) as Hsp.
  pose proof (safe_rows_open 6 w0 Lane.all_cols Hspan0) as Hsafe.
  cbv zeta in Hsp, Hsafe.
  change (seqZ (World.max_generated_row w0 + 1) (Z.of_nat 6))
    with (range 0 START_SAFE_ROWS) in Hsp, Hsafe.
  destruct (foldl _ (w0, Lane.all_cols) (range 0 START_SAFE_ROWS))
    as [w1 prev].
  cbn [fst] in Hsp, Hsafe. destruct Hsp as [Hspan1 Hmax1].
  assert (Hin : r ∈ dom (World.lanes w1)).
  { destruct Hspan1 as (_ & Hdom & _). apply Hdom.
    rewrite Hmax1. cbn. unfold START_SAFE_ROWS in Hr. lia. }
  apply elem_of_dom in Hin as [l Hl]. exists l.
  split.
  - apply generate_rows_keeps. exact Hl.
  - apply (Hsafe ltac:(cbn; unfold START_SAFE_ROWS; lia)
                 ltac:(intros r' l'; cbn; rewrite lookup_empty; discriminate)
                 r l Hl).
Qed.

End StartZone.

(** X23: every game starts in the open.  Whatever the seed, rows 0 to 5 of
    a new world are ground lanes on which columns 4, 5 and 6 are free of
    trees, so the start cell (column 5, row 1) is free and the player can
    walk straight ahead through the whole safe zone. *)
Theorem start_zone_is_open :
  forall (g : Rng) (r : Z),
    0 <= r < START_SAFE_ROWS ->
    exists l,
      World.lanes (World.init g) !! r = Some l /\
      Lane.type l = LANE_GRASS /\
      Lane.is_blocked l 4 = false /\
      Lane.is_blocked l (Player.col Player.init) = false /\
      Lane.is_blocked l 6 = false.
Proof.
  intros g r Hr. destruct (init_start_zone g r Hr) as (l & Hl & Hty & Hb).
  exists l. split; [exact Hl|]. split; [exact Hty|].
  unfold Lane.is_blocked. change (Player.col Player.init) with 5.
  repeat split; apply bool_decide_eq_false; intros Hc;
    destruct (Hb _ Hc) as (? & ? & ?); congruence.
Qed.

Lemma start_zone_is_open_witness :
  exists l,
    World.lanes (World.init zero_rng) !! 1 = Some l /\
    Lane.type l = LANE_GRASS /\
    Lane.is_blocked l 4 = false /\
    Lane.is_blocked l (Player.col Player.init) = false /\
    Lane.is_blocked l 6 = false.
Proof.
  apply (start_zone_is_open zero_rng 1). unfold START_SAFE_ROWS. lia.
Defined.

(** X24: the update in which the countdown of an idle railway lane runs out
    starts the train, and where it starts depends on its direction.  A
    train moving right starts with its left end twelve tiles left of the
    screen and, being sixteen tiles long, is at once over every point of the
    four leftmost columns: a player standing there on that lane is killed by
    the collision check of the same frame.  A train moving left starts
    twelve tiles right of the screen and is over no point of the screen. *)
Theorem train_appears_over_left_columns :
  forall (dt diff : Q) (l l' : Lane.t) (s s' : Store) (cam_y : Q)
         (p : Player.t),
    Lane.type l = LANE_RAIL ->
    Lane.train_active l = false ->
    (Lane.train_timer l - dt <= 0)%Q ->
    Lane.update dt diff l s = (Some l', s') ->
    Lane.type l' = LANE_RAIL /\ Lane.train_active l' = true /\
    (Lane.train_dir l = 1 ->
     (0 <= Player.x_px p /\ Player.x_px p <= inject_Z (TILE * 4))%Q ->
     Player.dead (Player.collide l' cam_y p) = true) /\
    (Lane.train_dir l <> 1 ->
     (Player.x_px p <= inject_Z SCREEN_W)%Q ->
     Player.collide l' cam_y p =
     if SCREEN_H <? rect_from_tile_top (Player.col p) (Player.row p) cam_y
     then Player.kill p else p).
Proof.
  intros dt diff l l' s s' cam_y p Hty Hact Hz Hup.
  rewrite update_rail in Hup by exact Hty.
  destruct (train_phase_idle dt diff
              (Lane.cull_obstacles (Lane.move_obstacles dt diff l)) s
              Hty Hact)
    as (l2 & E & (_ & Hty2 & _) & _ & _ & _ & Ha & Hx & _).
  rewrite Hup in E. injection E as <- <-.
  lane_simpl. apply Qleb_le in Hz. rewrite Hz in Ha, Hx.
  assert (Hty' : Lane.type l' = LANE_RAIL) by congruence.
  split; [exact Hty'|]. split; [exact Ha|].
  unfold Player.collide. rewrite Hty', Ha. cbn [LaneType_eqb andb].
  cbv zeta. split.
  - intros Hd [Hlo Hhi]. rewrite Hd in Hx. change (1 =? 1) with true in Hx.
    cbv iota in Hx. rewrite Hx.
    change (inject_Z (- TILE * 12)) with (-576)%Q.
    change (inject_Z (TILE * 16)) with 768%Q.
    change (inject_Z (TILE * 4)) with 192%Q in Hhi.
    rewrite (proj2 (Qleb_le _ _)) by lra.
    rewrite (proj2 (Qleb_le _ _)) by lra. reflexivity.
  - intros Hd Hhi.
    assert (Hd' : (Lane.train_dir l =? 1) = false) by lia.
    rewrite Hd' in Hx. cbv iota in Hx. rewrite Hx.
    change (inject_Z (SCREEN_W + TILE * 12)) with 1104%Q.
    change (inject_Z SCREEN_W) with 528%Q in Hhi.
    rewrite (proj2 (Qleb_nle _ _)) by lra. reflexivity.
Qed.

Lemma train_appears_over_left_columns_witness :
  let l := Lane.set_train_dir (Lane.set_train_timer rail_demo (1 # 10)) 1 in
  match Lane.update (1 # 2) 1 l zero_store with
  | (Some l', _) =>
      Lane.train_active l' = true /\
      Player.dead (Player.collide l' 0 (Player.mk 2 7 120 false 7 false None 0))
      = true
  | (None, _) => False
  end.
Proof.
  cbv zeta.
  destruct (Lane.update (1 # 2) 1
              (Lane.set_train_dir (Lane.set_train_timer rail_demo (1 # 10)) 1)
              zero_store) as [[l'|] s'] eqn:E.
  - destruct (train_appears_over_left_columns (1 # 2) 1
                (Lane.set_train_dir
                   (Lane.set_train_timer rail_demo (1 # 10)) 1)
                l' zero_store s' 0
                (Player.mk 2 7 120 false 7 false None 0)
                eq_refl eq_refl ltac:(discriminate) E)
      as (_ & Ha & Hhit & _).
    split; [exact Ha|]. apply Hhit; [reflexivity|].
    split; discriminate.
  - vm_compute in E. discriminate E.
Defined.

(** ** The rows of the world during a game *)

Section Rows.

Lemma sorted_filter (P : Z -> Prop) `{!forall x, Decision (P x)} l :
  StronglySorted Z.lt l -> StronglySorted Z.lt (filter P l).
Proof.
  induction 1 as [|a l Hs IH Hall]; [constructor|].
  rewrite filter_cons. destruct (decide (P a)); [|exact IH].
  constructor; [exact IH|].
  rewrite Forall_forall in *. intros x Hx.
  apply list_elem_of_filter in Hx as [_ Hx]. apply Hall, Hx.
Qed.

Lemma sorted_filter_mono lo lo' l :
  lo <= lo' ->
  StronglySorted Z.lt (filter (Z.le lo) l) ->
  StronglySorted Z.lt (filter (Z.le lo') l).
Proof.
  intros Hle Hs.
  rewrite <- (list_filter_filter_l (Z.le lo') (Z.le lo)) by (intros x; lia).
  apply sorted_filter. exact Hs.
Qed.

Lemma sorted_filter_snoc lo l r m :
  Forall (fun x => x <= m) l -> m < r ->
  StronglySorted Z.lt (filter (Z.le lo) l) ->
  StronglySorted Z.lt (filter (Z.le lo) (l ++ [r])).
Proof.
  intros Hb Hr Hs. rewrite filter_app.
  apply StronglySorted_app_2; [|exact Hs|].
  - intros x1 x2 H1 H2. apply list_elem_of_filter in H1 as [_ H1].
    apply list_elem_of_filter in H2 as [_ H2].
    apply list_elem_of_singleton in H2 as ->.
    rewrite Forall_forall in Hb. specialize (Hb _ H1). cbv beta in Hb. lia.
  - apply sorted_filter. repeat constructor.
Qed.

Lemma filter_snoc_below lo l r :
  r < lo -> filter (Z.le lo) (l ++ [r]) = filter (Z.le lo) l.
Proof.
  intros H. rewrite filter_app, filter_cons.
  destruct (decide (lo <= r)); [lia|].
  rewrite filter_nil, app_nil_r. reflexivity.
Qed.

Lemma span_span_from lo (w : World.t) :
  span lo w -> lo <= World.max_generated_row w -> span_from lo w.
Proof.
  intros (Hlo & Hdom & Hs & Hb) Hle. unfold span_from.
  split; [lia|]. split; [intros r Hr; apply Hdom; exact Hr|].
  split; [intros r Hr; apply Hdom in Hr; lia|].
  split; [apply sorted_filter; exact Hs|exact Hb].
Qed.

(** [_ensure_lane] on a row that has been generated before, or on the row
    after the highest generated one. *)
Lemma span_from_ensure_lane lo row forced prev (w : World.t) :
  span_from lo w ->
  0 <= row <= World.max_generated_row w + 1 ->
  span_from lo (World._ensure_lane row forced prev w) /\
  World.max_generated_row (World._ensure_lane row forced prev w)
  = Z.max (World.max_generated_row w) row /\
  (forall r, r ∈ dom (World.lanes (World._ensure_lane row forced prev w))
             <-> r ∈ dom (World.lanes w) \/ r = row).
Proof.
  intros (Hlo & Hint & Hdom & Hs & Hb) Hrow.
  destruct (decide (row ∈ dom (World.lanes w))) as [Hin|Hout].
  - rewrite ensure_lane_present by exact Hin.
    split; [unfold span_from; auto|].
    split; [apply Hdom in Hin; lia|].
    intros r. split; [auto|intros [H| ->]; assumption].
  - destruct (ensure_lane_absent row forced prev w Hout) as (lane & st & ->).
    cbn [World.max_generated_row World.lanes World.gen_log].
    assert (Hcase : row < lo \/ row = World.max_generated_row w + 1).
    { destruct (Z_lt_le_dec row lo) as [Hl|Hl]; [left; exact Hl|]. right.
      destruct (Z_le_gt_dec row (World.max_generated_row w)) as [Hm|Hm];
        [|lia].
      exfalso. apply Hout, Hint. lia. }
    split; [|split; [reflexivity|]].
    + unfold span_from.
      cbn [World.max_generated_row World.lanes World.gen_log].
      split; [lia|]. split; [|split; [|split]].
      * intros r Hr.
        rewrite dom_insert_L, elem_of_union, elem_of_singleton.
        destruct (decide (r = row)) as [E|E]; [left; exact E|].
        right. apply Hint. lia.
      * intros r.
        rewrite dom_insert_L, elem_of_union, elem_of_singleton.
        intros [->|Hr]; [lia|]. apply Hdom in Hr. lia.
      * destruct Hcase as [Hc|Hc].
        -- rewrite filter_snoc_below by exact Hc. exact Hs.
        -- eapply sorted_filter_snoc; [exact Hb|lia|exact Hs].
      * apply Forall_app. split.
        -- eapply Forall_impl; [exact Hb|]. intros x Hx. cbv beta in *. lia.
        -- constructor; [lia|constructor].
    + intros r. rewrite dom_insert_L, elem_of_union, elem_of_singleton.
      tauto.
Qed.

Lemma span_from_generate_rows n : forall lo (w : World.t),
  span_from lo w ->
  span_from lo
    (foldl (fun w r =>
              World._ensure_lane r None (Some (World.prev_open_for r w)) w)
           w (seqZ (World.max_generated_row w + 1) (Z.of_nat n))) /\
  World.max_generated_row
    (foldl (fun w r =>
              World._ensure_lane r None (Some (World.prev_open_for r w)) w)
           w (seqZ (World.max_generated_row w + 1) (Z.of_nat n)))
  = World.max_generated_row w + Z.of_nat n.
Proof.
  induction n as [|n IH]; intros lo w Hspan.
  - simpl. split; [exact Hspan | lia].
  - rewrite Nat2Z.inj_succ, seqZ_cons by lia. cbn [foldl].
    set (r := World.max_generated_row w + 1).
    assert (Hr : 0 <= r <= World.max_generated_row w + 1)
      by (destruct Hspan as [? _]; subst r; lia).
    destruct (span_from_ensure_lane lo r None
                (Some (World.prev_open_for r w)) w Hspan Hr)
      as (Hspan1 & Hmax1 & _).
    set (w1 := World._ensure_lane r None _ w) in *.
    specialize (IH lo w1 Hspan1).
    replace (Z.succ r) with (World.max_generated_row w1 + 1) by lia.
    replace (Z.pred (Z.succ (Z.of_nat n))) with (Z.of_nat n) by lia.
    destruct IH as [IH1 IH2]. split; [exact IH1|]. lia.
Qed.

Lemma span_from_generate_up_to lo target (w : World.t) :
  span_from lo w ->
  span_from lo (World._generate_up_to target w) /\
  World.max_generated_row (World._generate_up_to target w)
  = Z.max (World.max_generated_row w) target.
Proof.
  intros Hspan. unfold World._generate_up_to, range.
  destruct (Z_le_dec (target + 1 - (World.max_generated_row w + 1)) 0)
    as [Hle|Hgt].
  - rewrite seqZ_nil by lia. simpl. split; [exact Hspan | lia].
  - pose proof (span_from_generate_rows
                  (Z.to_nat (target + 1 - (World.max_generated_row w + 1)))
                  lo w Hspan) as H.
    rewrite Z2Nat.id in H by lia.
    destruct H as [H1 H2]. split; [exact H1 | lia].
Qed.

(** [World.update] keeps the rows from the larger of [lo] and the pruning
    bound up, and leaves no row below the pruning bound. *)
Lemma span_from_update lo dt camera_row diff (w w' : World.t) :
  span_from lo w ->
  World.update dt camera_row diff w = Some w' ->
  span_from (Z.max lo (camera_row - 30)) w' /\
  World.max_generated_row w <= World.max_generated_row w' /\
  (forall r, r ∈ dom (World.lanes w') -> camera_row - 30 <= r).
Proof.
  intros Hspan Hup. unfold World.update in Hup.
  destruct (span_from_generate_up_to lo (camera_row + LANE_LOOKAHEAD) w
              Hspan) as [Hspan1 Hmax1].
  set (w1 := World._generate_up_to (camera_row + LANE_LOOKAHEAD) w) in *.
  destruct (foldl (World.update_lane_at dt diff) (Some w1) _)
    as [w2|] eqn:Hfold; [|discriminate].
  injection Hup as <-.
  destruct (update_lanes_frame dt diff _ w1 w2 Hfold) as (Hd & Hm & Hg).
  destruct Hspan1 as (Hlo & Hint & Hdom & Hsorted & Hbound).
  assert (Hmax2 : World.max_generated_row (World.prune (camera_row - 30) w2)
                  = World.max_generated_row w2) by reflexivity.
  assert (Hlog2 : World.gen_log (World.prune (camera_row - 30) w2)
                  = World.gen_log w2) by reflexivity.
  unfold LANE_LOOKAHEAD in *.
  split; [|split; [rewrite Hmax2, Hm; lia|]].
  - unfold span_from. rewrite Hmax2, Hlog2, Hm, Hg.
    split; [lia|]. split; [|split; [|split; [|exact Hbound]]].
    + intros r Hr. rewrite dom_prune, Hd. split; [apply Hint; lia|lia].
    + intros r Hr. rewrite dom_prune, Hd in Hr. apply Hdom, Hr.
    + eapply sorted_filter_mono; [|exact Hsorted]. lia.
  - intros r Hr. rewrite dom_prune in Hr. lia.
Qed.

Lemma span_from_lane_at lo row (w : World.t) :
  span_from lo w ->
  0 <= row <= World.max_generated_row w + 1 ->
  span_from lo (World.lane_at row w).2 /\
  World.max_generated_row (World.lane_at row w).2
  = Z.max (World.max_generated_row w) row /\
  (forall r, r ∈ dom (World.lanes (World.lane_at row w).2)
             <-> r ∈ dom (World.lanes w) \/ r = row).
Proof.
  intros Hspan Hrow. unfold World.lane_at. cbn [snd].
  apply span_from_ensure_lane; assumption.
Qed.

(** A move looks up the target row only after it has been found to be
    non-negative, and leaves the player on its row or on the target row. *)
Lemma try_move_rows dcol drow p world :
  Player.try_move dcol drow p world = (p, world) \/
  (0 <= Player.row p + drow /\
   (Player.try_move dcol drow p world).2
   = (World.lane_at (Player.row p + drow) world).2 /\
   (Player.row (Player.try_move dcol drow p world).1 = Player.row p \/
    Player.row (Player.try_move dcol drow p world).1
    = Player.row p + drow)).
Proof.
  unfold Player.try_move.
  destruct (Player.dead p); [left; reflexivity|]. cbv zeta.
  destruct (negb _); [left; reflexivity|].
  destruct (Z.ltb_spec (Player.row p + drow) 0); [left; reflexivity|].
  right. split; [lia|].
  destruct (World.lane_at (Player.row p + drow) world) as [lane w'].
  destruct (_ && _); cbn; auto.
Qed.

Lemma fresh_rows_settled g ws n :
  rows_settled (Game.mk (World.init g) Player.init 0 0 ws n).
Proof.
  destruct (span_init g) as [Hspan Hmax].
  unfold rows_settled, rows_wf, prune_row.
  cbn [Game.world Game.player Game.camera_row Game.cam_y].
  change (Z.max 0 (0 - 30)) with 0.
  split; [split; [|split]|].
  - apply span_span_from; [exact Hspan|].
    rewrite Hmax. unfold START_SAFE_ROWS, LANE_LOOKAHEAD. lia.
  - rewrite Hmax. cbn. unfold START_SAFE_ROWS, LANE_LOOKAHEAD. lia.
  - reflexivity.
  - intros r Hr Hlt. destruct Hspan as (_ & Hdom & _).
    apply Hdom in Hr. lia.
Qed.

Lemma reset_rows_wf g : rows_wf (Game.reset g).
Proof.
  unfold Game.reset.
  destruct (fresh_rows_settled (Game.worlds g (Game.resets g)) (Game.worlds g)
              (S (Game.resets g))) as [H _].
  exact H.
Qed.

Lemma move_rows_wf dcol drow g :
  -1 <= drow <= 1 -> rows_wf g -> rows_wf (Game.move dcol drow g).
Proof.
  intros Hdrow (Hspan & Hrow & Hcam). unfold Game.move.
  destruct (try_move_rows dcol drow (Game.player g) (Game.world g))
    as [E|(H0 & Hw & Hp)].
  - rewrite E. unfold rows_wf, prune_row. cbn. auto.
  - destruct (Player.try_move dcol drow (Game.player g) (Game.world g))
      as [p' w']. cbn [fst snd] in Hw, Hp. subst w'.
    destruct (span_from_lane_at (prune_row g)
                (Player.row (Game.player g) + drow) (Game.world g) Hspan
                ltac:(lia)) as (Hs & Hm & _).
    unfold rows_wf, prune_row in *.
    cbn [Game.world Game.player Game.camera_row Game.cam_y
         Game.set_player Game.set_world].
    split; [exact Hs|]. split; [|exact Hcam]. lia.
Qed.

Lemma on_keydown_rows_wf key g g' :
  rows_wf g -> Game.on_keydown key g = Some g' -> rows_wf g'.
Proof.
  intros Hwf. unfold Game.on_keydown.
  destruct key; try discriminate; cbv zeta; intros [= <-];
    try (destruct (negb (Player.dead (Game.player g)));
         [apply move_rows_wf; [lia|exact Hwf] | exact Hwf]);
    try (destruct (negb (Player.dead (Game.player g))); exact Hwf).
  destruct (Player.dead (Game.player g)) eqn:Hd.
  - cbn. apply reset_rows_wf.
  - rewrite Hd. cbn. exact Hwf.
Qed.

Lemma handle_events_rows_wf events : forall g g',
  rows_wf g -> Game.handle_events events g = Some g' -> rows_wf g'.
Proof.
  induction events as [|e events IH]; intros g g' Hwf H;
    cbn [Game.handle_events] in H.
  - injection H as <-. exact Hwf.
  - destruct (Game.on_event e g) as [g1|] eqn:E; [|discriminate].
    apply (IH g1 g'); [|exact H].
    destruct e; cbn [Game.on_event] in E; try discriminate.
    + eapply on_keydown_rows_wf; eassumption.
    + injection E as <-. exact Hwf.
Qed.

(** An iteration with a non-negative frame time: the update prunes whatever
    the moves have created below the pruning bound, and the look-up of the
    player's update can only bring back the player's own row. *)
Lemma frame_rows ms events g g' :
  0 <= ms -> game_wf g -> rows_wf g ->
  Game.frame ms events g = Continue g' -> rows_settled g'.
Proof.
  intros Hms Hgwf Hwf Hf. pose proof (frame_cases ms events g) as Hc.
  destruct (Game.handle_events events g) as [g1|] eqn:He;
    [|rewrite Hc in Hf; discriminate].
  pose proof (handle_events_game_wf events g g1 Hgwf He) as [_ Hp1].
  pose proof (handle_events_rows_wf events g g1 Hwf He)
    as (Hspan & Hrow & Hcam).
  cbv zeta in Hc. destruct Hc as (w & Hup & E).
  set (dt := (inject_Z ms / 1000)%Q) in *.
  set (d := difficulty (Player.max_row (Game.player g1))) in *.
  set (y := if Player.dead (Game.player g1) then _ else _) in *.
  set (c := Qfloor (y / inject_Z TILE)) in *.
  rewrite E in Hf. apply Continue_inj in Hf. subst g'.
  assert (Hmono : Game.camera_row g1 <= c).
  { rewrite Hcam. subst c. apply Qfloor_resp_le.
    assert (Hdt : (0 <= dt)%Q).
    { subst dt. unfold Qdiv. change (/ 1000)%Q with (1 # 1000).
      assert (H0 : (inject_Z 0 <= inject_Z ms)%Q)
        by (rewrite <- Zle_Qle; lia).
      change (inject_Z 0) with 0%Q in H0. lra. }
    pose proof (difficulty_bounds (Player.max_row (Game.player g1)))
      as [Hlo Hhi].
    fold d in Hlo, Hhi.
    assert (Hy : (Game.cam_y g1 <= y)%Q).
    { subst y. destruct (Player.dead (Game.player g1));
        [apply Qle_refl|].
      change BASE_SCROLL_SPEED with (48 * (70 # 100))%Q. nra. }
    unfold Qdiv. change (/ inject_Z TILE)%Q with (1 # 48). lra. }
  assert (Hcdef : c = Qfloor (y / inject_Z TILE)) by reflexivity.
  clearbody c y.
  destruct (span_from_update _ dt c d _ w Hspan Hup)
    as (Hspan' & Hmax' & Hlow).
  assert (Hlo : Z.max (prune_row g1) (c - 30) = Z.max 0 (c - 30))
    by (unfold prune_row; lia).
  rewrite Hlo in Hspan'.
  assert (Hprow : Player.row (Player.update dt w y (Game.player g1)).1
                  = Player.row (Game.player g1)).
  { destruct (Player.dead (Game.player g1)) eqn:Hd.
    - rewrite update_dead by exact Hd. reflexivity.
    - apply (update_on_screen dt w y (Game.player g1) (Hp1 eq_refl)). }
  unfold rows_settled, rows_wf, prune_row.
  cbn [Game.world Game.player Game.camera_row Game.cam_y].
  rewrite Hprow.
  destruct (update_world dt w y (Game.player g1)) as [-> | ->].
  - split; [split; [exact Hspan'|split; [lia|exact Hcdef]]|].
    intros r Hr Hlt. pose proof (Hlow r Hr).
    destruct Hspan' as (_ & _ & Hdom & _). apply Hdom in Hr. lia.
  - destruct (span_from_lane_at _ (Player.row (Game.player g1)) w Hspan'
                ltac:(lia)) as (Hs2 & Hm2 & Hd2).
    split; [split; [exact Hs2|split; [lia|exact Hcdef]]|].
    intros r Hr Hlt. apply Hd2 in Hr as [Hr| ->]; [|reflexivity].
    pose proof (Hlow r Hr).
    destruct Hspan' as (_ & _ & Hdom & _). apply Hdom in Hr. lia.
Qed.

Lemma run_rows inputs : forall g g',
  Forall (fun i => 0 <= i.1) inputs ->
  game_wf g -> rows_settled g ->
  Game.run inputs g = Continue g' -> rows_settled g'.
Proof.
  induction inputs as [|[ms events] inputs IH]; intros g g' Hall Hg Hr H;
    cbn [Game.run] in H.
  - injection H as <-. exact Hr.
  - destruct (Game.frame ms events g) as [| |g1] eqn:E; try discriminate.
    apply Forall_cons in Hall as [Hms Hall]. cbn [fst] in Hms.
    apply (IH g1 g'); [exact Hall| | |exact H].
    + eapply frame_game_wf; eassumption.
    + eapply frame_rows; [exact Hms|exact Hg|apply Hr|exact E].
Qed.

End Rows.

(** C7 (as amended): at the end of every iteration of the game loop,
    whatever the seeds, the events and the non-negative frame times, let
    [lo] be the pruning bound [max 0 (camera_row - 30)].  Then [lo] is at
    most the highest generated row, every row from [lo] up to the highest
    generated row is present in the row-to-lane mapping, the only row that
    can be present outside this interval is the row the player stands on,
    below [lo] (the look-up of the player's update creates it again after it
    has been pruned), and the rows from [lo] on were generated in strictly
    increasing order. *)
Theorem world_rows_contiguous :
  forall (streams : nat -> Rng) (inputs : list (Z * list Event))
         (g : Game.t),
    Forall (fun i => 0 <= i.1) inputs ->
    Game.run inputs (Game.init streams) = Continue g ->
    Z.max 0 (Game.camera_row g - 30)
      <= World.max_generated_row (Game.world g) /\
    (forall r : Z,
        Z.max 0 (Game.camera_row g - 30) <= r
          <= World.max_generated_row (Game.world g) ->
        is_Some (World.lanes (Game.world g) !! r)) /\
    (forall r : Z,
        is_Some (World.lanes (Game.world g) !! r) ->
        Z.max 0 (Game.camera_row g - 30) <= r
          <= World.max_generated_row (Game.world g) \/
        (0 <= r < Z.max 0 (Game.camera_row g - 30) /\
         r = Player.row (Game.player g))) /\
    StronglySorted Z.lt
      (filter (Z.le (Z.max 0 (Game.camera_row g - 30)))
              (World.gen_log (Game.world g))).
Proof.
  intros streams inputs g Hall Hrun.
  destruct (run_rows inputs (Game.init streams) g Hall
              (init_game_wf streams) (fresh_rows_settled _ _ _) Hrun)
    as [((Hlo & Hint & Hdom & Hs & _) & _ & _) Hstray].
  unfold prune_row in *.
  split; [lia|]. split; [|split; [|exact Hs]].
  - intros r Hr. apply elem_of_dom, Hint, Hr.
  - intros r Hr. apply elem_of_dom in Hr.
    pose proof (Hdom r Hr) as Hb.
    destruct (Z_lt_le_dec r (Z.max 0 (Game.camera_row g - 30))) as [Hl|Hl];
      [right|left; lia].
    split; [lia|]. apply Hstray; assumption.
Qed.

Lemma world_rows_contiguous_witness :
  match Game.run [(16, [KEYDOWN K_UP])] (Game.init (fun _ => zero_rng)) with
  | Continue g =>
      Z.max 0 (Game.camera_row g - 30)
        <= World.max_generated_row (Game.world g) /\
      (forall r : Z,
          Z.max 0 (Game.camera_row g - 30) <= r
            <= World.max_generated_row (Game.world g) ->
          is_Some (World.lanes (Game.world g) !! r))
  | _ => False
  end.
Proof.
  destruct (frame_after_events 16 [KEYDOWN K_UP]
              (Game.init (fun _ => zero_rng))
              (if negb (Player.dead
                          (Game.player (Game.init (fun _ => zero_rng))))
               then Game.move 0 1 (Game.init (fun _ => zero_rng))
               else Game.init (fun _ => zero_rng)) eq_refl)
    as (w & _ & Hf).
  destruct (Game.run [(16, [KEYDOWN K_UP])] (Game.init (fun _ => zero_rng)))
    as [| |g] eqn:E.
  - rewrite run_cons, Hf, run_nil in E. discriminate E.
  - rewrite run_cons, Hf, run_nil in E. discriminate E.
  - assert (Hall : Forall (fun i : Z * list Event => 0 <= i.1)
                     [(16, [KEYDOWN K_UP])]).
    { constructor; [cbn [fst]; lia|constructor]. }
    destruct (world_rows_contiguous (fun _ => zero_rng)
                [(16, [KEYDOWN K_UP])] g Hall E) as (H1 & H2 & _).
    split; [exact H1 | exact H2].
Defined.

(** C7 (as stated) fails in the game beyond pruning.  A single iteration of
    100 seconds on a fresh game moves the camera to row 43: the update
    generates the rows up to 98 and prunes the rows below 13, and the
    player's update then looks up row 1, on which the player still stands,
    and creates it again.  Row 1 is present while rows 2 to 12 are not, and
    row 1 has been generated after row 98. *)
Lemma recreated_row_example :
  match Game.frame 100000 [] (Game.init (fun _ => zero_rng)) with
  | Continue g =>
      Game.camera_row g = 43 /\
      World.max_generated_row (Game.world g) = 98 /\
      Player.row (Game.player g) = 1 /\
      World.lanes (Game.world g) !! 0 = None /\
      is_Some (World.lanes (Game.world g) !! 1) /\
      World.lanes (Game.world g) !! 2 = None /\
      World.lanes (Game.world g) !! 12 = None /\
      is_Some (World.lanes (Game.world g) !! 13) /\
      World.gen_log (Game.world g) = seqZ 0 99 ++ [1] /\
      ~ StronglySorted Z.lt (World.gen_log (Game.world g))
  | _ => False
  end.
Proof.
  assert (H : match Game.frame 100000 [] (Game.init (fun _ => zero_rng)) with
              | Continue g =>
                  Some (Game.camera_row g,
                        World.max_generated_row (Game.world g),
                        Player.row (Game.player g),
                        Lane.row <$> World.lanes (Game.world g) !! 0,
                        Lane.row <$> World.lanes (Game.world g) !! 1,
                        Lane.row <$> World.lanes (Game.world g) !! 2,
                        Lane.row <$> World.lanes (Game.world g) !! 12,
                        Lane.row <$> World.lanes (Game.world g) !! 13,
                        World.gen_log (Game.world g))
              | _ => None
              end
              = Some (43, 98, 1, None, Some 1, None, None, Some 13,
                      seqZ 0 99 ++ [1]))
    by (vm_compute; reflexivity).
  destruct (Game.frame 100000 [] (Game.init (fun _ => zero_rng)))
    as [| |g]; try discriminate H.
  injection H as Hc Hm Hp H0 H1 H2 H12 H13 Hlog.
  repeat match goal with
         | |- _ /\ _ => split
         | |- _ = _ => assumption
         | Hf : _ <$> ?m = None |- ?m = None =>
             destruct m; [discriminate Hf|reflexivity]
         | Hf : _ <$> ?m = Some _ |- is_Some ?m =>
             destruct m; [eauto|discriminate Hf]
         end.
  rewrite Hlog. intros Hs.
  assert (H98 : 98 < 1); [|lia].
  apply (StronglySorted_app_1_elem_of Z.lt (seqZ 0 99) [1] 98 1 Hs).
  - apply elem_of_seqZ. lia.
  - apply list_elem_of_singleton. reflexivity.
Qed.
